(** * convert_runs_in_hprc_to_locus_table.py: grouping of allele sizes by locus and motif

    A shallow embedding of [src/data-prep/convert_runs_in_hprc_to_locus_table.py]
    and the properties of its streaming group-by.

    - Python [str] values are [string]s; the model is exact for ASCII text.
    - Python [int] values are [Z] (unbounded); the conversions between [str]
      and [int] keep the interpreter's default limit of 4300 digits.
    - Python [dict]s whose iteration order is observable ([collections.Counter],
      [collections.defaultdict]) are association lists in insertion order.
    - Python [set]s are [gset]s.
    - numpy's float64 results are the kernel's binary64 floats. *)

From Stdlib Require Import ZArith String Ascii List Floats DecimalString DecimalPos.
From stdpp Require Import base decidable option list sorting gmap strings.

Local Open Scope string_scope.
Local Open Scope list_scope.
Local Open Scope Z_scope.

(** ** Python built-ins used by the script *)

Module Py.

(** [str.isspace] on ASCII: TAB, LF, VT, FF, CR, FS, GS, RS, US and SPACE. *)
Definition isspace (c : ascii) : bool :=
  let n := nat_of_ascii c in
  ((9 <=? n)%nat && (n <=? 13)%nat) || ((28 <=? n)%nat && (n <=? 32)%nat).

Fixpoint lstrip (s : string) : string :=
  match s with
  | String c s' => if isspace c then lstrip s' else s
  | EmptyString => EmptyString
  end.

Fixpoint rstrip (s : string) : string :=
  match s with
  | EmptyString => EmptyString
  | String c s' =>
      match rstrip s' with
      | EmptyString => if isspace c then EmptyString else String c EmptyString
      | t => String c t
      end
  end.

(** [s.strip()] *)
Definition strip (s : string) : string := rstrip (lstrip s).

(** [s.split(sep)] for a one-character separator: never the empty list. *)
Fixpoint split (sep : ascii) (s : string) : list string :=
  match s with
  | EmptyString => [EmptyString]
  | String c s' =>
      if Ascii.eqb c sep then EmptyString :: split sep s'
      else match split sep s' with
           | w :: ws => String c w :: ws
           | [] => [String c EmptyString]
           end
  end.

(** [sep.join(parts)] *)
Fixpoint join (sep : string) (parts : list string) : string :=
  match parts with
  | [] => ""
  | [p] => p
  | p :: ps => p +:+ sep +:+ join sep ps
  end.

(** [c in s] for a one-character [c] *)
Fixpoint contains (c : ascii) (s : string) : bool :=
  match s with
  | EmptyString => false
  | String c' s' => Ascii.eqb c' c || contains c s'
  end.

(** [s.endswith(suffix)]: [s] is [suffix], or what follows its first
    character ends with [suffix]. *)
Fixpoint endswith (s suffix : string) : bool :=
  String.eqb s suffix
  || match s with
     | String _ s' => endswith s' suffix
     | EmptyString => false
     end.

Definition digit (c : ascii) : option Z :=
  let n := nat_of_ascii c in
  if ((48 <=? n)%nat && (n <=? 57)%nat)%bool then Some (Z.of_nat (n - 48)) else None.

(** The white space that [int] skips around the digits, C's [isspace] in the
    C locale ([Py_ISSPACE]): TAB, LF, VT, FF, CR and SPACE. Unlike
    [str.strip] it leaves FS, GS, RS and US, which make [int] fail. *)
Definition c_isspace (c : ascii) : bool :=
  let n := nat_of_ascii c in
  ((9 <=? n)%nat && (n <=? 13)%nat) || (n =? 32)%nat.

Fixpoint skip_spaces (s : string) : string :=
  match s with
  | String c s' => if c_isspace c then skip_spaces s' else s
  | EmptyString => EmptyString
  end.

(** The scan of the digits of [int]: decimal digits, single underscores
    allowed between two digits. It gives the value, the number of digits
    (underscores are not counted, leading zeros are) and what follows the
    last digit; [None] when there is no digit, or an underscore at the start,
    after another one or at the end. *)
Fixpoint int_digits (acc digits : Z) (after_digit : bool) (s : string)
  : option (Z * Z * string) :=
  match s with
  | EmptyString => if after_digit then Some (acc, digits, EmptyString) else None
  | String c s' =>
      match digit c with
      | Some d => int_digits (10 * acc + d) (digits + 1) true s'
      | None =>
          if Ascii.eqb c "_" then
            if after_digit then int_digits acc digits false s' else None
          else if after_digit then Some (acc, digits, s) else None
      end
  end.

(** [sys.int_info.default_max_str_digits]: the length limit of the
    conversions between [str] and [int], which the script leaves as it is. *)
Definition max_str_digits : Z := 4300.

(** [int(s)] for a string [s], base ten; [None] is [ValueError]. White space
    around the number is skipped, one sign is accepted, and a number of more
    than [max_str_digits] digits is refused. *)
Definition int (s : string) : option Z :=
  let s1 := skip_spaces s in
  let '(negative, s2) :=
    match s1 with
    | String "+" t => (false, t)
    | String "-" t => (true, t)
    | _ => (false, s1)
    end in
  match int_digits 0 0 false s2 with
  | Some (n, digits, rest) =>
      if max_str_digits <? digits then None
      else match skip_spaces rest with
           | EmptyString => Some (if negative then - n else n)
           | String _ _ => None
           end
  | None => None
  end.

(** [str(n)] for an [int]. Python raises [ValueError] when [n] has more than
    [max_str_digits] digits; the integers that the script formats have no
    more (they are counts, line numbers, values of [int] and of float64). *)
Definition str (n : Z) : string := NilZero.string_of_int (Z.to_int n).

Definition str_nat (n : nat) : string := str (Z.of_nat n).

(** [int(x)] for a float, whose exact value is [m * 2^e], negated when [s]
    holds: truncation toward zero. [None] stands for the [ValueError] (NaN)
    or [OverflowError] (infinity) that Python raises. *)
Definition int_of_float (x : float) : option Z :=
  match Prim2SF x with
  | S754_zero _ => Some 0
  | S754_finite s m e =>
      let v := if (0 <=? e) then Z.pos m * 2 ^ e else Z.pos m / 2 ^ (- e) in
      Some (if s then - v else v)
  | S754_infinity _ | S754_nan => None
  end.

(** Nearest integer to [a / b], ties to even, for [0 <= a] and [0 < b]. *)
Definition div_half_even (a b : Z) : Z :=
  let q := a / b in
  let r := a mod b in
  if 2 * r <? b then q
  else if b <? 2 * r then q + 1
  else if Z.even q then q else q + 1.

Definition pad3 (n : Z) : string :=
  let s := str n in
  if n <? 10 then "00" +:+ s else if n <? 100 then "0" +:+ s else s.

(** [f"{x:.3f}"]: the exact value rounded to three decimals, ties to even. *)
Definition format_3f (x : float) : string :=
  match Prim2SF x with
  | S754_nan => "nan"
  | S754_infinity s => if s then "-inf" else "inf"
  | S754_zero s => (if s then "-" else "") +:+ "0.000"
  | S754_finite s m e =>
      let n := if (0 <=? e) then Z.pos m * 1000 * 2 ^ e
               else div_half_even (Z.pos m * 1000) (2 ^ (- e)) in
      (if s then "-" else "") +:+ str (n / 1000) +:+ "." +:+ pad3 (n mod 1000)
  end.

End Py.

Definition TAB : ascii := ascii_of_nat 9.
Definition LF : ascii := ascii_of_nat 10.

(** A line of the input file: the fields joined by TAB, then a line feed. *)
Definition tsv (fields : list string) : string :=
  Py.join (String TAB "") fields +:+ String LF "".

(** ** Exceptions and results *)

(** What can end the run. [message] gives the text Python reports. *)
Inductive exception : Type :=
| CannotResolveLocus (motif locus_id : string)
    (** [ValueError], line 44 *)
| UnexpectedAlleleCount (n : nat) (sample_id locus_id motif : string)
    (** [ValueError], line 58 *)
| NotSorted (line_number : nat) (current_locus_id : string)
    (** [parser.error], lines 121 and 148: exit status 2 *)
| FloatToInt (x : float)
    (** [int] of a NaN or an infinity, lines 74 and 75 *)
| IndexError
    (** [most_common(1)[0]] on an empty counter, line 51 *)
| UnboundLocal
    (** a loop variable read before any row assigned it, line 145 *).

Definition message (input_tsv : string) (e : exception) : string :=
  match e with
  | CannotResolveLocus motif locus_id =>
      "Couldn't resolve locus id for motif " +:+ motif +:+ " in " +:+ locus_id
  | UnexpectedAlleleCount n sample_id locus_id motif =>
      "Found " +:+ Py.str_nat n +:+ " alleles for " +:+ sample_id +:+ " in "
        +:+ locus_id +:+ " " +:+ motif
  | NotSorted line_number current_locus_id =>
      input_tsv +:+ " is not sorted by locus id on line #" +:+ Py.str_nat line_number
        +:+ ": " +:+ current_locus_id
  | FloatToInt _ => "cannot convert float to integer"
  | IndexError => "list index out of range"
  | UnboundLocal => "cannot access local variable"
  end.

Inductive result (A : Type) : Type :=
| Ok (a : A)
| Raise (e : exception).
Arguments Ok {A} a.
Arguments Raise {A} e.

#[global] Instance result_ret : MRet result := λ A a, Ok a.

#[global] Instance result_bind : MBind result := λ A B k r,
  match r with
  | Ok a => k a
  | Raise e => Raise e
  end.

(** ** numpy *)

(** The four numpy reductions the script calls, on a list of Python ints.
    Their results are float64 values. *)
Class Numpy : Type := {
  np_mean : list Z → float;
  np_std : list Z → float;
  np_median : list Z → float;
  np_percentile : list Z → Z → float;
}.

(** ** Dictionaries in insertion order *)

(** [d[k] += 1] on a [Counter] or a [defaultdict(int)]: a new key goes last. *)
Fixpoint incr {K : Type} `{EqDecision K} (k : K) (d : list (K * nat)) : list (K * nat) :=
  match d with
  | [] => [(k, 1%nat)]
  | (k', n) :: d' =>
      if decide (k = k') then (k', S n) :: d' else (k', n) :: incr k d'
  end.

(** [collections.Counter(xs)] *)
Definition Counter {K : Type} `{EqDecision K} (xs : list K) : list (K * nat) :=
  fold_left (fun d x => incr x d) xs [].

(** [max(items, key=itemgetter(1))] from the running maximum [best]: a later
    item replaces it only when its count is strictly larger. *)
Fixpoint max_count {K : Type} (best : K * nat) (items : list (K * nat)) : K * nat :=
  match items with
  | [] => best
  | x :: items' => max_count (if (snd best <? snd x)%nat then x else best) items'
  end.

(** [d.most_common(1)] *)
Definition most_common_1 {K : Type} (d : list (K * nat)) : list (K * nat) :=
  match d with
  | [] => []
  | x :: d' => [max_count x d']
  end.

(** [d[k].append(v)] on a [defaultdict(list)] *)
Fixpoint append_to {K V : Type} `{EqDecision K} (k : K) (v : V) (d : list (K * list V))
  : list (K * list V) :=
  match d with
  | [] => [(k, [v])]
  | (k', vs) :: d' =>
      if decide (k = k') then (k', (vs ++ [v])%list) :: d' else (k', vs) :: append_to k v d'
  end.

(** ** Orders used by [sorted] *)

(** [sorted] is modelled by a merge sort. Python's sort is stable; the lists
    sorted here never hold two different elements that compare equal (integers,
    and items of a dictionary by their key), so their sorted order is unique. *)

(** Tuples [(allele_size, count)] compare lexicographically. *)
Definition item_le (x y : Z * nat) : Prop :=
  x.1 < y.1 ∨ (x.1 = y.1 ∧ (x.2 ≤ y.2)%nat).

(** [key=lambda x: (x[0][1], x[0][0])]: by the larger allele, then the smaller. *)
Definition genotype_key (x : (Z * Z) * nat) : Z * Z := (x.1.2, x.1.1).

Definition key_le (a b : Z * Z) : Prop := a.1 < b.1 ∨ (a.1 = b.1 ∧ a.2 ≤ b.2).

Definition genotype_item_le (x y : (Z * Z) * nat) : Prop :=
  key_le (genotype_key x) (genotype_key y).

#[global] Instance item_le_dec : RelDecision item_le.
Proof. intros x y. unfold item_le. apply _. Defined.

#[global] Instance key_le_dec : RelDecision key_le.
Proof. intros x y. unfold key_le. apply _. Defined.

#[global] Instance genotype_item_le_dec : RelDecision genotype_item_le.
Proof. intros x y. unfold genotype_item_le. apply _. Defined.

#[global] Instance item_le_trans : Transitive item_le.
Proof. intros [a1 c1] [a2 c2] [a3 c3]. unfold item_le. simpl. lia. Qed.

#[global] Instance item_le_total : Total item_le.
Proof. intros [a1 c1] [a2 c2]. unfold item_le. simpl. lia. Qed.

#[global] Instance genotype_item_le_trans : Transitive genotype_item_le.
Proof.
  intros [[l1 h1] c1] [[l2 h2] c2] [[l3 h3] c3].
  unfold genotype_item_le, key_le, genotype_key. simpl. lia.
Qed.

#[global] Instance genotype_item_le_total : Total genotype_item_le.
Proof.
  intros [[l1 h1] c1] [[l2 h2] c2].
  unfold genotype_item_le, key_le, genotype_key. simpl. lia.
Qed.

(** ** Rows of the output table *)

Record row : Type := {
  locus_id : string;
  motif : string;
  allele_size_histogram : string;
  biallelic_histogram : string;
  mode_allele : Z;
  mean : string;
  stdev : string;
  median : Z;
  percentile_99th : Z;
}.

(** The text [process_group] writes for a row. *)
Definition row_line (r : row) : string :=
  Py.join (String TAB "")
    [locus_id r; motif r; allele_size_histogram r; biallelic_histogram r;
     Py.str (mode_allele r); mean r; stdev r; Py.str (median r);
     Py.str (percentile_99th r)] +:+ String LF "".

Definition header_line : string :=
  Py.join (String TAB "")
    ["locus_id"; "motif"; "allele_size_histogram"; "biallelic_histogram";
     "mode_allele"; "mean"; "stdev"; "median"; "99th_percentile"] +:+ String LF "".

(** ** process_group *)

Section ProcessGroup.
Context {np : Numpy}.

(** Lines 37 to 46: the first candidate that ends in [-motif]. *)
Definition resolve_locus_id (locus_id motif : string) : result string :=
  if Py.contains "," locus_id then
    match find (fun specific_locus_id => Py.endswith specific_locus_id ("-" +:+ motif))
               (Py.split "," locus_id) with
    | Some found_locus_id => Ok found_locus_id
    | None => Raise (CannotResolveLocus motif locus_id)
    end
  else Ok locus_id.

(** [tuple(sorted(allele_list))] for a list of two. *)
Definition sorted_pair (a b : Z) : Z * Z := if b <? a then (b, a) else (a, b).

(** Lines 53 to 60: the loop over the samples of the group. *)
Fixpoint count_genotypes (locus_id motif : string) (items : list (string * list Z))
    (genotype_counts : list ((Z * Z) * nat)) : result (list ((Z * Z) * nat)) :=
  match items with
  | [] => Ok genotype_counts
  | (sample_id, allele_list) :: items' =>
      match allele_list with
      | [a] => count_genotypes locus_id motif items' (incr (sorted_pair a a) genotype_counts)
      | [a; b] => count_genotypes locus_id motif items' (incr (sorted_pair a b) genotype_counts)
      | _ => Raise (UnexpectedAlleleCount (length allele_list) sample_id locus_id motif)
      end
  end.

Definition format_allele_count (x : Z * nat) : string :=
  Py.str x.1 +:+ "x:" +:+ Py.str_nat x.2.

Definition format_genotype_count (x : (Z * Z) * nat) : string :=
  Py.str x.1.1 +:+ "/" +:+ Py.str x.1.2 +:+ ":" +:+ Py.str_nat x.2.

Definition float_to_int (x : float) : result Z :=
  match Py.int_of_float x with
  | Some n => Ok n
  | None => Raise (FloatToInt x)
  end.

(** [process_group]: [Ok None] when nothing is written, [Ok (Some r)] when the
    row [r] is written to the output file. *)
Definition process_group (locus_id motif : string) (allele_sizes : list Z)
    (alleles_for_current_key_by_sample_id : list (string * list Z))
  : result (option row) :=
  match allele_sizes with
  | [] => Ok None
  | _ :: _ =>
      locus_id ← resolve_locus_id locus_id motif;
      let allele_sizes := merge_sort Z.le allele_sizes in
      let allele_counts := Counter allele_sizes in
      mode ← match most_common_1 allele_counts with
             | x :: _ => Ok x
             | [] => Raise IndexError
             end;
      let mode_allele := mode.1 in
      genotype_counts ←
        count_genotypes locus_id motif alleles_for_current_key_by_sample_id [];
      let allele_size_histogram :=
        Py.join "," (map format_allele_count (merge_sort item_le allele_counts)) in
      let biallelic_histogram :=
        Py.join "," (map format_genotype_count
                       (merge_sort genotype_item_le genotype_counts)) in
      let mean := Py.format_3f (np_mean allele_sizes) in
      let stdev := Py.format_3f (np_std allele_sizes) in
      median ← float_to_int (np_median allele_sizes);
      percentile ← float_to_int (np_percentile allele_sizes 99);
      Ok (Some {| locus_id := locus_id;
                  motif := motif;
                  allele_size_histogram := allele_size_histogram;
                  biallelic_histogram := biallelic_histogram;
                  mode_allele := mode_allele;
                  mean := mean;
                  stdev := stdev;
                  median := median;
                  percentile_99th := percentile |})
  end.

End ProcessGroup.

(** ** main *)

Definition key : Type := string * string.

(** What the script prints on standard output. *)
Inductive event : Type :=
| Processing
| SkippingMalformedLine (line : string)
| SkippingInvalidAllele (line_number : nat)
    (current_locus_id motif sample_id allele_size : string)
| Wrote (output_lines unique_sample_ids : nat).

(** The variables of [main]. [outfile] holds the rows written after the header,
    oldest first. [current_key] is the pair [(current_locus_id, motif)] of the
    last row with four fields, [None] while these loop variables are unbound;
    [line_number] is 0 while it is unbound. *)
Record state : Type := {
  previous_key : option key;
  previously_seen_keys : gset key;
  alleles_for_current_key : list Z;
  alleles_for_current_key_by_sample_id : list (string * list Z);
  sample_ids : gset string;
  output_lines : nat;
  outfile : list row;
  stdout : list event;
  current_key : option key;
  line_number : nat;
}.

(** A run either goes on ([Done]) or stops on an exception ([Aborted]), in the
    state it had reached. *)
Inductive outcome : Type :=
| Done (s : state)
| Aborted (e : exception) (s : state).

Definition initial_state : state :=
  {| previous_key := None;
     previously_seen_keys := ∅;
     alleles_for_current_key := [];
     alleles_for_current_key_by_sample_id := [];
     sample_ids := ∅;
     output_lines := 0;
     outfile := [];
     stdout := [Processing];
     current_key := None;
     line_number := 0 |}.

Definition print (ev : event) (s : state) : state :=
  {| previous_key := previous_key s;
     previously_seen_keys := previously_seen_keys s;
     alleles_for_current_key := alleles_for_current_key s;
     alleles_for_current_key_by_sample_id := alleles_for_current_key_by_sample_id s;
     sample_ids := sample_ids s;
     output_lines := output_lines s;
     outfile := outfile s;
     stdout := (stdout s ++ [ev])%list;
     current_key := current_key s;
     line_number := line_number s |}.

(** [for line_number, line in enumerate(infile, 1)]: the next line is bound. *)
Definition next_line (n : nat) (s : state) : state :=
  {| previous_key := previous_key s;
     previously_seen_keys := previously_seen_keys s;
     alleles_for_current_key := alleles_for_current_key s;
     alleles_for_current_key_by_sample_id := alleles_for_current_key_by_sample_id s;
     sample_ids := sample_ids s;
     output_lines := output_lines s;
     outfile := outfile s;
     stdout := stdout s;
     current_key := current_key s;
     line_number := n |}.

(** Lines 110 to 116. *)
Definition read_fields (sample_id : string) (k : key) (s : state) : state :=
  {| previous_key := Some (default k (previous_key s));
     previously_seen_keys := previously_seen_keys s;
     alleles_for_current_key := alleles_for_current_key s;
     alleles_for_current_key_by_sample_id := alleles_for_current_key_by_sample_id s;
     sample_ids := {[sample_id]} ∪ sample_ids s;
     output_lines := output_lines s;
     outfile := outfile s;
     stdout := stdout s;
     current_key := Some k;
     line_number := line_number s |}.

(** Lines 122 to 127: the previous key is recorded and replaced. *)
Definition close_key (previous current : key) (s : state) : state :=
  {| previous_key := Some current;
     previously_seen_keys := {[previous]} ∪ previously_seen_keys s;
     alleles_for_current_key := alleles_for_current_key s;
     alleles_for_current_key_by_sample_id := alleles_for_current_key_by_sample_id s;
     sample_ids := sample_ids s;
     output_lines := output_lines s;
     outfile := outfile s;
     stdout := stdout s;
     current_key := current_key s;
     line_number := line_number s |}.

(** What a returning [process_group] leaves: the row, if any, is in the file. *)
Definition written (r : option row) (s : state) : state :=
  {| previous_key := previous_key s;
     previously_seen_keys := previously_seen_keys s;
     alleles_for_current_key := alleles_for_current_key s;
     alleles_for_current_key_by_sample_id := alleles_for_current_key_by_sample_id s;
     sample_ids := sample_ids s;
     output_lines := output_lines s;
     outfile := (outfile s ++ option_list r)%list;
     stdout := stdout s;
     current_key := current_key s;
     line_number := line_number s |}.

(** Lines 130 to 132. *)
Definition reset_group (s : state) : state :=
  {| previous_key := previous_key s;
     previously_seen_keys := previously_seen_keys s;
     alleles_for_current_key := [];
     alleles_for_current_key_by_sample_id := [];
     sample_ids := sample_ids s;
     output_lines := S (output_lines s);
     outfile := outfile s;
     stdout := stdout s;
     current_key := current_key s;
     line_number := line_number s |}.

(** Line 146. *)
Definition count_line (s : state) : state :=
  {| previous_key := previous_key s;
     previously_seen_keys := previously_seen_keys s;
     alleles_for_current_key := alleles_for_current_key s;
     alleles_for_current_key_by_sample_id := alleles_for_current_key_by_sample_id s;
     sample_ids := sample_ids s;
     output_lines := S (output_lines s);
     outfile := outfile s;
     stdout := stdout s;
     current_key := current_key s;
     line_number := line_number s |}.

(** Lines 137 and 138. *)
Definition record_allele (sample_id : string) (allele_size : Z) (s : state) : state :=
  {| previous_key := previous_key s;
     previously_seen_keys := previously_seen_keys s;
     alleles_for_current_key := (alleles_for_current_key s ++ [allele_size])%list;
     alleles_for_current_key_by_sample_id :=
       append_to sample_id allele_size (alleles_for_current_key_by_sample_id s);
     sample_ids := sample_ids s;
     output_lines := output_lines s;
     outfile := outfile s;
     stdout := stdout s;
     current_key := current_key s;
     line_number := line_number s |}.

Section Main.
Context {np : Numpy}.

(** Lines 118 to 132, entered with [previous_key] bound to [previous]. *)
Definition change_key (previous current : key) (s : state) : outcome :=
  if decide (current ≠ previous) then
    if decide (previous ∈ previously_seen_keys s) then
      Aborted (NotSorted (line_number s) current.1) s
    else
      let s := close_key previous current s in
      match process_group previous.1 previous.2 (alleles_for_current_key s)
              (alleles_for_current_key_by_sample_id s) with
      | Raise e => Aborted e s
      | Ok r => Done (reset_group (written r s))
      end
  else Done s.

(** Lines 135 to 141. *)
Definition record_allele_size (current : key) (sample_id allele_size : string)
    (s : state) : state :=
  match Py.int allele_size with
  | Some n => record_allele sample_id n s
  | None =>
      print (SkippingInvalidAllele (line_number s) current.1 current.2 sample_id
               allele_size) s
  end.

(** One turn of the [for] loop, lines 105 to 141. *)
Definition loop_body (line_number : nat) (line : string) (s : state) : outcome :=
  let s := next_line line_number s in
  match Py.split TAB (Py.strip line) with
  | [current_locus_id; motif; sample_id; allele_size] =>
      let current := (current_locus_id, motif) in
      let s := read_fields sample_id current s in
      match change_key (default current (previous_key s)) current s with
      | Done s => Done (record_allele_size current sample_id allele_size s)
      | Aborted e s => Aborted e s
      end
  | _ => Done (print (SkippingMalformedLine line) s)
  end.

(** The [for] loop over the lines that remain, the first of them numbered
    [line_number]. *)
Fixpoint loop (line_number : nat) (infile : list string) (s : state) : outcome :=
  match infile with
  | [] => Done s
  | line :: infile' =>
      match loop_body line_number line s with
      | Done s => loop (S line_number) infile' s
      | Aborted e s => Aborted e s
      end
  end.

(** Lines 143 to 154: the last group and the closing message. *)
Definition finish (s : state) : outcome :=
  match alleles_for_current_key s with
  | [] => Done (print (Wrote (output_lines s) (size (sample_ids s))) s)
  | _ :: _ =>
      match current_key s with
      | None => Aborted UnboundLocal s
      | Some current =>
          match process_group current.1 current.2 (alleles_for_current_key s)
                  (alleles_for_current_key_by_sample_id s) with
          | Raise e => Aborted e s
          | Ok r =>
              let s := count_line (written r s) in
              if decide (current ∈ previously_seen_keys s) then
                Aborted (NotSorted (line_number s) current.1) s
              else Done (print (Wrote (output_lines s) (size (sample_ids s))) s)
          end
      end
  end.

(** [main] on the lines of the input file. *)
Definition main (infile : list string) : outcome :=
  match loop 1 infile initial_state with
  | Done s => finish s
  | Aborted e s => Aborted e s
  end.

End Main.

Definition final_state (o : outcome) : state :=
  match o with
  | Done s => s
  | Aborted _ s => s
  end.

(** The rows in the output file when the run ends, either way. *)
Definition rows_written (o : outcome) : list row := outfile (final_state o).

(** The text of the output file. *)
Definition outfile_text (o : outcome) : string :=
  header_line +:+ Py.join "" (map row_line (rows_written o)).

(** ** numpy on float64 *)

(** The reductions as numpy 2 computes them on a one-dimensional array of
    int64 values: float64 arithmetic (the kernel's binary64 operations, round
    to nearest even), sums by pairwise summation with eight accumulators.
    The model is exact for values in the int64 range whose differences stay
    in that range. *)
Module Float64.

Local Open Scope float_scope.

(** Conversion of an integer, rounding to nearest even. *)
Definition of_Z (n : Z) : float := SF2Prim (binary_normalize prec emax n 0 false).

Definition of_nat (n : nat) : float := of_Z (Z.of_nat n).

Definition sum_seq (res : float) (a : list float) : float :=
  fold_left PrimFloat.add a res.

(** [r[j] += a[i + j]] for the next [blocks] blocks of eight. *)
Fixpoint accumulate (blocks : nat) (r a : list float) : list float * list float :=
  match blocks with
  | O => (r, a)
  | S blocks' => accumulate blocks' (zip_with PrimFloat.add r (take 8 a)) (drop 8 a)
  end.

(** A block of 8 to 128 values. *)
Definition block_sum (a : list float) : float :=
  let '(r, rest) := accumulate (length a / 8 - 1) (take 8 a) (drop 8 a) in
  match r with
  | [r0; r1; r2; r3; r4; r5; r6; r7] =>
      sum_seq (((r0 + r1) + (r2 + r3)) + ((r4 + r5) + (r6 + r7))) rest
  | _ => 0
  end.

(** [DOUBLE_pairwise_sum]; [fuel] bounds the depth of the halving. *)
Fixpoint pairwise_sum (fuel : nat) (a : list float) : float :=
  let n := length a in
  if (n <? 8)%nat then sum_seq 0 a
  else if (n <=? 128)%nat then block_sum a
  else
    match fuel with
    | O => 0
    | S fuel' =>
        let n2 := (n / 2 - (n / 2) mod 8)%nat in
        pairwise_sum fuel' (take n2 a) + pairwise_sum fuel' (drop n2 a)
    end.

(** [np.add.reduce] on a float64 array: one inner loop from the identity. *)
Definition add_reduce (a : list float) : float := 0 + pairwise_sum (length a) a.

Definition buffersize : nat := Z.to_nat 8192.

(** [np.add.reduce(..., dtype=float64)] on an int64 array: the values are
    converted in buffers of 8192, each summed by the inner loop. *)
Fixpoint add_reduce_buffered (fuel : nat) (res : float) (a : list float) : float :=
  match fuel, a with
  | _, [] => res
  | O, _ => res
  | S fuel', _ =>
      let chunk := take buffersize a in
      add_reduce_buffered fuel' (res + pairwise_sum (length chunk) chunk)
        (drop buffersize a)
  end.

Definition sum_ints (a : list Z) : float :=
  add_reduce_buffered (length a) 0 (map of_Z a).

(** [np.mean]: [umr_sum(arr, dtype=float64) / rcount] *)
Definition mean (a : list Z) : float := sum_ints a / of_nat (length a).

(** [np.std], [ddof=0]: the square root of [umr_sum((arr - mean)**2) / rcount] *)
Definition std (a : list Z) : float :=
  let arrmean := mean a in
  let x := map (λ v, let d := of_Z v - arrmean in d * d) a in
  sqrt (add_reduce x / of_nat (length a)).

(** [np.median]: the mean of the middle element, or of the middle two. *)
Definition median (a : list Z) : float :=
  let a := merge_sort Z.le a in
  let index := (length a / 2)%nat in
  if Nat.odd (length a) then mean (take 1 (drop index a))
  else mean (take 2 (drop (index - 1) a)).

(** [_lerp(a, b, t)] on two int64 values. *)
Definition lerp (a b : Z) (t : float) : float :=
  let diff_b_a := of_Z (b - a) in
  if t <? 0.5 then of_Z a + diff_b_a * t
  else of_Z b - diff_b_a * (1 - t).

(** [np.percentile(a, q)], method [linear], for an integer [q] from 0 to 100. *)
Definition percentile (a : list Z) (q : Z) : float :=
  let a := merge_sort Z.le a in
  let n := length a in
  let quantile := of_Z q / 100 in
  let virtual_index := of_nat (n - 1) * quantile in
  let above := of_nat (n - 1) <=? virtual_index in
  let previous_index :=
    if above then (n - 1)%nat
    else Z.to_nat (default 0%Z (Py.int_of_float virtual_index)) in
  let next_index := if above then (n - 1)%nat else S previous_index in
  let gamma :=
    if above then virtual_index - (-1) else virtual_index - of_nat previous_index in
  lerp (nth previous_index a 0%Z) (nth next_index a 0%Z) gamma.

End Float64.

#[global] Instance numpy_float64 : Numpy :=
  {| np_mean := Float64.mean;
     np_std := Float64.std;
     np_median := Float64.median;
     np_percentile := Float64.percentile |}.

(** ** The groups of an input file *)

(** The fields of a line that has four of them: the key, the sample and the
    text of the allele size. *)
Definition fields_of (line : string) : option (key * (string * string)) :=
  match Py.split TAB (Py.strip line) with
  | [current_locus_id; motif; sample_id; allele_size] =>
      Some ((current_locus_id, motif), (sample_id, allele_size))
  | _ => None
  end.

Definition records (infile : list string) : list (key * (string * string)) :=
  omap fields_of infile.

(** The maximal runs of consecutive records with the same key, in order. *)
Fixpoint blocks {K V : Type} `{EqDecision K} (recs : list (K * V)) : list (K * list V) :=
  match recs with
  | [] => []
  | (k, v) :: recs' =>
      match blocks recs' with
      | (k', vs) :: bs =>
          if decide (k = k') then (k, v :: vs) :: bs else (k, [v]) :: (k', vs) :: bs
      | [] => [(k, [v])]
      end
  end.

(** The records of a group whose allele size is an integer. *)
Definition valid_records (vs : list (string * string)) : list (string * Z) :=
  omap (λ v, (λ n, (v.1, n)) <$> Py.int v.2) vs.

Definition valid_alleles (vs : list (string * string)) : list Z :=
  (valid_records vs).*2.

(** The samples with at least one valid record in a group. *)
Definition contributing_samples (vs : list (string * string)) : gset string :=
  list_to_set (valid_records vs).*1.

(** The alleles of a group by sample, as [main] accumulates them. *)
Definition alleles_by_sample (vs : list (string * string)) : list (string * list Z) :=
  fold_left (λ d v, append_to v.1 v.2 d) (valid_records vs) [].

(** The genotype of a sample with one or two alleles. *)
Definition genotype (allele_list : list Z) : option (Z * Z) :=
  match allele_list with
  | [a] => Some (a, a)
  | [a; b] => Some (Z.min a b, Z.max a b)
  | _ => None
  end.

(** How many samples of [d] have the genotype [g]. *)
Definition samples_with_genotype (g : Z * Z) (d : list (string * list Z)) : nat :=
  length (filter (λ x, genotype x.2 = Some g) d).

(** The count kept for [k] in a dictionary of counts. *)
Fixpoint count_of {K : Type} `{EqDecision K} (k : K) (d : list (K * nat)) : nat :=
  match d with
  | [] => 0
  | (k', n) :: d' => if decide (k = k') then n else count_of k d'
  end.

(** ** Groups, counts and histograms *)

(** The records of a list of groups, in order. *)
Definition unblocks {K V : Type} (bs : list (K * list V)) : list (K * V) :=
  bs ≫= λ b, (λ v, (b.1, v)) <$> b.2.

(** Adjacent groups have different keys. *)
Fixpoint alternating {K V : Type} (bs : list (K * list V)) : Prop :=
  match bs with
  | b1 :: (b2 :: _) as bs' => b1.1 ≠ b2.1 ∧ alternating bs'
  | _ => True
  end.

(** A record after the last one extends the last group or opens a new one. *)
Definition snoc_block {K V : Type} `{EqDecision K} (bs : list (K * list V)) (k : K) (v : V)
  : list (K * list V) :=
  match reverse bs with
  | (k', vs) :: rbs =>
      if decide (k = k') then reverse rbs ++ [(k', vs ++ [v])]
      else bs ++ [(k, [v])]
  | [] => [(k, [v])]
  end.

(** How often [x] occurs in [l]. *)
Definition occurrences {A : Type} `{EqDecision A} (x : A) (l : list A) : nat :=
  length (filter (λ y, y = x) l).

(** The value [most_common(1)[0][0]] of the counter of the sorted alleles. *)
Definition mode_of (allele_sizes : list Z) : Z :=
  match most_common_1 (Counter (merge_sort Z.le allele_sizes)) with
  | x :: _ => x.1
  | [] => 0
  end.

(** The entries of the two histograms, in the order they are written. *)
Definition allele_size_entries (allele_sizes : list Z) : list (Z * nat) :=
  merge_sort item_le (Counter (merge_sort Z.le allele_sizes)).

Definition biallelic_entries (genotype_counts : list ((Z * Z) * nat))
  : list ((Z * Z) * nat) :=
  merge_sort genotype_item_le genotype_counts.

(** The order of the entries of the genotype histogram, without ties. *)
Definition key_lt (a b : Z * Z) : Prop := a.1 < b.1 ∨ (a.1 = b.1 ∧ a.2 < b.2).

Definition genotype_item_lt (x y : (Z * Z) * nat) : Prop :=
  key_lt (genotype_key x) (genotype_key y).

(** The exception that ended a run, if any. *)
Definition exception_of (o : outcome) : option exception :=
  match o with
  | Done _ => None
  | Aborted e _ => Some e
  end.

(** ** The runs of [main] in terms of the groups *)

Section Specification.
Context {np : Numpy}.

(** What the flush of a group does. *)
Definition flush (b : key * list (string * string)) : result (option row) :=
process_group b.1.1 b.1.2 (valid_alleles b.2) (alleles_by_sample b.2).

(** The row a group leaves in the output file, if its flush writes one. *)
Definition row_of (b : key * list (string * string)) : list row :=
match flush b with
| Ok r => option_list r
| Raise _ => []
end.

(** The variables of the loop while the group of key [k] is open: [vs] are
  its records so far, [closed] the groups before it, [n] the number of the
  last line read. *)
Record group_state (s : state) (closed : list (key * list (string * string)))
  (k : key) (vs : list (string * string)) (n : nat) : Prop := {
gs_previous : previous_key s = Some k;
gs_current : current_key s = Some k;
gs_alleles : alleles_for_current_key s = valid_alleles vs;
gs_by_sample : alleles_for_current_key_by_sample_id s = alleles_by_sample vs;
gs_seen : previously_seen_keys s = list_to_set closed.*1;
gs_NoDup : NoDup closed.*1;
gs_flushed : Forall (λ b, ∃ r, flush b = Ok r) closed;
gs_outfile : outfile s = closed ≫= row_of;
gs_line_number : line_number s = n;
}.

(** The state of the loop after the lines [pre], the last group of which has
  the key [k] and the records [vs]. *)
Definition open_group (pre : list string) (s : state)
  (closed : list (key * list (string * string)))
  (k : key) (vs : list (string * string)) : Prop :=
blocks (records pre) = closed ++ [(k, vs)]
∧ group_state s closed k vs (length pre).

(** The state of the loop before any line with four fields. *)
Record no_group (pre : list string) (s : state) : Prop := {
ng_records : records pre = [];
ng_previous : previous_key s = None;
ng_alleles : alleles_for_current_key s = [];
ng_by_sample : alleles_for_current_key_by_sample_id s = [];
ng_seen : previously_seen_keys s = ∅;
ng_outfile : outfile s = [];
ng_line_number : line_number s = length pre;
}.

Definition invariant (pre : list string) (s : state) : Prop :=
no_group pre s ∨ ∃ closed k vs, open_group pre s closed k vs.

(** How a run on [infile] can end, in terms of the groups of [infile]:
  what is raised, if anything, and which rows are in the output file. *)
Inductive run_spec (infile : list string) : outcome → Prop :=
| run_no_record s :
  records infile = [] →
  outfile s = [] →
  run_spec infile (Done s)
| run_completed s closed k vs r :
  blocks (records infile) = closed ++ [(k, vs)] →
  NoDup closed.*1 →
  Forall (λ b, ∃ r, flush b = Ok r) closed →
  flush (k, vs) = Ok r →
  (valid_alleles vs ≠ [] → k ∉ closed.*1) →
  outfile s = (closed ++ [(k, vs)]) ≫= row_of →
  run_spec infile (Done s)
| run_not_sorted s pre line post closed k vs k' v :
  infile = pre ++ line :: post →
  blocks (records pre) = closed ++ [(k, vs)] →
  fields_of line = Some (k', v) →
  k' ≠ k →
  NoDup closed.*1 →
  Forall (λ b, ∃ r, flush b = Ok r) closed →
  k ∈ closed.*1 →
  outfile s = closed ≫= row_of →
  run_spec infile (Aborted (NotSorted (S (length pre)) k'.1) s)
| run_raise s pre line post closed k vs k' v e :
  infile = pre ++ line :: post →
  blocks (records pre) = closed ++ [(k, vs)] →
  fields_of line = Some (k', v) →
  k' ≠ k →
  NoDup closed.*1 →
  Forall (λ b, ∃ r, flush b = Ok r) closed →
  k ∉ closed.*1 →
  flush (k, vs) = Raise e →
  outfile s = closed ≫= row_of →
  run_spec infile (Aborted e s)
| run_raise_last s closed k vs e :
  blocks (records infile) = closed ++ [(k, vs)] →
  NoDup closed.*1 →
  Forall (λ b, ∃ r, flush b = Ok r) closed →
  flush (k, vs) = Raise e →
  outfile s = closed ≫= row_of →
  run_spec infile (Aborted e s)
| run_not_sorted_last s closed k vs r :
  blocks (records infile) = closed ++ [(k, vs)] →
  NoDup closed.*1 →
  Forall (λ b, ∃ r, flush b = Ok r) closed →
  valid_alleles vs ≠ [] →
  flush (k, vs) = Ok r →
  k ∈ closed.*1 →
  outfile s = (closed ++ [(k, vs)]) ≫= row_of →
  run_spec infile (Aborted (NotSorted (length infile) k.1) s).

End Specification.

(** ** Messages, counters and columns of a run *)

(** The warnings that the line numbered [n] makes the loop print. *)
Definition warnings_of_line (n : nat) (line : string) : list event :=
  match fields_of line with
  | None => [SkippingMalformedLine line]
  | Some (k, (sample_id, allele_size)) =>
      match Py.int allele_size with
      | Some _ => []
      | None => [SkippingInvalidAllele n k.1 k.2 sample_id allele_size]
      end
  end.

(** The warnings of the lines of a file, the first of them numbered [n]. *)
Fixpoint warnings (n : nat) (infile : list string) : list event :=
  match infile with
  | [] => []
  | line :: infile' => warnings_of_line n line ++ warnings (S n) infile'
  end.

(** The sample ids of the lines with four fields. *)
Definition samples_of (infile : list string) : gset string :=
  list_to_set (records infile).*2.*1.

(** The groups with at least one valid allele size. *)
Definition groups_with_alleles (bs : list (key * list (string * string)))
  : list (key * list (string * string)) :=
  filter (λ b, valid_alleles b.2 ≠ []) bs.

(** While the loop runs, the counter holds the number of groups closed. *)
Definition counted (pre : list string) (s : state) : Prop :=
  output_lines s = pred (length (blocks (records pre))).

(** [d[k]] on a [defaultdict(list)], the empty list for a key that is not
    there. *)
Fixpoint alleles_of {K V : Type} `{EqDecision K} (k : K) (d : list (K * list V)) : list V :=
  match d with
  | [] => []
  | (k', vs) :: d' => if decide (k = k') then vs else alleles_of k d'
  end.

(** The valid allele sizes of a sample in a group, in the order of the
    input. *)
Definition alleles_of_sample (sample_id : string) (vs : list (string * string)) : list Z :=
  (filter (λ x, x.1 = sample_id) (valid_records vs)).*2.


(** The columns of a row, as [process_group] joins them. *)
Definition columns (r : row) : list string :=
  [locus_id r; motif r; allele_size_histogram r; biallelic_histogram r;
   Py.str (mode_allele r); mean r; stdev r; Py.str (median r);
   Py.str (percentile_99th r)].

(** ** Concrete inputs *)

(** The input of the example of the specification. *)
Definition example_infile : list string :=
  [tsv ["L1"; "A"; "S1"; "10"]; tsv ["L1"; "A"; "S1"; "12"]; tsv ["L1"; "A"; "S2"; "10"]].

(** The row of the example of the specification. *)
Definition example_row : row :=
  {| locus_id := "L1";
     motif := "A";
     allele_size_histogram := "10x:2,12x:1";
     biallelic_histogram := "10/10:1,10/12:1";
     mode_allele := 10;
     mean := "10.667";
     stdev := "0.943";
     median := 10;
     percentile_99th := 11 |}.

(** A group in which 10 and 12 are equally frequent. *)
Definition tie_alleles : list Z := [12; 10; 12; 10].

Definition tie_by_sample : list (string * list Z) := [("S1", [12; 10]); ("S2", [12; 10])].

Definition tie_row : row :=
  {| locus_id := "L1";
     motif := "A";
     allele_size_histogram := "10x:2,12x:2";
     biallelic_histogram := "10/12:2";
     mode_allele := 10;
     mean := "11.000";
     stdev := "1.000";
     median := 11;
     percentile_99th := 12 |}.

(** The key [("L1", "A")] comes back in the last group, which has no valid
    allele size. *)
Definition infile_repeated_invalid_last : list string :=
  [tsv ["L1"; "A"; "S1"; "10"]; tsv ["L2"; "A"; "S1"; "10"]; tsv ["L1"; "A"; "S1"; "abc"]].

(** The key [("L1", "A")] comes back in the third group, and a fourth group
    follows. *)
Definition infile_repeated : list string :=
  [tsv ["L1"; "A"; "S1"; "10"]; tsv ["L2"; "A"; "S1"; "10"];
   tsv ["L1"; "A"; "S1"; "12"]; tsv ["L3"; "A"; "S1"; "10"]].

(** The key [("L1", "A")] comes back in the last group, in which the sample
    S1 has three allele sizes. *)
Definition infile_repeated_three_alleles : list string :=
  [tsv ["L1"; "A"; "S1"; "10"]; tsv ["L2"; "A"; "S1"; "10"];
   tsv ["L1"; "A"; "S1"; "10"]; tsv ["L1"; "A"; "S1"; "11"];
   tsv ["L1"; "A"; "S1"; "12"]].

(** The key [("L1", "A")] comes back in the last group, which has a valid
    allele size. *)
Definition infile_repeated_last : list string :=
  [tsv ["L1"; "A"; "S1"; "10"]; tsv ["L2"; "A"; "S1"; "10"]; tsv ["L1"; "A"; "S1"; "12"]].

(** A locus id with two candidates, neither of which ends in [-G]. *)
Definition compound_locus_id : string := "10-1-2-A,10-3-4-T".

(** The first group has the compound locus id, the motif G and no valid
    allele size. *)
Definition infile_unresolved_invalid : list string :=
  [tsv [compound_locus_id; "G"; "S1"; "abc"]; tsv ["L2"; "A"; "S1"; "10"]].

(** The row of a group of motif A with the single allele size [allele]. *)
Definition row_of_single (locus allele : string) : row :=
  {| locus_id := locus;
     motif := "A";
     allele_size_histogram := allele +:+ "x:1";
     biallelic_histogram := allele +:+ "/" +:+ allele +:+ ":1";
     mode_allele := default 0 (Py.int allele);
     mean := allele +:+ ".000";
     stdev := "0.000";
     median := default 0 (Py.int allele);
     percentile_99th := default 0 (Py.int allele) |}.

(** The state of [main] on [infile_repeated] before its fourth line. *)
Definition state_before_line_4 : state :=
  final_state (loop 1 (take 3 infile_repeated) initial_state).

(** The state of [main] on [infile_repeated] before its second line. *)
Definition state_before_line_2 : state :=
  final_state (loop 1 (take 1 infile_repeated) initial_state).

(** The sample S1 has three allele sizes in the first group. *)
Definition infile_three_alleles : list string :=
  [tsv ["L1"; "A"; "S1"; "10"]; tsv ["L1"; "A"; "S1"; "11"];
   tsv ["L1"; "A"; "S1"; "12"]; tsv ["L2"; "A"; "S1"; "10"]].

(** Two lines, neither of which has four fields. *)
Definition infile_malformed : list string := [tsv ["L1"; "A"; "S1"]; tsv []].

(** The records of the group of [example_infile], and the same in another
    order. *)
Definition example_records : list (string * string) :=
  [("S1", "10"); ("S1", "12"); ("S2", "10")].

Definition example_records_reordered : list (string * string) :=
  [("S2", "10"); ("S1", "12"); ("S1", "10")].

(** * Properties *)

(** ** The built-ins on examples *)

Example strip_split_line :
  Py.split TAB (Py.strip ("L1" +:+ String TAB "A" +:+ String TAB "S1"
                            +:+ String TAB (" 10 " +:+ String LF "")))
  = ["L1"; "A"; "S1"; " 10"].
Proof. reflexivity. Qed.

Example endswith_examples :
  map (λ s, Py.endswith s "-A") ["10-1-2-A"; "10-1-2-AA"; "-A"; "A"; "10-1-2-A,"]
  = [true; false; true; false; false].
Proof. reflexivity. Qed.

Example split_examples :
  map (Py.split ",") ["a,b"; ""; ","; "a,,b,"; "ab"]
  = [["a"; "b"]; [""]; [""; ""]; ["a"; ""; "b"; ""]; ["ab"]].
Proof. reflexivity. Qed.

Example int_examples :
  map Py.int ["10"; " 10"; "-7"; "+0012"; "1_000"; "1__0"; "_1"; "1_"; ""; "- 1"; "1.5"; "abc";
              "10 "; "+"; "-0"; "1 0"; "--1"]
  = [Some 10; Some 10; Some (-7); Some 12; Some 1000; None; None; None; None; None; None; None;
     Some 10; None; Some 0; None; None].
Proof. reflexivity. Qed.

(** [int] skips the white space of C, not all that [str.strip] removes. *)
Example int_space_examples :
  map (λ c, Py.int (String (ascii_of_nat c) "10")) [9; 10; 11; 12; 13; 32; 28; 29; 30; 31; 0]%nat
  = [Some 10; Some 10; Some 10; Some 10; Some 10; Some 10; None; None; None; None; None].
Proof. reflexivity. Qed.

(** The limit on the number of digits: 4300 digits are read, 4301 are not,
    whatever the value, and underscores, sign and white space do not count. *)
Example int_max_str_digits_examples :
  let ones n := string_of_list_ascii (repeat "1"%char n) in
  let zeros n := string_of_list_ascii (repeat "0"%char n) in
  Py.int (ones 4300%nat) = Some ((10 ^ 4300 - 1) / 9)
  ∧ Py.int (ones 4301%nat) = None
  ∧ Py.int (zeros 4300%nat) = Some 0
  ∧ Py.int (zeros 4301%nat) = None
  ∧ Py.int (" -1_" +:+ ones 4299%nat +:+ " ") = Some (- ((10 ^ 4300 - 1) / 9)).
Proof. vm_compute. done. Qed.

Example str_examples : map Py.str [0; 7; -12; 1000] = ["0"; "7"; "-12"; "1000"].
Proof. reflexivity. Qed.

Example format_3f_examples :
  map Py.format_3f [0.5; 0x1.5555555555555p+3; -0x1.a36e2eb1c432dp-14; 0.0625; 1e22]%float
  = ["0.500"; "10.667"; "-0.000"; "0.062"; "10000000000000000000000.000"].
Proof. vm_compute. reflexivity. Qed.

Example int_of_float_examples :
  map Py.int_of_float [0x1.7eb851eb851ecp+3; -2.5; 10; 0x1.fae147ae147aep-1; infinity]%float
  = [Some 11; Some (-2); Some 10; Some 0; None].
Proof. vm_compute. reflexivity. Qed.

(** ** Strings *)

Section Strings.

Lemma endswith_cons (c : ascii) (s suffix : string) :
  Py.endswith (String c s) suffix
  = String.eqb (String c s) suffix || Py.endswith s suffix.
Proof. reflexivity. Qed.

(** [endswith] holds exactly when the string is something followed by the suffix. *)
Lemma endswith_spec (s suffix : string) :
  Py.endswith s suffix = true ↔ ∃ p, s = p +:+ suffix.
Proof.
  induction s as [|c s IH].
  - destruct suffix as [|c' t]; simpl.
    + split; [by exists ""|done].
    + split; [done|]. intros [[|x p] H]; simpl in H; discriminate.
  - rewrite endswith_cons, orb_true_iff, IH, String.eqb_eq. split.
    + intros [<-|[p ->]]; [by exists ""|by exists (String c p)].
    + intros [[|x p] H]; simpl in H.
      * by left.
      * right. injection H as -> ->. by exists p.
Qed.

Lemma split_nonempty (sep : ascii) (s : string) : Py.split sep s ≠ [].
Proof.
  destruct s as [|c s]; simpl; [done|].
  destruct (Ascii.eqb c sep); [done|]. by destruct (Py.split sep s).
Qed.

(** Joining the pieces with the separator gives the string back. *)
Lemma join_split (sep : ascii) (s : string) :
  Py.join (String sep "") (Py.split sep s) = s.
Proof.
  induction s as [|c s IH]; simpl; [done|].
  pose proof (split_nonempty sep s) as Hne.
  destruct (Ascii.eqb_spec c sep) as [->|Hc].
  - destruct (Py.split sep s) as [|w ws]; [done|].
    simpl in *. by rewrite IH.
  - destruct (Py.split sep s) as [|w ws]; [done|].
    destruct ws as [|w' ws]; simpl in *; by rewrite <- IH.
Qed.

(** No piece holds the separator. *)
Lemma split_no_sep (sep : ascii) (s : string) :
  Forall (λ w, Py.contains sep w = false) (Py.split sep s).
Proof.
  induction s as [|c s IH]; simpl; [by constructor|].
  pose proof (split_nonempty sep s) as Hne.
  destruct (Ascii.eqb_spec c sep) as [->|Hc].
  - by constructor.
  - destruct (Py.split sep s) as [|w ws]; [done|].
    inversion IH as [|? ? Hw Hws]; subst. constructor; [|done].
    simpl. rewrite Hw, orb_false_r. by apply Ascii.eqb_neq.
Qed.

(** A string without the separator is its own single piece. *)
Lemma split_without_sep (sep : ascii) (s : string) :
  Py.contains sep s = false → Py.split sep s = [s].
Proof.
  induction s as [|c s IH]; simpl; [done|].
  intros [Hc Hs]%orb_false_iff. rewrite Hc, (IH Hs). done.
Qed.

End Strings.

(** ** Dictionaries of counts *)

Section Dict.
Context {K : Type} `{EqDecision K}.
Implicit Types (k : K) (d : list (K * nat)) (l : list K).

Lemma count_of_incr k k' d :
  count_of k' (incr k d) = if decide (k' = k) then S (count_of k' d) else count_of k' d.
Proof.
  induction d as [|[k0 n] d IH]; simpl.
  - by repeat case_decide.
  - repeat (case_decide; simpl; subst); congruence.
Qed.

Lemma incr_keys k d :
  (incr k d).*1 = if decide (k ∈ d.*1) then d.*1 else d.*1 ++ [k].
Proof.
  induction d as [|[k0 n] d IH]; [done|]. cbn [incr].
  destruct (decide (k = k0)) as [->|Hne]; csimpl.
  - rewrite decide_True; [done|left].
  - rewrite IH. destruct (decide (k ∈ d.*1)) as [Hin|Hin].
    + rewrite decide_True; [done|by right].
    + rewrite decide_False; [done|]. intros [?|?]%elem_of_cons; done.
Qed.

Lemma incr_sum k d : sum_list_with snd (incr k d) = S (sum_list_with snd d).
Proof.
  induction d as [|[k0 n] d IH]; simpl; [done|].
  case_decide; simpl; [done|]. rewrite IH. lia.
Qed.

Lemma incr_positive k d :
  Forall (λ x, 0 < x.2)%nat d → Forall (λ x, 0 < x.2)%nat (incr k d).
Proof.
  induction 1 as [|[k0 n] d Hn Hd IH]; simpl.
  - repeat constructor.
  - case_decide; constructor; simpl in *; auto with lia.
Qed.

Lemma incr_NoDup k d : NoDup d.*1 → NoDup (incr k d).*1.
Proof.
  intros Hd. rewrite incr_keys. case_decide as Hin; [done|].
  apply NoDup_app. split_and!; [done| |apply NoDup_singleton].
  intros x Hx ->%list_elem_of_singleton. done.
Qed.

(** With distinct keys, the entries are the keys with their counts. *)
Lemma elem_of_counts k n d :
  NoDup d.*1 → (k, n) ∈ d ↔ k ∈ d.*1 ∧ count_of k d = n.
Proof.
  induction d as [|[k0 n0] d IH]; simpl; intros Hd.
  - split; [by intros ?%elem_of_nil|by intros [?%elem_of_nil _]].
  - apply NoDup_cons in Hd as [Hk0 Hd]. rewrite !elem_of_cons, (IH Hd).
    case_decide as Hk; subst; split.
    + intros [[= ->]|[? _]]; [by auto|done].
    + intros [_ ->]. by left.
    + intros [[= -> ->]|[? ?]]; [done|by auto].
    + intros [[?|?] ?]; [done|by auto].
Qed.

Lemma count_of_not_in k d : k ∉ d.*1 → count_of k d = 0%nat.
Proof.
  induction d as [|[k0 n0] d IH]; simpl; [done|].
  intros Hk. apply not_elem_of_cons in Hk as [? ?]. case_decide; auto; done.
Qed.

Lemma Counter_snoc l k : Counter (l ++ [k]) = incr k (Counter l).
Proof. unfold Counter. by rewrite fold_left_app. Qed.

Lemma occurrences_snoc (x k : K) l :
  occurrences x (l ++ [k])
  = if decide (x = k) then S (occurrences x l) else occurrences x l.
Proof.
  unfold occurrences. rewrite filter_app, length_app.
  rewrite filter_cons, filter_nil.
  destruct (decide (k = x)); case_decide; subst; simpl; try lia; done.
Qed.

(** A counter holds, for every value, how often it occurs. *)
Lemma count_of_Counter x l : count_of x (Counter l) = occurrences x l.
Proof.
  induction l as [|k l IH] using rev_ind; [done|].
  by rewrite Counter_snoc, count_of_incr, occurrences_snoc, IH.
Qed.

Lemma Counter_keys_subseteq l : (Counter l).*1 ⊆ l.
Proof.
  induction l as [|k l IH] using rev_ind; [done|].
  rewrite Counter_snoc, incr_keys. case_decide; set_solver.
Qed.

Lemma Counter_keys l x : x ∈ (Counter l).*1 ↔ x ∈ l.
Proof.
  induction l as [|k l IH] using rev_ind; [done|].
  rewrite Counter_snoc, incr_keys. case_decide; set_solver.
Qed.

Lemma Counter_NoDup l : NoDup (Counter l).*1.
Proof.
  induction l as [|k l IH] using rev_ind; [constructor|].
  rewrite Counter_snoc. by apply incr_NoDup.
Qed.

Lemma Counter_positive l : Forall (λ x, 0 < x.2)%nat (Counter l).
Proof.
  induction l as [|k l IH] using rev_ind; [constructor|].
  rewrite Counter_snoc. by apply incr_positive.
Qed.

(** The counts of a counter add up to the length of the list. *)
Lemma Counter_sum l : sum_list_with snd (Counter l) = length l.
Proof.
  induction l as [|k l IH] using rev_ind; [done|].
  rewrite Counter_snoc, incr_sum, IH, length_app. simpl. lia.
Qed.

Lemma Counter_nonempty l : l ≠ [] → Counter l ≠ [].
Proof.
  intros Hl Hc. apply Hl, length_zero_iff_nil.
  by rewrite <- Counter_sum, Hc.
Qed.

(** [max_count] returns the first item with the largest count. *)
Lemma max_count_spec (best : K * nat) items :
  ∃ pre post, best :: items = pre ++ max_count best items :: post
    ∧ Forall (λ x, x.2 < (max_count best items).2)%nat pre
    ∧ Forall (λ x, x.2 ≤ (max_count best items).2)%nat post.
Proof.
  revert best. induction items as [|x items IH]; intros best; simpl.
  - exists [], []. by repeat constructor.
  - destruct (IH (if (best.2 <? x.2)%nat then x else best))
      as (pre & post & Heq & H1 & H2).
    set (m := max_count _ items) in *.
    destruct (Nat.ltb_spec best.2 x.2) as [Hlt|Hge].
    + exists (best :: pre), post. rewrite Heq. split_and!; [done| |done].
      constructor; [|done].
      assert (x.2 ≤ m.2)%nat; [|lia].
      assert (x ∈ pre ++ m :: post) as Hx by (rewrite <- Heq; left).
      apply elem_of_app in Hx as [Hx|Hx].
      * eapply Forall_forall in H1; [|done]. lia.
      * apply elem_of_cons in Hx as [Hxm|Hx]; [by rewrite Hxm|].
        eapply Forall_forall in H2; done.
    + destruct pre as [|y pre]; simpl in Heq.
      * injection Heq as Hm Hpost. exists [], (x :: post). rewrite <- Hm, Hpost.
        split_and!; [done|constructor|]. constructor; [simpl; lia|].
        rewrite Hm. done.
      * injection Heq as <- Hl. apply Forall_cons in H1 as [Hb H1].
        exists (best :: x :: pre), post. rewrite Hl.
        split_and!; [done| |done]. repeat constructor; [done|lia|done].
Qed.

End Dict.

(** In the counter of a sorted list the values come in increasing order. *)
Lemma Counter_keys_sorted (l : list Z) :
  Sorted Z.le l → StronglySorted Z.lt (Counter l).*1.
Proof.
  intros Hl%Sorted_StronglySorted; [|apply _].
  induction l as [|k l IH] using rev_ind; [apply SSorted_nil|].
  apply StronglySorted_app in Hl as (Hk & Hl & _).
  rewrite Counter_snoc, incr_keys. case_decide as Hin; [by apply IH|].
  apply StronglySorted_app. split_and!; [|by apply IH|repeat constructor].
  intros x1 x2 Hx1 Hx2%list_elem_of_singleton. subst x2.
  assert (x1 ≤ k) by (apply Hk; [by apply Counter_keys_subseteq|left]).
  assert (x1 ≠ k) by (by intros ->). lia.
Qed.

(** ** What [process_group] computes *)

Lemma occurrences_Permutation {A : Type} `{EqDecision A} (x : A) (l1 l2 : list A) :
  l1 ≡ₚ l2 → occurrences x l1 = occurrences x l2.
Proof. intros Hp. unfold occurrences. by rewrite Hp. Qed.

Lemma occurrences_pos {A : Type} `{EqDecision A} (x : A) (l : list A) :
  (0 < occurrences x l)%nat ↔ x ∈ l.
Proof.
  unfold occurrences. split.
  - intros Hlen. destruct (filter (λ y, y = x) l) as [|y f] eqn:Hf; simpl in Hlen; [lia|].
    assert (y ∈ filter (λ y, y = x) l) as Hy by (rewrite Hf; left).
    apply list_elem_of_filter in Hy as [-> ?]. done.
  - intros Hx. assert (x ∈ filter (λ y, y = x) l) as Hin
      by (by apply list_elem_of_filter).
    destruct (filter (λ y, y = x) l); [by apply elem_of_nil in Hin|simpl; lia].
Qed.

Section ProcessGroupFacts.
Context {np : Numpy}.

Lemma sorted_pair_min_max (a b : Z) : sorted_pair a b = (Z.min a b, Z.max a b).
Proof. unfold sorted_pair. destruct (Z.ltb_spec b a); f_equal; lia. Qed.

Lemma genotype_Some_length (al : list Z) :
  is_Some (genotype al) ↔ length al = 1%nat ∨ length al = 2%nat.
Proof.
  destruct al as [|a [|b [|c al]]]; simpl; split;
    try (intros [? [=]]); try (intros [[=]|[=]]); eauto.
Qed.

(** The loop over the samples, one sample at a time. *)
Lemma count_genotypes_cons locus_id motif sample_id al items gc :
  count_genotypes locus_id motif ((sample_id, al) :: items) gc
  = match genotype al with
    | Some g => count_genotypes locus_id motif items (incr g gc)
    | None => Raise (UnexpectedAlleleCount (length al) sample_id locus_id motif)
    end.
Proof.
  destruct al as [|a [|b [|c al]]]; simpl; try done.
  - by rewrite sorted_pair_min_max, Z.min_id, Z.max_id.
  - by rewrite sorted_pair_min_max.
Qed.

(** When the loop ends normally every sample had one or two alleles, and each
    genotype has gained one count per sample. *)
Lemma count_genotypes_Ok locus_id motif items gc gc' :
  count_genotypes locus_id motif items gc = Ok gc' →
  Forall (λ x, is_Some (genotype x.2)) items
  ∧ (∀ g, count_of g gc' = (count_of g gc + samples_with_genotype g items)%nat)
  ∧ (NoDup gc.*1 → NoDup gc'.*1)
  ∧ (Forall (λ x, 0 < x.2)%nat gc → Forall (λ x, 0 < x.2)%nat gc')
  ∧ sum_list_with snd gc' = (sum_list_with snd gc + length items)%nat
  ∧ (∀ g, g ∈ gc'.*1 ↔ g ∈ gc.*1 ∨ (0 < samples_with_genotype g items)%nat).
Proof.
  revert gc. induction items as [|[s al] items IH]; intros gc.
  - intros [= <-]. unfold samples_with_genotype.
    split_and!; auto; try (intros g); rewrite ?filter_nil; simpl; try lia.
    split; [auto|]. intros [?|?]; [done|lia].
  - rewrite count_genotypes_cons. destruct (genotype al) as [g0|] eqn:Hg; [|done].
    intros (Hall & Hcnt & Hnd & Hpos & Hsum & Hkeys)%IH. split_and!.
    + constructor; [simpl; by rewrite Hg|done].
    + intros g. rewrite Hcnt, count_of_incr. unfold samples_with_genotype.
      rewrite filter_cons. simpl. rewrite Hg.
      destruct (decide (g = g0)) as [->|Hne].
      * rewrite decide_True by done. simpl. lia.
      * rewrite decide_False by congruence. done.
    + intros ?. by apply Hnd, incr_NoDup.
    + intros ?. by apply Hpos, incr_positive.
    + rewrite Hsum, incr_sum. simpl. lia.
    + intros g. rewrite Hkeys, incr_keys. unfold samples_with_genotype.
      rewrite filter_cons. simpl. rewrite Hg.
      repeat case_decide; simplify_eq; simpl;
        rewrite ?elem_of_app, ?list_elem_of_singleton; naive_solver lia.
Qed.

(** The loop raises at the first sample without one or two alleles. *)
Lemma count_genotypes_Raise locus_id motif good sample_id al rest gc :
  Forall (λ x, is_Some (genotype x.2)) good →
  genotype al = None →
  count_genotypes locus_id motif (good ++ (sample_id, al) :: rest) gc
  = Raise (UnexpectedAlleleCount (length al) sample_id locus_id motif).
Proof.
  intros Hgood Hal. revert gc.
  induction Hgood as [|[s a] good [g Hg] _ IH]; intros gc; simpl app.
  - by rewrite count_genotypes_cons, Hal.
  - rewrite count_genotypes_cons. simpl in Hg. rewrite Hg. apply IH.
Qed.

Lemma count_genotypes_total locus_id motif items gc :
  Forall (λ x, is_Some (genotype x.2)) items →
  ∃ gc', count_genotypes locus_id motif items gc = Ok gc'.
Proof.
  intros Hall. revert gc.
  induction Hall as [|[s a] items [g Hg] _ IH]; intros gc; [by eexists|].
  rewrite count_genotypes_cons. simpl in Hg. rewrite Hg. apply IH.
Qed.

(** Any exception of the loop is the one for a sample's allele count. *)
Lemma count_genotypes_Raise_inv locus_id motif items gc e :
  count_genotypes locus_id motif items gc = Raise e →
  ∃ n sample_id, e = UnexpectedAlleleCount n sample_id locus_id motif.
Proof.
  revert gc. induction items as [|[s al] items IH]; intros gc; [done|].
  rewrite count_genotypes_cons. destruct (genotype al); [apply IH|].
  intros [= <-]. eauto.
Qed.

Lemma most_common_1_Counter (allele_sizes : list Z) :
  allele_sizes ≠ [] →
  ∃ x, most_common_1 (Counter (merge_sort Z.le allele_sizes)) = [x].
Proof.
  intros Hne.
  assert (merge_sort Z.le allele_sizes ≠ []) as Hs.
  { intros Hs. apply Hne, Permutation_nil_r. rewrite <- Hs.
    by rewrite merge_sort_Permutation. }
  apply Counter_nonempty in Hs.
  destruct (Counter _) as [|x c]; [done|]. by eexists.
Qed.

(** [process_group] on a group with at least one allele, step by step. *)
Lemma process_group_nonempty locus_id motif allele_sizes by_sample :
  allele_sizes ≠ [] →
  process_group locus_id motif allele_sizes by_sample
  = (found ← resolve_locus_id locus_id motif;
     genotype_counts ← count_genotypes found motif by_sample [];
     median ← float_to_int (np_median (merge_sort Z.le allele_sizes));
     percentile ← float_to_int (np_percentile (merge_sort Z.le allele_sizes) 99);
     Ok (Some {| locus_id := found;
                 motif := motif;
                 allele_size_histogram :=
                   Py.join "," (format_allele_count <$> allele_size_entries allele_sizes);
                 biallelic_histogram :=
                   Py.join "," (format_genotype_count <$> biallelic_entries genotype_counts);
                 mode_allele := mode_of allele_sizes;
                 mean := Py.format_3f (np_mean (merge_sort Z.le allele_sizes));
                 stdev := Py.format_3f (np_std (merge_sort Z.le allele_sizes));
                 median := median;
                 percentile_99th := percentile |})).
Proof.
  intros Hne. destruct (most_common_1_Counter _ Hne) as [x Hx].
  unfold process_group, mode_of. destruct allele_sizes as [|a l]; [done|].
  rewrite Hx. destruct (resolve_locus_id locus_id motif); done.
Qed.

Lemma process_group_empty locus_id motif by_sample :
  process_group locus_id motif [] by_sample = Ok None.
Proof. done. Qed.

(** A row is written only for a group that has alleles. *)
Lemma process_group_Some_nonempty locus_id motif allele_sizes by_sample r :
  process_group locus_id motif allele_sizes by_sample = Ok (Some r) →
  allele_sizes ≠ [].
Proof. by intros Hpg ->. Qed.

End ProcessGroupFacts.

(** ** Groups of consecutive records *)

Section Blocks.
Context {K V : Type} `{EqDecision K}.
Implicit Types (k : K) (v : V) (recs : list (K * V)) (bs : list (K * list V)).

Lemma blocks_cons k v recs :
  blocks ((k, v) :: recs)
  = match blocks recs with
    | (k', vs) :: bs =>
        if decide (k = k') then (k, v :: vs) :: bs else (k, [v]) :: (k', vs) :: bs
    | [] => [(k, [v])]
    end.
Proof. done. Qed.

Lemma blocks_nil_inv recs : blocks recs = [] → recs = [].
Proof.
  destruct recs as [|[k v] recs]; [done|]. rewrite blocks_cons.
  destruct (blocks recs) as [|[k' vs] bs]; [done|]. by case_decide.
Qed.

(** The groups hold the records, in order. *)
Lemma unblocks_blocks recs : unblocks (blocks recs) = recs.
Proof.
  induction recs as [|[k v] recs IH]; [done|]. rewrite blocks_cons.
  destruct (blocks recs) as [|[k' vs] bs]; simpl in *.
  - by rewrite <- IH.
  - case_decide; simplify_eq/=; done.
Qed.

(** No group is empty. *)
Lemma blocks_nonempty recs : Forall (λ b, b.2 ≠ []) (blocks recs).
Proof.
  induction recs as [|[k v] recs IH]; [constructor|]. rewrite blocks_cons.
  destruct (blocks recs) as [|[k' vs] bs]; [by repeat constructor|].
  apply Forall_cons in IH as [? ?]. case_decide; repeat constructor; done.
Qed.

(** The groups are maximal: neighbours differ in their key. *)
Lemma blocks_alternating recs : alternating (blocks recs).
Proof.
  induction recs as [|[k v] recs IH]; [done|]. rewrite blocks_cons.
  destruct (blocks recs) as [|[k' vs] bs]; [done|].
  case_decide; subst; [|done]. destruct bs; [done|]. simpl in *. done.
Qed.

Lemma snoc_block_same bs k vs v :
  snoc_block (bs ++ [(k, vs)]) k v = bs ++ [(k, vs ++ [v])].
Proof.
  unfold snoc_block. rewrite reverse_snoc, decide_True by done.
  by rewrite reverse_involutive.
Qed.

Lemma snoc_block_other bs k' vs k v :
  k ≠ k' → snoc_block (bs ++ [(k', vs)]) k v = bs ++ [(k', vs); (k, [v])].
Proof.
  intros Hne. unfold snoc_block. rewrite reverse_snoc, decide_False by done.
  by rewrite <- app_assoc.
Qed.

Lemma snoc_block_nonempty bs k v : snoc_block bs k v ≠ [].
Proof.
  destruct bs as [|[k' vs] bs _] using rev_ind; [done|].
  destruct (decide (k = k')) as [->|Hk].
  - rewrite snoc_block_same. by destruct bs.
  - rewrite snoc_block_other by done. by destruct bs.
Qed.

Lemma snoc_block_singleton k' vs k v :
  snoc_block [(k', vs)] k v
  = if decide (k = k') then [(k', vs ++ [v])] else [(k', vs); (k, [v])].
Proof. done. Qed.

Lemma snoc_block_cons b bs k v :
  bs ≠ [] → snoc_block (b :: bs) k v = b :: snoc_block bs k v.
Proof.
  intros Hne. destruct bs as [|[k' vs] bs _] using rev_ind; [done|].
  change (b :: (bs ++ [(k', vs)])) with ((b :: bs) ++ [(k', vs)]).
  destruct (decide (k = k')) as [->|Hk].
  - by rewrite !snoc_block_same.
  - by rewrite !snoc_block_other.
Qed.

Lemma blocks_snoc recs k v :
  blocks (recs ++ [(k, v)]) = snoc_block (blocks recs) k v.
Proof.
  induction recs as [|[k0 v0] recs IH]; [done|].
  change (((k0, v0) :: recs) ++ [(k, v)]) with ((k0, v0) :: (recs ++ [(k, v)])).
  rewrite !blocks_cons, IH. clear IH.
  destruct (blocks recs) as [|[k1 vs1] [|b bs]].
  - unfold snoc_block. simpl. by repeat case_decide; simplify_eq.
  - rewrite snoc_block_singleton.
    repeat case_decide; simplify_eq; rewrite ?snoc_block_singleton,
      ?snoc_block_cons, ?snoc_block_singleton by done;
      repeat case_decide; simplify_eq; done.
  - rewrite snoc_block_cons by done.
    destruct (snoc_block (b :: bs) k v) as [|b' bs'] eqn:Hs;
      [by apply snoc_block_nonempty in Hs|].
    case_decide; simplify_eq; rewrite !snoc_block_cons, ?Hs by done; done.
Qed.

End Blocks.

(** ** The loop of [main] and the groups of the input *)

Section Accumulators.

Lemma records_snoc (pre : list string) (line : string) :
  records (pre ++ [line]) = records pre ++ option_list (fields_of line).
Proof.
  unfold records. rewrite omap_app. simpl. by destruct (fields_of line).
Qed.

Lemma records_snoc_Some (pre : list string) (line : string) r :
  fields_of line = Some r → records (pre ++ [line]) = records pre ++ [r].
Proof. intros Hf. by rewrite records_snoc, Hf. Qed.

Lemma records_snoc_None (pre : list string) (line : string) :
  fields_of line = None → records (pre ++ [line]) = records pre.
Proof. intros Hf. by rewrite records_snoc, Hf, app_nil_r. Qed.

Lemma valid_records_snoc vs sample_id allele_size :
  valid_records (vs ++ [(sample_id, allele_size)])
  = valid_records vs ++ option_list ((λ n, (sample_id, n)) <$> Py.int allele_size).
Proof.
  unfold valid_records. rewrite omap_app. simpl. by destruct (Py.int allele_size).
Qed.

Lemma valid_alleles_snoc vs sample_id allele_size :
  valid_alleles (vs ++ [(sample_id, allele_size)])
  = valid_alleles vs ++ option_list (Py.int allele_size).
Proof.
  unfold valid_alleles. rewrite valid_records_snoc, fmap_app.
  by destruct (Py.int allele_size).
Qed.

Lemma alleles_by_sample_snoc vs sample_id allele_size :
  alleles_by_sample (vs ++ [(sample_id, allele_size)])
  = match Py.int allele_size with
    | Some n => append_to sample_id n (alleles_by_sample vs)
    | None => alleles_by_sample vs
    end.
Proof.
  unfold alleles_by_sample. rewrite valid_records_snoc, fold_left_app.
  by destruct (Py.int allele_size).
Qed.

End Accumulators.

Section Loop.
Context {np : Numpy}.

Lemma loop_body_malformed n line s :
  fields_of line = None →
  loop_body n line s = Done (print (SkippingMalformedLine line) (next_line n s)).
Proof.
  unfold fields_of, loop_body.
  destruct (Py.split TAB (Py.strip line)) as [|f1 [|f2 [|f3 [|f4 [|f5 fs]]]]]; done.
Qed.

Lemma loop_body_fields n line s k sample_id allele_size :
  fields_of line = Some (k, (sample_id, allele_size)) →
  loop_body n line s
  = match change_key (default k (previous_key s)) k
            (read_fields sample_id k (next_line n s)) with
    | Done s' => Done (record_allele_size k sample_id allele_size s')
    | Aborted e s' => Aborted e s'
    end.
Proof.
  unfold fields_of, loop_body.
  destruct (Py.split TAB (Py.strip line)) as [|f1 [|f2 [|f3 [|f4 [|f5 fs]]]]];
    try done.
  by intros [= <- <- <-].
Qed.

(** The loop stops at the first line whose turn raises. *)
Lemma loop_app n pre post s :
  loop n (pre ++ post) s
  = match loop n pre s with
    | Done s' => loop (n + length pre) post s'
    | Aborted e s' => Aborted e s'
    end.
Proof.
  revert n s. induction pre as [|line pre IH]; intros n s; simpl.
  - by rewrite Nat.add_0_r.
  - destruct (loop_body n line s); [|done].
    rewrite IH. by rewrite Nat.add_succ_comm.
Qed.

Lemma loop_Aborted n infile s e s' :
  loop n infile s = Aborted e s' →
  ∃ pre line post s1,
    infile = pre ++ line :: post
    ∧ loop n pre s = Done s1
    ∧ loop_body (n + length pre) line s1 = Aborted e s'.
Proof.
  revert n s. induction infile as [|line infile IH]; intros n s; simpl; [done|].
  destruct (loop_body n line s) as [s1|e1 s1] eqn:Hbody.
  - intros (pre & l & post & s2 & -> & Hpre & Hl)%IH.
    exists (line :: pre), l, post, s2. simpl. rewrite Hbody.
    by rewrite <- Nat.add_succ_comm.
  - intros [= -> ->]. exists [], line, infile, s. by rewrite Nat.add_0_r.
Qed.

Lemma invariant_initial : invariant [] initial_state.
Proof. left. by split. Qed.

Lemma rows_snoc closed b r :
  flush b = Ok r → (closed ++ [b]) ≫= row_of = (closed ≫= row_of) ++ option_list r.
Proof.
  intros Hflush. rewrite bind_app. f_equal.
  change ([b] ≫= row_of) with (row_of b ++ []).
  unfold row_of. by rewrite Hflush, app_nil_r.
Qed.

Lemma change_key_same k s : change_key k k s = Done s.
Proof. unfold change_key. by rewrite decide_False by auto. Qed.

Lemma group_state_record s closed k vs n sample_id allele_size :
  group_state s closed k vs n →
  group_state (record_allele_size k sample_id allele_size s) closed k
    (vs ++ [(sample_id, allele_size)]) n.
Proof.
  intros [Hprev Hcur Hall Hby Hseen Hnd Hfl Hout Hln].
  unfold record_allele_size.
  split; rewrite ?valid_alleles_snoc, ?alleles_by_sample_snoc;
    destruct (Py.int allele_size); simpl; rewrite ?app_nil_r; congruence.
Qed.

Lemma step_malformed pre line s :
  invariant pre s → fields_of line = None →
  ∃ s', loop_body (S (length pre)) line s = Done s'
        ∧ invariant (pre ++ [line]) s' ∧ outfile s' = outfile s.
Proof.
  intros Hinv Hf. rewrite loop_body_malformed by done. eexists.
  split_and!; [done| |done].
  destruct Hinv as [[Hrecs Hprev Hall Hby Hseen Hout Hln]|(closed & k & vs & Hb & [Hprev Hcur Hall Hby Hseen Hnd Hfl Hout Hln])]; [left|right].
  - split; rewrite ?(records_snoc_None _ _ Hf), ?length_app; simpl;
      rewrite ?Nat.add_1_r; done.
  - exists closed, k, vs.
    split; [|split]; rewrite ?(records_snoc_None _ _ Hf), ?length_app; simpl;
      rewrite ?Nat.add_1_r; done.
Qed.

Lemma step_first pre line s k v :
  no_group pre s → fields_of line = Some (k, v) →
  ∃ s', loop_body (S (length pre)) line s = Done s'
        ∧ open_group (pre ++ [line]) s' [] k [v].
Proof.
  intros [Hrecs Hprev Hall Hby Hseen Hout Hln] Hf. destruct v as [sample_id allele_size].
  rewrite (loop_body_fields _ _ _ _ _ _ Hf).
  rewrite Hprev. simpl. rewrite change_key_same. eexists. split; [done|].
  split.
  - by rewrite (records_snoc_Some _ _ _ Hf), Hrecs.
  - apply (group_state_record _ [] k []).
    split; simpl; rewrite ?Hprev, ?length_app, ?Nat.add_1_r; try done.
    constructor.
Qed.

Lemma step_same pre line s closed k vs v :
  open_group pre s closed k vs → fields_of line = Some (k, v) →
  ∃ s', loop_body (S (length pre)) line s = Done s'
        ∧ open_group (pre ++ [line]) s' closed k (vs ++ [v]).
Proof.
  intros [Hb [Hprev Hcur Hall Hby Hseen Hnd Hfl Hout Hln]] Hf. destruct v as [sample_id allele_size].
  rewrite (loop_body_fields _ _ _ _ _ _ Hf).
  rewrite Hprev. simpl. rewrite change_key_same. eexists. split; [done|].
  split.
  - by rewrite (records_snoc_Some _ _ _ Hf), blocks_snoc, Hb, snoc_block_same.
  - apply group_state_record.
    split; simpl; rewrite ?Hprev, ?length_app, ?Nat.add_1_r; done.
Qed.

Lemma step_change_seen pre line s closed k vs k' v :
  open_group pre s closed k vs → fields_of line = Some (k', v) →
  k' ≠ k → k ∈ closed.*1 →
  ∃ s', loop_body (S (length pre)) line s
        = Aborted (NotSorted (S (length pre)) k'.1) s'
        ∧ outfile s' = closed ≫= row_of.
Proof.
  intros [Hb [Hprev Hcur Hall Hby Hseen Hnd Hfl Hout Hln]] Hf Hk Hin. destruct v as [sample_id allele_size].
  rewrite (loop_body_fields _ _ _ _ _ _ Hf).
  rewrite Hprev. simpl. unfold change_key.
  rewrite decide_True by done. simpl.
  rewrite decide_True by (rewrite Hseen; by apply elem_of_list_to_set).
  by eexists.
Qed.

Lemma step_change_raise pre line s closed k vs k' v e :
  open_group pre s closed k vs → fields_of line = Some (k', v) →
  k' ≠ k → k ∉ closed.*1 → flush (k, vs) = Raise e →
  ∃ s', loop_body (S (length pre)) line s = Aborted e s'
        ∧ outfile s' = closed ≫= row_of.
Proof.
  intros [Hb [Hprev Hcur Hall Hby Hseen Hnd Hfl Hout Hln]] Hf Hk Hin Hflush. destruct v as [sample_id allele_size].
  rewrite (loop_body_fields _ _ _ _ _ _ Hf).
  rewrite Hprev. simpl. unfold change_key.
  rewrite decide_True by done. simpl.
  rewrite decide_False by (rewrite Hseen; by rewrite elem_of_list_to_set).
  simpl. rewrite Hall, Hby.
  unfold flush in Hflush. simpl in Hflush. rewrite Hflush. by eexists.
Qed.

Lemma step_change_ok pre line s closed k vs k' v r :
  open_group pre s closed k vs → fields_of line = Some (k', v) →
  k' ≠ k → k ∉ closed.*1 → flush (k, vs) = Ok r →
  ∃ s', loop_body (S (length pre)) line s = Done s'
        ∧ open_group (pre ++ [line]) s' (closed ++ [(k, vs)]) k' [v].
Proof.
  intros [Hb [Hprev Hcur Hall Hby Hseen Hnd Hfl Hout Hln]] Hf Hk Hin Hflush. destruct v as [sample_id allele_size].
  rewrite (loop_body_fields _ _ _ _ _ _ Hf).
  rewrite Hprev. simpl. unfold change_key.
  rewrite decide_True by done. simpl.
  rewrite decide_False by (rewrite Hseen; by rewrite elem_of_list_to_set).
  simpl. rewrite Hall, Hby.
  pose proof Hflush as Hflush'.
  unfold flush in Hflush. simpl in Hflush. rewrite Hflush. eexists. split; [done|].
  split.
  - rewrite (records_snoc_Some _ _ _ Hf), blocks_snoc, Hb, snoc_block_other by done.
    by rewrite <- app_assoc.
  - apply (group_state_record _ _ k' []).
    split; simpl; rewrite ?length_app, ?Nat.add_1_r; try done.
    + rewrite fmap_app, list_to_set_app_L, Hseen. simpl. set_solver.
    + rewrite fmap_app. apply NoDup_app. split_and!; [done| |apply NoDup_singleton].
      intros x Hx Hx'%list_elem_of_singleton. simpl in Hx'. by subst.
    + apply Forall_app. split; [done|]. repeat constructor. by eexists.
    + by rewrite (rows_snoc _ _ _ Hflush'), Hout.
Qed.

(** Every turn of the loop that goes on keeps the invariant. *)
Lemma step_invariant pre line s s' :
  invariant pre s → loop_body (S (length pre)) line s = Done s' →
  invariant (pre ++ [line]) s'.
Proof.
  intros Hinv Hbody. destruct (fields_of line) as [[k' v]|] eqn:Hf.
  - destruct Hinv as [Hng|(closed & k & vs & Hog)].
    + destruct (step_first _ _ _ _ _ Hng Hf) as (s1 & Hs1 & Hog).
      right. exists [], k', [v]. congruence.
    + destruct (decide (k' = k)) as [->|Hk].
      * destruct (step_same _ _ _ _ _ _ _ Hog Hf) as (s1 & Hs1 & Hog').
        right. exists closed, k, (vs ++ [v]). congruence.
      * destruct (decide (k ∈ closed.*1)) as [Hin|Hin].
        { destruct (step_change_seen _ _ _ _ _ _ _ _ Hog Hf Hk Hin)
            as (s1 & Hs1 & _). congruence. }
        destruct (flush (k, vs)) as [r|e] eqn:Hflush.
        -- destruct (step_change_ok _ _ _ _ _ _ _ _ _ Hog Hf Hk Hin Hflush)
             as (s1 & Hs1 & Hog').
           right. exists (closed ++ [(k, vs)]), k', [v]. congruence.
        -- destruct (step_change_raise _ _ _ _ _ _ _ _ _ Hog Hf Hk Hin Hflush)
             as (s1 & Hs1 & _). congruence.
  - destruct (step_malformed _ _ _ Hinv Hf) as (s1 & Hs1 & Hinv' & _). congruence.
Qed.

Lemma loop_invariant post pre s s' :
  invariant pre s → loop (S (length pre)) post s = Done s' →
  invariant (pre ++ post) s'.
Proof.
  revert pre s. induction post as [|line post IH]; intros pre s Hinv; simpl.
  - intros [= <-]. by rewrite app_nil_r.
  - destruct (loop_body (S (length pre)) line s) as [s1|] eqn:Hbody; [|done].
    intros Hloop. rewrite cons_middle, app_assoc. apply (IH _ s1).
    + by eapply step_invariant.
    + by rewrite length_app, Nat.add_1_r.
Qed.

End Loop.

(** ** The runs of [main] *)

Section Run.
Context {np : Numpy}.

Lemma finish_spec infile s :
  invariant infile s → run_spec infile (finish s).
Proof.
  intros [[Hrecs Hprev Hall Hby Hseen Hout Hln]|(closed & k & vs & Hb & [Hprev Hcur Hall Hby Hseen Hnd Hfl Hout Hln])]; unfold finish.
  - rewrite Hall. by apply run_no_record.
  - rewrite Hall, Hcur, Hby.
    destruct (valid_alleles vs) as [|a l] eqn:Hvalid.
    + eapply (run_completed _ _ closed k vs None); try done.
      * unfold flush. simpl. by rewrite Hvalid.
      * simpl. rewrite (rows_snoc _ _ None), Hout, app_nil_r; [done|].
        unfold flush. simpl. by rewrite Hvalid.
    + rewrite <- Hvalid.
      change (process_group k.1 k.2 (valid_alleles vs) (alleles_by_sample vs))
        with (flush (k, vs)).
      destruct (flush (k, vs)) as [r|e] eqn:Hflush.
      * simpl. case_decide as Hin; rewrite Hseen, elem_of_list_to_set in Hin.
        -- rewrite Hln.
           eapply run_not_sorted_last; try done; [by rewrite Hvalid|].
           simpl. by rewrite (rows_snoc _ _ _ Hflush), Hout.
        -- eapply run_completed; try done.
           simpl. by rewrite (rows_snoc _ _ _ Hflush), Hout.
      * by eapply run_raise_last.
Qed.

(** Every run of [main] ends in one of the ways of [run_spec]. *)
Lemma main_spec infile : run_spec infile (main infile).
Proof.
  unfold main. destruct (loop 1 infile initial_state) as [s|e s] eqn:Hloop.
  - apply finish_spec.
    apply (loop_invariant infile [] initial_state); [apply invariant_initial|done].
  - apply loop_Aborted in Hloop as (pre & line & post & s1 & -> & Hpre & Hbody).
    assert (invariant pre s1) as Hinv
      by (apply (loop_invariant pre [] initial_state);
          [apply invariant_initial|done]).
    simpl in Hbody.
    destruct (fields_of line) as [[k' v]|] eqn:Hf.
    + destruct Hinv as [Hng|(closed & k & vs & Hog)].
      { destruct (step_first _ _ _ _ _ Hng Hf) as (s2 & Hs2 & _). congruence. }
      destruct (decide (k' = k)) as [->|Hk].
      { destruct (step_same _ _ _ _ _ _ _ Hog Hf) as (s2 & Hs2 & _). congruence. }
      pose proof Hog as [Hb [_ _ _ _ _ Hnd Hfl _ _]].
      destruct (decide (k ∈ closed.*1)) as [Hin|Hin].
      { destruct (step_change_seen _ _ _ _ _ _ _ _ Hog Hf Hk Hin)
          as (s2 & Hs2 & Hout).
        rewrite Hs2 in Hbody. injection Hbody as <- <-.
        by eapply run_not_sorted. }
      destruct (flush (k, vs)) as [r|e'] eqn:Hflush.
      * destruct (step_change_ok _ _ _ _ _ _ _ _ _ Hog Hf Hk Hin Hflush)
          as (s2 & Hs2 & _). congruence.
      * destruct (step_change_raise _ _ _ _ _ _ _ _ _ Hog Hf Hk Hin Hflush)
          as (s2 & Hs2 & Hout).
        rewrite Hs2 in Hbody. injection Hbody as <- <-.
        by eapply run_raise.
    + destruct (step_malformed _ _ _ Hinv Hf) as (s2 & Hs2 & _). congruence.
Qed.

(** The groups before the last one stay as they are when records follow. *)
Lemma blocks_app_closed {K V : Type} `{EqDecision K}
    (recs1 recs2 : list (K * V)) closed b :
  blocks recs1 = closed ++ [b] →
  ∃ b' rest, blocks (recs1 ++ recs2) = closed ++ b' :: rest.
Proof.
  intros Hb. induction recs2 as [|[k v] recs2 IH] using rev_ind.
  - rewrite app_nil_r. eauto.
  - destruct IH as (b' & rest & IH). rewrite app_assoc, blocks_snoc, IH.
    destruct (snoc_block (b' :: rest) k v) as [|b'' rest'] eqn:Hs;
      [by apply snoc_block_nonempty in Hs|].
    exists b'', rest'. rewrite <- Hs. clear Hs IH Hb.
    induction closed as [|c closed IHc]; [done|].
    simpl. rewrite snoc_block_cons by (by destruct closed). by rewrite IHc.
Qed.

Lemma records_app (l1 l2 : list string) : records (l1 ++ l2) = records l1 ++ records l2.
Proof. apply omap_app. Qed.

(** Two ways of splitting a list at an element. *)
Lemma app_cons_eq_inv {A : Type} (l1 l2 r1 r2 : list A) (x y : A) :
  l1 ++ x :: r1 = l2 ++ y :: r2 →
  (l1 = l2 ∧ x = y ∧ r1 = r2)
  ∨ (∃ m, l2 = l1 ++ x :: m)
  ∨ (∃ m, l1 = l2 ++ y :: m).
Proof.
  intros [(m & -> & Hm)|(m & -> & Hm)]%app_eq_inv.
  - destruct m as [|z m]; simpl in Hm.
    + injection Hm as <- <-. left. by rewrite app_nil_r.
    + injection Hm as <- ->. right. right. by exists m.
  - destruct m as [|z m]; simpl in Hm.
    + injection Hm as <- <-. left. by rewrite app_nil_r.
    + injection Hm as <- ->. right. left. by exists m.
Qed.

(** The groups of the lines read so far, when a line opens a new group. *)
Lemma blocks_after_change pre line post closed (k k' : key) vs v :
  blocks (records pre) = closed ++ [(k, vs)] →
  fields_of line = Some (k', v) →
  k' ≠ k →
  ∃ b rest, blocks (records (pre ++ line :: post)) = closed ++ (k, vs) :: b :: rest.
Proof.
  intros Hb Hf Hk. rewrite cons_middle, app_assoc, records_app.
  assert (blocks (records (pre ++ [line])) = (closed ++ [(k, vs)]) ++ [(k', [v])]) as Hb2.
  { rewrite (records_snoc_Some _ _ _ Hf), blocks_snoc, Hb.
    rewrite snoc_block_other by done. by rewrite <- app_assoc. }
  destruct (blocks_app_closed _ (records post) _ _ Hb2) as (b' & rest' & ->).
  exists b', rest'. by rewrite <- app_assoc.
Qed.

(** The rows in the output file are the rows of the first groups of the
    input, in order. *)
Lemma rows_written_prefix infile :
  ∃ bs rest, blocks (records infile) = bs ++ rest
    ∧ Forall (λ b, ∃ r, flush b = Ok r) bs
    ∧ rows_written (main infile) = bs ≫= row_of.
Proof.
  destruct (main_spec infile)
    as [s Hrecs Hout
       |s closed k vs r Hb _ Hfl Hflush _ Hout
       |s pre line post closed k vs k' v -> Hb _ _ _ Hfl _ Hout
       |s pre line post closed k vs k' v e -> Hb _ _ _ Hfl _ _ Hout
       |s closed k vs e Hb _ Hfl _ Hout
       |s closed k vs r Hb _ Hfl _ Hflush _ Hout];
    unfold rows_written; simpl.
  - exists [], []. by rewrite Hrecs.
  - exists (closed ++ [(k, vs)]), []. rewrite app_nil_r.
    split_and!; [done| |done]. apply Forall_app. split; [done|].
    repeat constructor. by eexists.
  - rewrite records_app.
    destruct (blocks_app_closed (records pre) (records (line :: post)) _ _ Hb)
      as (b' & rest & ->). by exists closed, (b' :: rest).
  - rewrite records_app.
    destruct (blocks_app_closed (records pre) (records (line :: post)) _ _ Hb)
      as (b' & rest & ->). by exists closed, (b' :: rest).
  - by exists closed, [(k, vs)].
  - exists (closed ++ [(k, vs)]), []. rewrite app_nil_r.
    split_and!; [done| |done]. apply Forall_app. split; [done|].
    repeat constructor. by eexists.
Qed.

(** Every row in the output file was written by the flush of a group. *)
Lemma rows_written_flush infile r :
  r ∈ rows_written (main infile) →
  ∃ k vs, (k, vs) ∈ blocks (records infile) ∧ flush (k, vs) = Ok (Some r).
Proof.
  destruct (rows_written_prefix infile) as (bs & rest & Hb & _ & ->).
  intros ([k vs] & Hr & Hin)%list_elem_of_bind. exists k, vs. split.
  - rewrite Hb. apply elem_of_app. by left.
  - unfold row_of in Hr. destruct (flush (k, vs)) as [[r'|]|];
      simpl in Hr; try by apply elem_of_nil in Hr.
    by apply list_elem_of_singleton in Hr as ->.
Qed.

End Run.

(** ** The row of a group *)

Lemma bind_Ok {A B : Type} (m : result A) (k : A → result B) (b : B) :
  m ≫= k = Ok b → ∃ a, m = Ok a ∧ k a = Ok b.
Proof. destruct m as [a|e]; [by exists a|done]. Qed.

Lemma bind_Raise {A B : Type} (m : result A) (k : A → result B) (e : exception) :
  m ≫= k = Raise e → m = Raise e ∨ ∃ a, m = Ok a ∧ k a = Raise e.
Proof.
  destruct m as [a|e']; [right; by exists a|].
  intros [= ->]. by left.
Qed.

Section Orders.

(** A sorted list with distinct keys is strictly sorted. *)
Lemma StronglySorted_strict {A B : Type} (R R' : relation A) (f : A → B) (l : list A) :
  (∀ x y, R x y → f x ≠ f y → R' x y) →
  StronglySorted R l → NoDup (f <$> l) → StronglySorted R' l.
Proof.
  intros HR. induction 1 as [|x l Hl IH Hx]; [constructor|].
  rewrite fmap_cons. intros [Hnin Hnd]%NoDup_cons. constructor; [by apply IH|].
  apply Forall_forall. intros y Hy. apply HR.
  - eapply Forall_forall in Hx; done.
  - intros Heq. apply Hnin. rewrite Heq. by apply list_elem_of_fmap_2.
Qed.

End Orders.

Section Rows.
Context {np : Numpy}.

(** The columns of the row that [process_group] writes. *)
Lemma process_group_row raw_locus_id group_motif allele_sizes by_sample r :
  process_group raw_locus_id group_motif allele_sizes by_sample = Ok (Some r) →
  allele_sizes ≠ []
  ∧ ∃ found genotype_counts,
      resolve_locus_id raw_locus_id group_motif = Ok found
      ∧ count_genotypes found group_motif by_sample [] = Ok genotype_counts
      ∧ locus_id r = found
      ∧ motif r = group_motif
      ∧ allele_size_histogram r
        = Py.join "," (format_allele_count <$> allele_size_entries allele_sizes)
      ∧ biallelic_histogram r
        = Py.join "," (format_genotype_count <$> biallelic_entries genotype_counts)
      ∧ mode_allele r = mode_of allele_sizes
      ∧ mean r = Py.format_3f (np_mean (merge_sort Z.le allele_sizes))
      ∧ stdev r = Py.format_3f (np_std (merge_sort Z.le allele_sizes))
      ∧ Py.int_of_float (np_median (merge_sort Z.le allele_sizes)) = Some (median r)
      ∧ Py.int_of_float (np_percentile (merge_sort Z.le allele_sizes) 99)
        = Some (percentile_99th r).
Proof.
  intros Hpg. pose proof (process_group_Some_nonempty _ _ _ _ _ Hpg) as Hne.
  split; [done|]. rewrite process_group_nonempty in Hpg by done.
  apply bind_Ok in Hpg as (found & Hfound & Hpg).
  apply bind_Ok in Hpg as (gc & Hgc & Hpg).
  apply bind_Ok in Hpg as (med & Hmed & Hpg).
  apply bind_Ok in Hpg as (pct & Hpct & Hpg).
  injection Hpg as <-. exists found, gc. simpl.
  unfold float_to_int in Hmed, Hpct.
  destruct (Py.int_of_float (np_median _)); [|done].
  destruct (Py.int_of_float (np_percentile _ _)); [|done].
  by simplify_eq.
Qed.

(** The mode is the smallest of the most frequent alleles. *)
Lemma mode_of_spec (allele_sizes : list Z) :
  allele_sizes ≠ [] →
  mode_of allele_sizes ∈ allele_sizes
  ∧ (∀ x, occurrences x allele_sizes ≤ occurrences (mode_of allele_sizes) allele_sizes)%nat
  ∧ (∀ x, occurrences x allele_sizes = occurrences (mode_of allele_sizes) allele_sizes →
          mode_of allele_sizes ≤ x).
Proof.
  intros Hne. unfold mode_of.
  pose proof (merge_sort_Permutation Z.le allele_sizes) as Hperm.
  pose proof (Sorted_merge_sort Z.le allele_sizes) as Hsorted.
  set (sorted := merge_sort Z.le allele_sizes) in *.
  pose proof (Counter_NoDup sorted) as Hnd.
  pose proof (Counter_positive sorted) as Hpos.
  pose proof (Counter_keys_sorted sorted Hsorted) as Hkeys.
  assert (∀ x n, (x, n) ∈ Counter sorted ↔ x ∈ allele_sizes ∧ occurrences x allele_sizes = n)
    as Hentry.
  { intros x n. rewrite elem_of_counts, Counter_keys, count_of_Counter by done.
    by rewrite (occurrences_Permutation x _ _ Hperm), Hperm. }
  destruct (most_common_1_Counter _ Hne) as [m Hm]. fold sorted in Hm.
  rewrite Hm. unfold most_common_1 in Hm.
  destruct (Counter sorted) as [|best items] eqn:Hc; [done|].
  injection Hm as Hm.
  destruct (max_count_spec best items) as (pre & post & Heq & Hpre & Hpost).
  rewrite Hm in Heq, Hpre, Hpost. clear Hm. rewrite Heq in *. clear Heq.
  destruct m as [mode n].
  assert (mode ∈ allele_sizes ∧ occurrences mode allele_sizes = n) as [Hin Hn].
  { apply Hentry, elem_of_app. right. left. }
  simpl. split_and!; [done| |].
  - intros x. rewrite Hn. destruct (decide (x ∈ allele_sizes)) as [Hx|Hx].
    + assert ((x, occurrences x allele_sizes) ∈ pre ++ (mode, n) :: post) as Hxe
        by (by apply Hentry).
      apply elem_of_app in Hxe as [Hxe|Hxe].
      * eapply Forall_forall in Hpre; [|done]. simpl in Hpre. lia.
      * apply elem_of_cons in Hxe as [[= _ ->]|Hxe]; [done|].
        eapply Forall_forall in Hpost; [|done]. done.
    + apply (not_iff_compat (occurrences_pos x allele_sizes)) in Hx. lia.
  - intros x Hx. rewrite Hn in Hx.
    assert (0 < n)%nat as Hn0.
    { eapply Forall_forall in Hpos; [|apply elem_of_app; right; left]. done. }
    assert (x ∈ allele_sizes) as Hxin by (apply occurrences_pos; lia).
    assert ((x, n) ∈ pre ++ (mode, n) :: post) as Hxe by (by apply Hentry).
    apply elem_of_app in Hxe as [Hxe|Hxe].
    + eapply Forall_forall in Hpre; [|done]. simpl in Hpre. lia.
    + apply elem_of_cons in Hxe as [[= ->]|Hxe]; [done|].
      rewrite fmap_app, fmap_cons in Hkeys.
      apply StronglySorted_app in Hkeys as (_ & _ & Hkeys).
      apply StronglySorted_inv in Hkeys as [_ Hlt].
      eapply Forall_forall in Hlt; [|by apply (list_elem_of_fmap_2 fst) in Hxe].
      simpl in Hlt. lia.
Qed.

(** The counts of the allele-size histogram add up to the number of alleles. *)
Lemma allele_size_entries_sum (allele_sizes : list Z) :
  sum_list_with snd (allele_size_entries allele_sizes) = length allele_sizes.
Proof.
  unfold allele_size_entries.
  rewrite (merge_sort_Permutation item_le), Counter_sum.
  by rewrite (merge_sort_Permutation Z.le).
Qed.

(** The entries of the allele-size histogram: one for each allele size of
    the group, with the number of its occurrences, by increasing size. *)
Lemma allele_size_entries_spec (allele_sizes : list Z) :
  StronglySorted (λ x y, x.1 < y.1) (allele_size_entries allele_sizes)
  ∧ ∀ a n, (a, n) ∈ allele_size_entries allele_sizes
           ↔ (0 < n)%nat ∧ n = occurrences a allele_sizes.
Proof.
  unfold allele_size_entries.
  pose proof (merge_sort_Permutation Z.le allele_sizes) as Hperm.
  set (sorted := merge_sort Z.le allele_sizes) in *.
  pose proof (merge_sort_Permutation item_le (Counter sorted)) as Hperm'.
  pose proof (Counter_NoDup sorted) as Hnd.
  split.
  - apply (StronglySorted_strict item_le _ fst).
    + intros [a1 c1] [a2 c2]. unfold item_le. simpl. lia.
    + apply StronglySorted_merge_sort; apply _.
    + by rewrite Hperm'.
  - intros a n. rewrite Hperm', elem_of_counts, Counter_keys, count_of_Counter by done.
    rewrite (occurrences_Permutation a _ _ Hperm), Hperm. split.
    + intros [Hin <-]. split; [by apply occurrences_pos|done].
    + intros [Hn ->]. split; [by apply occurrences_pos|done].
Qed.

(** The loop over the samples counts every sample once. *)
Lemma biallelic_entries_sum found motif by_sample genotype_counts :
  count_genotypes found motif by_sample [] = Ok genotype_counts →
  sum_list_with snd (biallelic_entries genotype_counts) = length by_sample.
Proof.
  intros (_ & _ & _ & _ & Hsum & _)%count_genotypes_Ok.
  unfold biallelic_entries. by rewrite (merge_sort_Permutation genotype_item_le).
Qed.

(** The entries of the genotype histogram: one for each genotype that a
    sample has, with the number of these samples, by larger then smaller
    allele. *)
Lemma biallelic_entries_spec found motif by_sample genotype_counts :
  count_genotypes found motif by_sample [] = Ok genotype_counts →
  StronglySorted genotype_item_lt (biallelic_entries genotype_counts)
  ∧ ∀ g n, (g, n) ∈ biallelic_entries genotype_counts
           ↔ (0 < n)%nat ∧ n = samples_with_genotype g by_sample.
Proof.
  intros (_ & Hcnt & Hnd & Hpos & _ & Hkeys)%count_genotypes_Ok.
  specialize (Hnd (NoDup_nil_2)). specialize (Hpos (Forall_nil_2 _)).
  unfold biallelic_entries.
  pose proof (merge_sort_Permutation genotype_item_le genotype_counts) as Hperm.
  split.
  - apply (StronglySorted_strict genotype_item_le _ fst).
    + intros [[l1 h1] c1] [[l2 h2] c2].
      unfold genotype_item_le, genotype_item_lt, key_le, key_lt, genotype_key.
      simpl. intros Hle Hne.
      assert (¬ (l1 = l2 ∧ h1 = h2)) by (intros [-> ->]; done). lia.
    + apply StronglySorted_merge_sort; apply _.
    + by rewrite Hperm.
  - intros g n. rewrite Hperm, elem_of_counts, Hkeys, Hcnt by done. simpl.
    split.
    + intros [[[]%elem_of_nil|Hn] <-]. done.
    + intros [Hn ->]. auto.
Qed.

End Rows.

(** ** The alleles of a group by sample *)

Section BySample.
Context {K V : Type} `{EqDecision K}.

Lemma append_to_keys (k : K) (v : V) (d : list (K * list V)) :
  (append_to k v d).*1 = if decide (k ∈ d.*1) then d.*1 else d.*1 ++ [k].
Proof.
  induction d as [|[k0 vs] d IH]; [done|]. cbn [append_to].
  destruct (decide (k = k0)) as [->|Hne]; csimpl.
  - rewrite decide_True; [done|left].
  - rewrite IH. destruct (decide (k ∈ d.*1)) as [Hin|Hin].
    + rewrite decide_True; [done|by right].
    + rewrite decide_False; [done|]. intros [?|?]%elem_of_cons; done.
Qed.

Lemma append_to_NoDup (k : K) (v : V) (d : list (K * list V)) :
  NoDup d.*1 → NoDup (append_to k v d).*1.
Proof.
  intros Hd. rewrite append_to_keys. case_decide as Hin; [done|].
  apply NoDup_app. split_and!; [done| |apply NoDup_singleton].
  intros x Hx ->%list_elem_of_singleton. done.
Qed.

End BySample.

(** The dictionary of a group has one entry for each sample with a valid
    record. *)
Lemma alleles_by_sample_keys (vs : list (string * string)) :
  NoDup (alleles_by_sample vs).*1
  ∧ ∀ sample_id, sample_id ∈ (alleles_by_sample vs).*1 ↔ sample_id ∈ (valid_records vs).*1.
Proof.
  unfold alleles_by_sample.
  induction (valid_records vs) as [|[sample_id n] l [IHnd IHin]] using rev_ind.
  - split; [constructor|done].
  - rewrite fold_left_app. simpl. split; [by apply append_to_NoDup|].
    intros x. rewrite append_to_keys, fmap_app, elem_of_app. simpl.
    case_decide as Hin; rewrite ?elem_of_app, IHin in *; set_solver.
Qed.

Lemma alleles_by_sample_length (vs : list (string * string)) :
  length (alleles_by_sample vs) = size (contributing_samples vs).
Proof.
  destruct (alleles_by_sample_keys vs) as [Hnd Hin].
  unfold contributing_samples.
  assert (list_to_set (valid_records vs).*1
          = (list_to_set (alleles_by_sample vs).*1 : gset string)) as ->.
  { apply set_eq. intros x. by rewrite !elem_of_list_to_set, Hin. }
  by rewrite size_list_to_set, length_fmap.
Qed.

(** ** Properties of the rows *)

Section RowProperties.
Context {np : Numpy}.

(** C2. When [process_group] writes a row for a group, the row's
    [mode_allele] is an allele size of the group, no allele size of the
    group is more frequent, and every allele size that is as frequent is
    at least as large. *)
Theorem mode_allele_smallest_most_frequent
    raw_locus_id group_motif allele_sizes by_sample r :
  process_group raw_locus_id group_motif allele_sizes by_sample = Ok (Some r) →
  mode_allele r ∈ allele_sizes
  ∧ (∀ x, occurrences x allele_sizes ≤ occurrences (mode_allele r) allele_sizes)%nat
  ∧ (∀ x, occurrences x allele_sizes = occurrences (mode_allele r) allele_sizes →
          mode_allele r ≤ x).
Proof.
  intros (Hne & found & gc & _ & _ & _ & _ & _ & _ & -> & _)%process_group_row.
  by apply mode_of_spec.
Qed.

(** C8. Every row in the output file was written for a group of the input;
    its [allele_size_histogram] is the text of entries [(size, count)], one
    for each allele size of the group with the number of its occurrences,
    and the counts add up to the number of records of that group whose
    allele size is an integer. *)
Theorem allele_size_histogram_counts infile r :
  r ∈ rows_written (main infile) →
  ∃ k vs entries,
    (k, vs) ∈ blocks (records infile)
    ∧ flush (k, vs) = Ok (Some r)
    ∧ allele_size_histogram r = Py.join "," (format_allele_count <$> entries)
    ∧ (∀ a n, (a, n) ∈ entries
              ↔ (0 < n)%nat ∧ n = occurrences a (valid_alleles vs))
    ∧ sum_list_with snd entries = length (valid_records vs).
Proof.
  intros (k & vs & Hin & Hflush)%rows_written_flush.
  pose proof Hflush as (_ & found & gc & _ & _ & _ & _ & Hhist & _)%process_group_row.
  exists k, vs, (allele_size_entries (valid_alleles vs)).
  split_and!; [done..|apply allele_size_entries_spec|].
  rewrite allele_size_entries_sum. unfold valid_alleles. by rewrite length_fmap.
Qed.

(** C10. Every row in the output file was written for a group of the input;
    its [biallelic_histogram] is the text of entries [((low, high), count)],
    one for each genotype of the group with the number of samples that have
    it, and the counts add up to the number of distinct samples with a
    record of that group whose allele size is an integer. *)
Theorem biallelic_histogram_counts infile r :
  r ∈ rows_written (main infile) →
  ∃ k vs entries,
    (k, vs) ∈ blocks (records infile)
    ∧ flush (k, vs) = Ok (Some r)
    ∧ biallelic_histogram r = Py.join "," (format_genotype_count <$> entries)
    ∧ (∀ g n, (g, n) ∈ entries
              ↔ (0 < n)%nat ∧ n = samples_with_genotype g (alleles_by_sample vs))
    ∧ sum_list_with snd entries = size (contributing_samples vs).
Proof.
  intros (k & vs & Hin & Hflush)%rows_written_flush.
  pose proof Hflush as (_ & found & gc & _ & Hgc & _ & _ & _ & Hhist & _)%process_group_row.
  exists k, vs, (biallelic_entries gc).
  split_and!; [done..|by eapply biallelic_entries_spec|].
  by rewrite (biallelic_entries_sum _ _ _ _ Hgc), alleles_by_sample_length.
Qed.

End RowProperties.

Lemma find_Some_first {A : Type} (f : A → bool) (l : list A) (c : A) :
  (∃ before after, l = before ++ c :: after ∧ f c = true
                   ∧ Forall (λ x, f x = false) before) →
  find f l = Some c.
Proof.
  intros (before & after & -> & Hc & Hbefore).
  induction Hbefore as [|x before Hx _ IH]; simpl.
  - by rewrite Hc.
  - by rewrite Hx.
Qed.

Lemma find_None_all {A : Type} (f : A → bool) (l : list A) :
  Forall (λ x, f x = false) l → find f l = None.
Proof. induction 1 as [|x l Hx _ IH]; simpl; [done|by rewrite Hx]. Qed.

Section ProcessGroupProperties.
Context {np : Numpy}.

(** What [process_group] can raise. *)
Lemma process_group_Raise raw_locus_id group_motif allele_sizes by_sample e :
  process_group raw_locus_id group_motif allele_sizes by_sample = Raise e →
  e = CannotResolveLocus group_motif raw_locus_id
  ∨ (∃ found n sample_id,
       resolve_locus_id raw_locus_id group_motif = Ok found
       ∧ e = UnexpectedAlleleCount n sample_id found group_motif)
  ∨ (∃ x, e = FloatToInt x).
Proof.
  destruct allele_sizes as [|a l] eqn:Ha; [done|]. rewrite <- Ha.
  rewrite process_group_nonempty by (by rewrite Ha).
  intros [Hres|(found & Hres & Hpg)]%bind_Raise.
  - left. unfold resolve_locus_id in Hres.
    destruct (Py.contains _ _); [|done]. destruct (find _ _); [done|].
    by injection Hres as <-.
  - right. apply bind_Raise in Hpg as [Hgc|(gc & _ & Hpg)].
    + left. apply count_genotypes_Raise_inv in Hgc as (n & sample_id & ->).
      by exists found, n, sample_id.
    + right. unfold float_to_int in Hpg.
      apply bind_Raise in Hpg as [Hpg|(med & _ & Hpg)].
      * destruct (Py.int_of_float _); [done|]. injection Hpg as <-. eauto.
      * apply bind_Raise in Hpg as [Hpg|(pct & _ & Hpg)]; [|done].
        destruct (Py.int_of_float (np_percentile _ _)); [done|].
        injection Hpg as <-. eauto.
Qed.

(** C7, as the code has it. For a group with at least one valid allele size
    whose locus id holds a comma: when no piece between the commas ends in
    a hyphen and the motif, [process_group] raises the error that names the
    motif and the locus id; when [c] is the first piece that does, a row
    that is written has the [locus_id] [c] and the motif of the group, and
    any exception is one of the later steps. *)
Theorem compound_locus_id_first_match
    raw_locus_id group_motif allele_sizes by_sample :
  allele_sizes ≠ [] →
  Py.contains "," raw_locus_id = true →
  ((∀ c, c ∈ Py.split "," raw_locus_id → ¬ ∃ p, c = p +:+ "-" +:+ group_motif) →
   process_group raw_locus_id group_motif allele_sizes by_sample
   = Raise (CannotResolveLocus group_motif raw_locus_id))
  ∧ (∀ before c after,
       Py.split "," raw_locus_id = before ++ c :: after →
       (∃ p, c = p +:+ "-" +:+ group_motif) →
       (∀ x, x ∈ before → ¬ ∃ p, x = p +:+ "-" +:+ group_motif) →
       match process_group raw_locus_id group_motif allele_sizes by_sample with
       | Ok (Some r) => locus_id r = c ∧ motif r = group_motif
       | Ok None => False
       | Raise e =>
           (∃ n sample_id, e = UnexpectedAlleleCount n sample_id c group_motif)
           ∨ (∃ x, e = FloatToInt x)
       end).
Proof.
  intros Hne Hcomma. split.
  - intros Hnone. rewrite process_group_nonempty by done.
    unfold resolve_locus_id. rewrite Hcomma, find_None_all; [done|].
    apply Forall_forall. intros c Hc. apply not_true_is_false.
    rewrite endswith_spec. by apply Hnone.
  - intros before c after Hsplit Hc Hbefore.
    assert (resolve_locus_id raw_locus_id group_motif = Ok c) as Hres.
    { unfold resolve_locus_id. rewrite Hcomma, (find_Some_first _ _ c); [done|].
      exists before, after. split_and!; [done|by apply endswith_spec|].
      apply Forall_forall. intros x Hx. apply not_true_is_false.
      rewrite endswith_spec. by apply Hbefore. }
    destruct (process_group _ _ _ _) as [[r|]|e] eqn:Hpg.
    + apply process_group_row in Hpg
        as (_ & found & gc & Hres' & _ & <- & <- & _). split; congruence.
    + rewrite process_group_nonempty, Hres in Hpg by done. simpl in Hpg.
      apply bind_Ok in Hpg as (gc & _ & Hpg).
      apply bind_Ok in Hpg as (med & _ & Hpg).
      apply bind_Ok in Hpg as (pct & _ & Hpg). done.
    + pose proof (process_group_Raise _ _ _ _ _ Hpg)
        as [->|[(found & n & sample_id & Hres' & ->)|Hfloat]].
      * rewrite process_group_nonempty, Hres in Hpg by done. simpl in Hpg.
        exfalso. clear -Hpg.
        apply bind_Raise in Hpg as [Hgc|(gc & _ & Hpg)].
        -- by apply count_genotypes_Raise_inv in Hgc as (n & s & [=]).
        -- unfold float_to_int in Hpg.
           apply bind_Raise in Hpg as [Hpg|(med & _ & Hpg)].
           ++ by destruct (Py.int_of_float _).
           ++ apply bind_Raise in Hpg as [Hpg|(pct & _ & Hpg)]; [|done].
              by destruct (Py.int_of_float (np_percentile _ _)).
      * left. exists n, sample_id. congruence.
      * by right.
Qed.

(** C3, as the code has it. For a group with at least one valid allele size
    whose locus id resolves to [found]: [process_group] raises the error
    that names the sample, [found] and the motif at the first sample whose
    alleles are not one or two; and when it writes a row, every sample has
    one or two alleles and the [biallelic_histogram] is the text of entries
    [((low, high), count)], joined by commas, in increasing order of
    [(high, low)], one for each genotype that some sample has, [count]
    being the number of these samples; the genotype of a sample with the
    single allele [a] is [(a, a)], that of a sample with [a] and [b] is
    [(min a b, max a b)]. *)
Theorem biallelic_histogram_of_genotypes
    raw_locus_id group_motif allele_sizes by_sample found :
  allele_sizes ≠ [] →
  resolve_locus_id raw_locus_id group_motif = Ok found →
  (∀ good sample_id allele_list rest,
     by_sample = good ++ (sample_id, allele_list) :: rest →
     Forall (λ x, length x.2 = 1%nat ∨ length x.2 = 2%nat) good →
     length allele_list ≠ 1%nat → length allele_list ≠ 2%nat →
     process_group raw_locus_id group_motif allele_sizes by_sample
     = Raise (UnexpectedAlleleCount (length allele_list) sample_id found group_motif))
  ∧ (∀ r,
       process_group raw_locus_id group_motif allele_sizes by_sample = Ok (Some r) →
       Forall (λ x, length x.2 = 1%nat ∨ length x.2 = 2%nat) by_sample
       ∧ ∃ entries,
           biallelic_histogram r
           = Py.join "," ((λ x, Py.str x.1.1 +:+ "/" +:+ Py.str x.1.2 +:+ ":"
                                +:+ Py.str_nat x.2) <$> entries)
           ∧ StronglySorted genotype_item_lt entries
           ∧ ∀ g n, (g, n) ∈ entries
                    ↔ (0 < n)%nat ∧ n = samples_with_genotype g by_sample).
Proof.
  intros Hne Hres. split.
  - intros good sample_id allele_list rest -> Hgood H1 H2.
    rewrite process_group_nonempty, Hres by done. simpl.
    rewrite count_genotypes_Raise; [done| |].
    + eapply Forall_impl; [done|]. intros x Hx. by apply genotype_Some_length.
    + destruct (genotype allele_list) eqn:Hg; [|done].
      assert (is_Some (genotype allele_list)) as Hs by (by eexists).
      apply genotype_Some_length in Hs. lia.
  - intros r (_ & found' & gc & Hres' & Hgc & _ & _ & _ & Hhist & _)%process_group_row.
    assert (found' = found) as -> by congruence.
    pose proof (count_genotypes_Ok _ _ _ _ _ Hgc) as (Hall & _).
    split.
    + eapply Forall_impl; [done|]. intros x Hx. by apply genotype_Some_length.
    + exists (biallelic_entries gc). split; [done|].
      by eapply biallelic_entries_spec.
Qed.

End ProcessGroupProperties.

(** ** Changes of key and the order of the input *)

Section SortOrder.
Context {np : Numpy}.

(** A turn of the loop on a row whose key differs from the previous key. *)
Lemma loop_body_change n line s previous k' sample_id allele_size :
  fields_of line = Some (k', (sample_id, allele_size)) →
  previous_key s = Some previous →
  k' ≠ previous →
  loop_body n line s
  = if decide (previous ∈ previously_seen_keys s) then
      Aborted (NotSorted n k'.1) (read_fields sample_id k' (next_line n s))
    else
      match process_group previous.1 previous.2 (alleles_for_current_key s)
              (alleles_for_current_key_by_sample_id s) with
      | Raise e =>
          Aborted e (close_key previous k' (read_fields sample_id k' (next_line n s)))
      | Ok r =>
          Done (record_allele_size k' sample_id allele_size
                  (reset_group (written r
                     (close_key previous k'
                        (read_fields sample_id k' (next_line n s))))))
      end.
Proof.
  intros Hf Hprev Hk. rewrite (loop_body_fields _ _ _ _ _ _ Hf), Hprev. simpl.
  unfold change_key. rewrite decide_True by done. simpl.
  case_decide; [done|]. simpl. by destruct (process_group _ _ _ _).
Qed.

(** C6, as the code has it. On a row whose key differs from the previous
    key, the previous key is first looked up in the set of seen keys: when
    it is there the run aborts with the sort-order error for this line and
    nothing is written; otherwise the key is added to the set, and only then
    is the previous group flushed: its row, if any, is appended to the
    output, and when [process_group] raises the key is in the set already. *)
Theorem key_change_checks_then_flushes n line s previous k' v :
  fields_of line = Some (k', v) →
  previous_key s = Some previous →
  k' ≠ previous →
  (previous ∈ previously_seen_keys s →
   ∃ s', loop_body n line s = Aborted (NotSorted n k'.1) s'
         ∧ outfile s' = outfile s)
  ∧ (previous ∉ previously_seen_keys s →
     ∀ e, process_group previous.1 previous.2 (alleles_for_current_key s)
            (alleles_for_current_key_by_sample_id s) = Raise e →
     ∃ s', loop_body n line s = Aborted e s'
           ∧ outfile s' = outfile s
           ∧ previously_seen_keys s' = {[previous]} ∪ previously_seen_keys s)
  ∧ (previous ∉ previously_seen_keys s →
     ∀ r, process_group previous.1 previous.2 (alleles_for_current_key s)
            (alleles_for_current_key_by_sample_id s) = Ok r →
     ∃ s', loop_body n line s = Done s'
           ∧ outfile s' = outfile s ++ option_list r
           ∧ previously_seen_keys s' = {[previous]} ∪ previously_seen_keys s
           ∧ previous_key s' = Some k').
Proof.
  intros Hf Hprev Hk. destruct v as [sample_id allele_size].
  rewrite (loop_body_change _ _ _ _ _ _ _ Hf Hprev Hk). split_and!.
  - intros Hin. rewrite decide_True by done. by eexists.
  - intros Hin e He. rewrite decide_False, He by done. by eexists.
  - intros Hin r Hr. rewrite decide_False, Hr by done. eexists. split; [done|].
    unfold record_allele_size. by destruct (Py.int allele_size).
Qed.

(** C9. A row with four fields whose allele size is not an integer, and
    whose key differs from the previous key, closes the previous group as
    any row does: the previous key is looked up in the set of seen keys (the
    run aborts when it is there) and added to it, the previous group is
    flushed, and the key of the row becomes the previous key, with no allele
    recorded for it. The sample of the row is in the set of samples. *)
Theorem invalid_allele_row_changes_key n line s previous k' sample_id allele_size :
  fields_of line = Some (k', (sample_id, allele_size)) →
  Py.int allele_size = None →
  previous_key s = Some previous →
  k' ≠ previous →
  sample_id ∈ sample_ids (final_state (loop_body n line s))
  ∧ (previous ∈ previously_seen_keys s →
     ∃ s', loop_body n line s = Aborted (NotSorted n k'.1) s')
  ∧ (previous ∉ previously_seen_keys s →
     ∀ e, process_group previous.1 previous.2 (alleles_for_current_key s)
            (alleles_for_current_key_by_sample_id s) = Raise e →
     ∃ s', loop_body n line s = Aborted e s'
           ∧ previously_seen_keys s' = {[previous]} ∪ previously_seen_keys s)
  ∧ (previous ∉ previously_seen_keys s →
     ∀ r, process_group previous.1 previous.2 (alleles_for_current_key s)
            (alleles_for_current_key_by_sample_id s) = Ok r →
     ∃ s', loop_body n line s = Done s'
           ∧ outfile s' = outfile s ++ option_list r
           ∧ previously_seen_keys s' = {[previous]} ∪ previously_seen_keys s
           ∧ previous_key s' = Some k'
           ∧ alleles_for_current_key s' = []
           ∧ alleles_for_current_key_by_sample_id s' = []
           ∧ stdout s'
             = stdout s ++ [SkippingInvalidAllele n k'.1 k'.2 sample_id allele_size]).
Proof.
  intros Hf Hint Hprev Hk.
  rewrite (loop_body_change _ _ _ _ _ _ _ Hf Hprev Hk). split_and!.
  - case_decide; [simpl; set_solver|].
    destruct (process_group _ _ _ _); unfold record_allele_size;
      rewrite ?Hint; simpl; set_solver.
  - intros Hin. rewrite decide_True by done. by eexists.
  - intros Hin e He. rewrite decide_False, He by done. by eexists.
  - intros Hin r Hr. rewrite decide_False, Hr by done. eexists. split; [done|].
    unfold record_allele_size. by rewrite Hint.
Qed.

(** A list of groups with one key each does not go on after a key of its
    own comes back. *)
Lemma NoDup_keys_before {V : Type} (closed closed' m : list (key * V)) k vs :
  NoDup closed'.*1 → k ∈ closed.*1 → closed' ≠ closed ++ (k, vs) :: m.
Proof.
  intros Hnd Hin ->. rewrite fmap_app, fmap_cons in Hnd.
  apply NoDup_app in Hnd as (_ & Hnd & _). apply (Hnd k); [done|left].
Qed.

(** How the run ends when the group [(k, vs)] is the first one with the key
    of an earlier group. *)
Lemma repeated_key_run infile closed k vs rest :
  blocks (records infile) = closed ++ (k, vs) :: rest →
  NoDup closed.*1 →
  k ∈ closed.*1 →
  rest ≠ [] ∨ valid_alleles vs ≠ [] →
  ∃ e s, main infile = Aborted e s
    ∧ ((∃ before b after,
          closed = before ++ b :: after
          ∧ Forall (λ b, ∃ r, flush b = Ok r) before
          ∧ flush b = Raise e
          ∧ outfile s = before ≫= row_of)
       ∨ (Forall (λ b, ∃ r, flush b = Ok r) closed
          ∧ rest ≠ []
          ∧ outfile s = closed ≫= row_of
          ∧ ∃ pre line post k' v,
              infile = pre ++ line :: post
              ∧ blocks (records pre) = closed ++ [(k, vs)]
              ∧ fields_of line = Some (k', v)
              ∧ k' ≠ k
              ∧ e = NotSorted (S (length pre)) k'.1)
       ∨ (Forall (λ b, ∃ r, flush b = Ok r) closed
          ∧ rest = []
          ∧ (∃ r, flush (k, vs) = Ok r)
          ∧ outfile s = (closed ++ [(k, vs)]) ≫= row_of
          ∧ e = NotSorted (length infile) k.1)
       ∨ (Forall (λ b, ∃ r, flush b = Ok r) closed
          ∧ rest = []
          ∧ flush (k, vs) = Raise e
          ∧ outfile s = closed ≫= row_of)).
Proof.
  intros Hb Hnd Hin Hrest.
  destruct (main_spec infile)
    as [s Hrecs _
       |s closed' k1 vs1 r Hb' Hnd' _ _ Hlast _
       |s pre line post closed' k1 vs1 k' v -> Hb' Hf Hk Hnd' Hfl Hin' Hout
       |s pre line post closed' k1 vs1 k' v e -> Hb' Hf Hk Hnd' Hfl Hnin Hflush Hout
       |s closed' k1 vs1 e Hb' Hnd' Hfl Hflush Hout
       |s closed' k1 vs1 r Hb' Hnd' Hfl Hvalid Hflush Hin' Hout].
  - rewrite Hrecs in Hb. by destruct closed.
  - exfalso. rewrite Hb in Hb'. pose proof (f_equal length Hb') as Hlen.
    apply app_cons_eq_inv in Hb' as [(<- & [= <- <-] & ->)|[(m & ->)|(m & ->)]].
    + destruct Hrest as [?|Hv]; [done|]. by apply Hlast.
    + by apply (NoDup_keys_before closed _ m k vs) in Hnd'.
    + rewrite !length_app in Hlen. simpl in Hlen. lia.
  - destruct (blocks_after_change _ _ post _ _ _ _ _ Hb' Hf Hk) as (b & rest' & Hb2).
    rewrite Hb in Hb2.
    apply app_cons_eq_inv in Hb2 as [(<- & [= <- <-] & ->)|[(m & ->)|(m & ->)]].
    + exists (NotSorted (S (length pre)) k'.1), s. split; [done|].
      right. left. split_and!; [done..|]. by exists pre, line, post, k', v.
    + by apply (NoDup_keys_before closed _ m k vs) in Hnd'.
    + by apply (NoDup_keys_before closed' _ m k1 vs1) in Hnd.
  - destruct (blocks_after_change _ _ post _ _ _ _ _ Hb' Hf Hk) as (b & rest' & Hb2).
    rewrite Hb in Hb2.
    apply app_cons_eq_inv in Hb2 as [(<- & [= <- <-] & ->)|[(m & ->)|(m & ->)]].
    + done.
    + by apply (NoDup_keys_before closed _ m k vs) in Hnd'.
    + exists e, s. split; [done|]. left. by exists closed', (k1, vs1), m.
  - rewrite Hb in Hb'.
    apply app_cons_eq_inv in Hb' as [(<- & [= <- <-] & ->)|[(m & ->)|(m & ->)]].
    + exists e, s. split; [done|]. do 3 right. done.
    + by apply (NoDup_keys_before closed _ m k vs) in Hnd'.
    + exists e, s. split; [done|]. left. by exists closed', (k1, vs1), m.
  - rewrite Hb in Hb'.
    apply app_cons_eq_inv in Hb' as [(<- & [= <- <-] & ->)|[(m & ->)|(m & ->)]].
    + exists (NotSorted (length infile) k.1), s. split; [done|].
      do 2 right. left. split_and!; [done..|by exists r|done|done].
    + by apply (NoDup_keys_before closed _ m k vs) in Hnd'.
    + by apply (NoDup_keys_before closed' _ m k1 vs1) in Hnd.
Qed.

(** C5, as the code has it. Let [(k, vs)] be the first group of the input
    with the key of an earlier group, followed by another group or with a
    valid allele size. The run aborts. When [process_group] raises on a
    group before it, the run aborts with that exception at that group.
    Otherwise a group that is followed by another one is not flushed: the
    sort-order error is raised at the first line of the next group, and
    cites the number and the locus id of that line; and a last group is
    flushed first: the sort-order error is raised after its row is written,
    and cites the last line of the input and the locus id of the group,
    unless [process_group] raises on it. *)
Theorem repeated_key_aborts infile closed k vs rest :
  blocks (records infile) = closed ++ (k, vs) :: rest →
  NoDup closed.*1 →
  k ∈ closed.*1 →
  rest ≠ [] ∨ valid_alleles vs ≠ [] →
  (∃ e s, main infile = Aborted e s)
  ∧ (∀ before b after e,
       closed = before ++ b :: after →
       Forall (λ b, ∃ r, flush b = Ok r) before →
       flush b = Raise e →
       ∃ s, main infile = Aborted e s ∧ outfile s = before ≫= row_of)
  ∧ (Forall (λ b, ∃ r, flush b = Ok r) closed →
     (rest ≠ [] →
      ∃ pre line post k' v s,
        infile = pre ++ line :: post
        ∧ blocks (records pre) = closed ++ [(k, vs)]
        ∧ fields_of line = Some (k', v)
        ∧ k' ≠ k
        ∧ main infile = Aborted (NotSorted (S (length pre)) k'.1) s
        ∧ outfile s = closed ≫= row_of)
     ∧ (rest = [] →
        ∀ r, flush (k, vs) = Ok r →
        ∃ s, main infile = Aborted (NotSorted (length infile) k.1) s
             ∧ outfile s = (closed ++ [(k, vs)]) ≫= row_of)
     ∧ (rest = [] →
        ∀ e, flush (k, vs) = Raise e →
        ∃ s, main infile = Aborted e s ∧ outfile s = closed ≫= row_of)).
Proof.
  intros Hb Hnd Hin Hrest.
  destruct (repeated_key_run infile closed k vs rest Hb Hnd Hin Hrest)
    as (e & s & Hmain & Hcases).
  assert (∀ l b' l' e', Forall (λ b, ∃ r, flush b = Ok r) (l ++ b' :: l') →
            flush b' = Raise e' → False) as Hok.
  { intros l b' l' e' [_ Hfl]%Forall_app He'.
    apply Forall_cons in Hfl as [[r Hr] _]. congruence. }
  split; [by exists e, s|]. split.
  - intros before b after e' -> Hfl Hflush.
    destruct Hcases
      as [(before' & b' & after' & Heq & Hfl' & Hflush' & Hout)
         |[(Hfl' & _)|[(Hfl' & _)|(Hfl' & _)]]];
      [|by destruct (Hok _ _ _ _ Hfl' Hflush)..].
    apply app_cons_eq_inv in Heq as [(<- & <- & _)|[(m & ->)|(m & ->)]].
    + exists s. split; [congruence|done].
    + by destruct (Hok _ _ _ _ Hfl' Hflush).
    + by destruct (Hok _ _ _ _ Hfl Hflush').
  - intros Hfl.
    destruct Hcases
      as [(before & b & after & -> & _ & Hflush & _)
         |[(_ & Hne & Hout & pre & line & post & k' & v & Hline)
          |[(_ & -> & [r Hr] & Hout & ->)|(_ & -> & Hflush & Hout)]]].
    + by destruct (Hok _ _ _ _ Hfl Hflush).
    + split_and!; [|done..]. intros _.
      destruct Hline as (-> & Hpre & Hf & Hk & ->).
      by exists pre, line, post, k', v, s.
    + split_and!; [done| |intros _ e'; congruence].
      intros _ r' _. by exists s.
    + split_and!; [done|intros _ r'; congruence|].
      intros _ e' He'. exists s. split; [congruence|done].
Qed.

End SortOrder.

(** ** Concrete runs *)

Section Examples.

(** C1. On the three rows [L1 A S1 10], [L1 A S1 12], [L1 A S2 10] the run
    completes and writes one row: [locus_id] L1, [motif] A, histogram
    [10x:2,12x:1], genotype histogram [10/10:1,10/12:1] (S1 has the
    genotype (10, 12), S2 with its single allele (10, 10)), mode 10, mean
    10.667, median 10 and 99th percentile 11, the integer part of the
    interpolated 11.96. *)
Theorem example_run :
  exception_of (main example_infile) = None
  ∧ rows_written (main example_infile) = [example_row]
  ∧ outfile_text (main example_infile)
    = header_line
      +:+ tsv ["L1"; "A"; "10x:2,12x:1"; "10/10:1,10/12:1"; "10"; "10.667"; "0.943";
               "10"; "11"]
  ∧ blocks (records example_infile)
    = [(("L1", "A"), [("S1", "10"); ("S1", "12"); ("S2", "10")])]
  ∧ alleles_by_sample [("S1", "10"); ("S1", "12"); ("S2", "10")]
    = [("S1", [10; 12]); ("S2", [10])]
  ∧ genotype [10; 12] = Some (10, 12)
  ∧ genotype [10] = Some (10, 10)
  ∧ Py.format_3f (np_median [10; 10; 12]) = "10.000"
  ∧ Py.format_3f (np_percentile [10; 10; 12] 99) = "11.960".
Proof. split_and!; vm_compute; reflexivity. Qed.

(** The statistics of two small groups. The divisor of the standard
    deviation is the number of values: 1.118 for 1, 2, 3, 4, where the
    divisor 3 would give 1.291. [int] cuts off the fraction of the median
    and of the percentile, toward zero for negative values as well. *)
Example statistics_examples :
  map (λ l, (Py.format_3f (np_mean l), Py.format_3f (np_std l),
             Py.format_3f (np_median l), Py.int_of_float (np_median l),
             Py.format_3f (np_percentile l 99), Py.int_of_float (np_percentile l 99)))
    [[1; 2; 3; 4]; [-2; -1]]
  = [("2.500", "1.118", "2.500", Some 2, "3.970", Some 3);
     ("-1.500", "0.500", "-1.500", Some (-1), "-1.010", Some (-1))].
Proof. vm_compute. reflexivity. Qed.

Lemma mode_allele_witness :
  mode_allele tie_row ∈ tie_alleles
  ∧ (∀ x, occurrences x tie_alleles ≤ occurrences (mode_allele tie_row) tie_alleles)%nat
  ∧ (∀ x, occurrences x tie_alleles = occurrences (mode_allele tie_row) tie_alleles →
          mode_allele tie_row ≤ x).
Proof.
  apply (mode_allele_smallest_most_frequent "L1" "A" tie_alleles tie_by_sample tie_row).
  vm_compute. reflexivity.
Defined.

Lemma example_row_written : example_row ∈ rows_written (main example_infile).
Proof.
  replace (rows_written (main example_infile)) with [example_row]
    by (vm_compute; reflexivity).
  apply list_elem_of_here.
Defined.

Lemma allele_size_histogram_witness :
  ∃ k vs entries,
    (k, vs) ∈ blocks (records example_infile)
    ∧ flush (k, vs) = Ok (Some example_row)
    ∧ allele_size_histogram example_row = Py.join "," (format_allele_count <$> entries)
    ∧ (∀ a n, (a, n) ∈ entries
              ↔ (0 < n)%nat ∧ n = occurrences a (valid_alleles vs))
    ∧ sum_list_with snd entries = length (valid_records vs).
Proof.
  apply (allele_size_histogram_counts example_infile example_row).
  apply example_row_written.
Defined.

Lemma biallelic_histogram_witness :
  ∃ k vs entries,
    (k, vs) ∈ blocks (records example_infile)
    ∧ flush (k, vs) = Ok (Some example_row)
    ∧ biallelic_histogram example_row = Py.join "," (format_genotype_count <$> entries)
    ∧ (∀ g n, (g, n) ∈ entries
              ↔ (0 < n)%nat ∧ n = samples_with_genotype g (alleles_by_sample vs))
    ∧ sum_list_with snd entries = size (contributing_samples vs).
Proof.
  apply (biallelic_histogram_counts example_infile example_row).
  apply example_row_written.
Defined.

Lemma compound_locus_id_witness :
  ((∀ c, c ∈ Py.split "," "10-1-2-A,10-3-4-T" → ¬ ∃ p, c = p +:+ "-" +:+ "T") →
   process_group "10-1-2-A,10-3-4-T" "T" [5] [("S1", [5])]
   = Raise (CannotResolveLocus "T" "10-1-2-A,10-3-4-T"))
  ∧ (∀ before c after,
       Py.split "," "10-1-2-A,10-3-4-T" = before ++ c :: after →
       (∃ p, c = p +:+ "-" +:+ "T") →
       (∀ x, x ∈ before → ¬ ∃ p, x = p +:+ "-" +:+ "T") →
       match process_group "10-1-2-A,10-3-4-T" "T" [5] [("S1", [5])] with
       | Ok (Some r) => locus_id r = c ∧ motif r = "T"
       | Ok None => False
       | Raise e =>
           (∃ n sample_id, e = UnexpectedAlleleCount n sample_id c "T")
           ∨ (∃ x, e = FloatToInt x)
       end).
Proof.
  apply (compound_locus_id_first_match "10-1-2-A,10-3-4-T" "T" [5] [("S1", [5])]).
  - discriminate.
  - reflexivity.
Defined.

Lemma biallelic_histogram_of_genotypes_witness :
  (∀ good sample_id allele_list rest,
     [("S1", [10; 12]); ("S2", [10])] = good ++ (sample_id, allele_list) :: rest →
     Forall (λ x, length x.2 = 1%nat ∨ length x.2 = 2%nat) good →
     length allele_list ≠ 1%nat → length allele_list ≠ 2%nat →
     process_group "L1" "A" [10; 12; 10] [("S1", [10; 12]); ("S2", [10])]
     = Raise (UnexpectedAlleleCount (length allele_list) sample_id "L1" "A"))
  ∧ (∀ r,
       process_group "L1" "A" [10; 12; 10] [("S1", [10; 12]); ("S2", [10])]
       = Ok (Some r) →
       Forall (λ x, length x.2 = 1%nat ∨ length x.2 = 2%nat)
         [("S1", [10; 12]); ("S2", [10])]
       ∧ ∃ entries,
           biallelic_histogram r
           = Py.join "," ((λ x, Py.str x.1.1 +:+ "/" +:+ Py.str x.1.2 +:+ ":"
                                +:+ Py.str_nat x.2) <$> entries)
           ∧ StronglySorted genotype_item_lt entries
           ∧ ∀ g n, (g, n) ∈ entries
                    ↔ (0 < n)%nat
                      ∧ n = samples_with_genotype g [("S1", [10; 12]); ("S2", [10])]).
Proof.
  apply (biallelic_histogram_of_genotypes "L1" "A" [10; 12; 10]
           [("S1", [10; 12]); ("S2", [10])] "L1").
  - discriminate.
  - reflexivity.
Defined.

Lemma repeated_key_aborts_witness :
  (∃ pre line post k' v s,
     infile_repeated = pre ++ line :: post
     ∧ blocks (records pre)
       = [(("L1", "A"), [("S1", "10")]); (("L2", "A"), [("S1", "10")])]
         ++ [(("L1", "A"), [("S1", "12")])]
     ∧ fields_of line = Some (k', v)
     ∧ k' ≠ ("L1", "A")
     ∧ main infile_repeated = Aborted (NotSorted (S (length pre)) k'.1) s
     ∧ outfile s
       = [(("L1", "A"), [("S1", "10")]); (("L2", "A"), [("S1", "10")])] ≫= row_of)
  ∧ (∃ s, main infile_repeated_last = Aborted (NotSorted 3 "L1") s
          ∧ outfile s
            = ([(("L1", "A"), [("S1", "10")]); (("L2", "A"), [("S1", "10")])]
               ++ [(("L1", "A"), [("S1", "12")])]) ≫= row_of).
Proof.
  assert (NoDup [(("L1", "A"), [("S1", "10")]); (("L2", "A"), [("S1", "10")])].*1)
    as Hnd.
  { apply NoDup_cons_2; [|apply NoDup_singleton].
    by intros [=]%list_elem_of_singleton. }
  assert (Forall (λ b, ∃ r, flush b = Ok r)
            [(("L1", "A"), [("S1", "10")]); (("L2", "A"), [("S1", "10")])]) as Hfl.
  { repeat constructor; eexists; vm_compute; reflexivity. }
  split.
  - destruct (repeated_key_aborts infile_repeated
                [(("L1", "A"), [("S1", "10")]); (("L2", "A"), [("S1", "10")])]
                ("L1", "A") [("S1", "12")] [(("L3", "A"), [("S1", "10")])])
      as (_ & _ & Hloop).
    + vm_compute. reflexivity.
    + exact Hnd.
    + apply list_elem_of_here.
    + left. discriminate.
    + by apply Hloop.
  - destruct (repeated_key_aborts infile_repeated_last
                [(("L1", "A"), [("S1", "10")]); (("L2", "A"), [("S1", "10")])]
                ("L1", "A") [("S1", "12")] [])
      as (_ & _ & Hlast).
    + vm_compute. reflexivity.
    + exact Hnd.
    + apply list_elem_of_here.
    + right. discriminate.
    + apply Hlast in Hfl as (_ & Hfl & _).
      apply (Hfl eq_refl (Some (row_of_single "L1" "12"))).
      vm_compute. reflexivity.
Defined.

Lemma key_change_witness :
  (("L1", "A") ∈ previously_seen_keys state_before_line_4 →
   ∃ s', loop_body 4 (tsv ["L3"; "A"; "S1"; "10"]) state_before_line_4
         = Aborted (NotSorted 4 "L3") s'
         ∧ outfile s' = outfile state_before_line_4)
  ∧ (("L1", "A") ∉ previously_seen_keys state_before_line_4 →
     ∀ e, process_group "L1" "A" (alleles_for_current_key state_before_line_4)
            (alleles_for_current_key_by_sample_id state_before_line_4) = Raise e →
     ∃ s', loop_body 4 (tsv ["L3"; "A"; "S1"; "10"]) state_before_line_4 = Aborted e s'
           ∧ outfile s' = outfile state_before_line_4
           ∧ previously_seen_keys s'
             = {[("L1", "A")]} ∪ previously_seen_keys state_before_line_4)
  ∧ (("L1", "A") ∉ previously_seen_keys state_before_line_4 →
     ∀ r, process_group "L1" "A" (alleles_for_current_key state_before_line_4)
            (alleles_for_current_key_by_sample_id state_before_line_4) = Ok r →
     ∃ s', loop_body 4 (tsv ["L3"; "A"; "S1"; "10"]) state_before_line_4 = Done s'
           ∧ outfile s' = outfile state_before_line_4 ++ option_list r
           ∧ previously_seen_keys s'
             = {[("L1", "A")]} ∪ previously_seen_keys state_before_line_4
           ∧ previous_key s' = Some ("L3", "A")).
Proof.
  apply (key_change_checks_then_flushes 4 (tsv ["L3"; "A"; "S1"; "10"])
           state_before_line_4 ("L1", "A") ("L3", "A") ("S1", "10")).
  - reflexivity.
  - vm_compute. reflexivity.
  - discriminate.
Defined.

Lemma invalid_allele_row_witness :
  "S1" ∈ sample_ids (final_state (loop_body 2 (tsv ["L2"; "A"; "S1"; "abc"])
                                    state_before_line_2))
  ∧ (("L1", "A") ∈ previously_seen_keys state_before_line_2 →
     ∃ s', loop_body 2 (tsv ["L2"; "A"; "S1"; "abc"]) state_before_line_2
           = Aborted (NotSorted 2 "L2") s')
  ∧ (("L1", "A") ∉ previously_seen_keys state_before_line_2 →
     ∀ e, process_group "L1" "A" (alleles_for_current_key state_before_line_2)
            (alleles_for_current_key_by_sample_id state_before_line_2) = Raise e →
     ∃ s', loop_body 2 (tsv ["L2"; "A"; "S1"; "abc"]) state_before_line_2 = Aborted e s'
           ∧ previously_seen_keys s'
             = {[("L1", "A")]} ∪ previously_seen_keys state_before_line_2)
  ∧ (("L1", "A") ∉ previously_seen_keys state_before_line_2 →
     ∀ r, process_group "L1" "A" (alleles_for_current_key state_before_line_2)
            (alleles_for_current_key_by_sample_id state_before_line_2) = Ok r →
     ∃ s', loop_body 2 (tsv ["L2"; "A"; "S1"; "abc"]) state_before_line_2 = Done s'
           ∧ outfile s' = outfile state_before_line_2 ++ option_list r
           ∧ previously_seen_keys s'
             = {[("L1", "A")]} ∪ previously_seen_keys state_before_line_2
           ∧ previous_key s' = Some ("L2", "A")
           ∧ alleles_for_current_key s' = []
           ∧ alleles_for_current_key_by_sample_id s' = []
           ∧ stdout s'
             = stdout state_before_line_2
               ++ [SkippingInvalidAllele 2 "L2" "A" "S1" "abc"]).
Proof.
  apply (invalid_allele_row_changes_key 2 (tsv ["L2"; "A"; "S1"; "abc"])
           state_before_line_2 ("L1", "A") ("L2", "A") "S1" "abc").
  - reflexivity.
  - reflexivity.
  - vm_compute. reflexivity.
  - discriminate.
Defined.

(** A group without a valid allele size is flushed and its key recorded,
    but its compound locus id is never resolved: no candidate ends in [-G],
    and the run completes. *)
Lemma empty_group_locus_id_not_resolved :
  blocks (records infile_unresolved_invalid)
  = [((compound_locus_id, "G"), [("S1", "abc")]); (("L2", "A"), [("S1", "10")])]
  ∧ Py.contains "," compound_locus_id = true
  ∧ (λ c, Py.endswith c "-G") <$> Py.split "," compound_locus_id = [false; false]
  ∧ flush ((compound_locus_id, "G"), [("S1", "abc")]) = Ok None
  ∧ exception_of (main infile_unresolved_invalid) = None
  ∧ rows_written (main infile_unresolved_invalid) = [row_of_single "L2" "10"]
  ∧ bool_decide ((compound_locus_id, "G")
                 ∈ previously_seen_keys (final_state (main infile_unresolved_invalid)))
    = true.
Proof. split_and!; vm_compute; reflexivity. Qed.

(** For a group whose compound locus id does not resolve, a sample with
    three alleles is not reported: the error of the locus id is raised
    first, and its message does not name the sample. *)
Lemma unresolved_locus_id_raised_first :
  process_group compound_locus_id "G" [5; 6; 7] [("S1", [5; 6; 7])]
  = Raise (CannotResolveLocus "G" compound_locus_id)
  ∧ message "runs.txt.gz" (CannotResolveLocus "G" compound_locus_id)
    = "Couldn't resolve locus id for motif G in 10-1-2-A,10-3-4-T".
Proof. split; vm_compute; reflexivity. Qed.

(** A key that comes back in the last group is not reported when
    [process_group] raises on that group: the group is flushed before its
    key is looked up, and the run aborts with the error of the sample with
    three alleles, after the rows of the first two groups. *)
Lemma repeated_last_key_not_reported :
  (blocks (records infile_repeated_three_alleles)).*1
  = [("L1", "A"); ("L2", "A"); ("L1", "A")]
  ∧ exception_of (main infile_repeated_three_alleles)
    = Some (UnexpectedAlleleCount 3 "S1" "L1" "A")
  ∧ message "runs.txt.gz" (UnexpectedAlleleCount 3 "S1" "L1" "A")
    = "Found 3 alleles for S1 in L1 A"
  ∧ rows_written (main infile_repeated_three_alleles)
    = [row_of_single "L1" "10"; row_of_single "L2" "10"]
  ∧ ¬ ∃ n current_locus_id s,
        main infile_repeated_three_alleles = Aborted (NotSorted n current_locus_id) s.
Proof.
  split_and!; [vm_compute; reflexivity..|].
  intros (n & current_locus_id & s & Hmain).
  assert (exception_of (main infile_repeated_three_alleles)
          = Some (UnexpectedAlleleCount 3 "S1" "L1" "A")) as He
    by (vm_compute; reflexivity).
  by rewrite Hmain in He.
Qed.

(** A key that comes back in a last group without a valid allele size is
    not looked up either: line 147 stands under the guard of line 144, and
    the run completes. *)
Example repeated_last_key_without_allele :
  (blocks (records infile_repeated_invalid_last)).*1
  = [("L1", "A"); ("L2", "A"); ("L1", "A")]
  ∧ exception_of (main infile_repeated_invalid_last) = None.
Proof. split; vm_compute; reflexivity. Qed.

(** On [infile_repeated] the run aborts at line 4 with the rows of the first
    two groups in the output file: the row of the third group, the one that
    repeats a key, is not written. *)
Lemma repeated_group_row_not_written :
  exception_of (main infile_repeated) = Some (NotSorted 4 "L3")
  ∧ rows_written (main infile_repeated)
    = [row_of_single "L1" "10"; row_of_single "L2" "10"]
  ∧ flush (("L1", "A"), [("S1", "12")]) = Ok (Some (row_of_single "L1" "12"))
  ∧ row_of_single "L1" "12" ∉ rows_written (main infile_repeated).
Proof.
  split_and!; [vm_compute; reflexivity..|].
  replace (rows_written (main infile_repeated))
    with [row_of_single "L1" "10"; row_of_single "L2" "10"]
    by (vm_compute; reflexivity).
  intros [Heq|[Heq|[]%elem_of_nil]%elem_of_cons]%elem_of_cons; discriminate.
Qed.

End Examples.

(** * Further properties *)

(** ** Samples, warnings and rows of a run *)

Section Counters.
Context {np : Numpy}.

Lemma change_key_Done previous current s s' :
  change_key previous current s = Done s' →
  sample_ids s' = sample_ids s
  ∧ stdout s' = stdout s
  ∧ line_number s' = line_number s
  ∧ current_key s' = current_key s.
Proof.
  unfold change_key. repeat case_decide; try (by intros [= <-]).
  destruct (process_group _ _ _ _); [|done]. by intros [= <-].
Qed.

Lemma record_allele_size_stdout k sample_id allele_size s :
  stdout (record_allele_size k sample_id allele_size s)
  = stdout s ++ match Py.int allele_size with
                | Some _ => []
                | None => [SkippingInvalidAllele (line_number s) k.1 k.2 sample_id
                             allele_size]
                end.
Proof.
  unfold record_allele_size. destruct (Py.int allele_size); simpl; [|done].
  by rewrite app_nil_r.
Qed.

Lemma record_allele_size_sample_ids k sample_id allele_size s :
  sample_ids (record_allele_size k sample_id allele_size s) = sample_ids s.
Proof. unfold record_allele_size. by destruct (Py.int allele_size). Qed.

(** What a turn of the loop that goes on adds to the set of samples and to
    the standard output. *)
Lemma loop_body_Done n line s s' :
  loop_body n line s = Done s' →
  sample_ids s' = list_to_set (records [line]).*2.*1 ∪ sample_ids s
  ∧ stdout s' = stdout s ++ warnings_of_line n line.
Proof.
  unfold warnings_of_line, records. simpl.
  destruct (fields_of line) as [[k [sample_id allele_size]]|] eqn:Hf.
  - rewrite (loop_body_fields _ _ _ _ _ _ Hf).
    destruct (change_key _ _ _) as [s1|] eqn:Hck; [|done].
    apply change_key_Done in Hck as (Hs & Hout & Hln & _). intros [= <-].
    rewrite record_allele_size_sample_ids, record_allele_size_stdout, Hs, Hout, Hln.
    simpl. split; [set_solver|done].
  - rewrite (loop_body_malformed _ _ _ Hf). intros [= <-]. simpl.
    split; [set_solver|done].
Qed.

Lemma loop_Done n infile s s' :
  loop n infile s = Done s' →
  sample_ids s' = samples_of infile ∪ sample_ids s
  ∧ stdout s' = stdout s ++ warnings n infile.
Proof.
  revert n s. induction infile as [|line infile IH]; intros n s; simpl.
  - intros [= <-]. rewrite app_nil_r. split; [set_solver|done].
  - destruct (loop_body n line s) as [s1|] eqn:Hbody; [|done].
    apply loop_body_Done in Hbody as [Hs Hout].
    intros [-> ->]%IH. rewrite Hs, Hout, <- app_assoc. split; [|done].
    unfold samples_of. change (line :: infile) with ([line] ++ infile).
    rewrite records_app, !fmap_app, list_to_set_app_L. set_solver.
Qed.

Lemma finish_Done s s' :
  finish s = Done s' →
  sample_ids s' = sample_ids s
  ∧ stdout s' = stdout s ++ [Wrote (output_lines s') (size (sample_ids s'))].
Proof.
  unfold finish. destruct (alleles_for_current_key s); [by intros [= <-]|].
  destruct (current_key s); [|done].
  destruct (process_group _ _ _ _); [|done]. simpl.
  case_decide; [done|]. by intros [= <-].
Qed.

End Counters.

Section Completed.
Context {np : Numpy}.

(** How a run that completes relates to the groups of the input. *)
Lemma main_Done_inv infile s :
  main infile = Done s →
  (records infile = [] ∧ outfile s = [])
  ∨ ∃ closed k vs r,
      blocks (records infile) = closed ++ [(k, vs)]
      ∧ NoDup closed.*1
      ∧ Forall (λ b, ∃ r, flush b = Ok r) closed
      ∧ flush (k, vs) = Ok r
      ∧ (valid_alleles vs ≠ [] → k ∉ closed.*1)
      ∧ outfile s = (closed ++ [(k, vs)]) ≫= row_of.
Proof.
  intros Hmain. pose proof (main_spec infile) as Hspec. rewrite Hmain in Hspec.
  inversion Hspec as [s0 Hrecs Hout|s0 closed k vs r Hb Hnd Hfl Hflush Hlast Hout| | | |];
    subst; [by left|right].
  by exists closed, k, vs, r.
Qed.

Lemma row_of_length b r :
  flush b = Ok r →
  length (row_of b) = if decide (valid_alleles b.2 = []) then 0%nat else 1%nat.
Proof.
  intros Hflush. unfold row_of. rewrite Hflush. unfold flush in Hflush.
  case_decide as Hv.
  - rewrite Hv in Hflush. by injection Hflush as <-.
  - destruct r as [r|]; [done|].
    rewrite process_group_nonempty in Hflush by done.
    apply bind_Ok in Hflush as (found & _ & Hflush).
    apply bind_Ok in Hflush as (gc & _ & Hflush).
    apply bind_Ok in Hflush as (med & _ & Hflush).
    apply bind_Ok in Hflush as (pct & _ & Hflush). done.
Qed.

Lemma rows_length bs :
  Forall (λ b, ∃ r, flush b = Ok r) bs →
  length (bs ≫= row_of) = length (groups_with_alleles bs).
Proof.
  unfold groups_with_alleles.
  induction 1 as [|b bs [r Hr] _ IH]; [done|].
  rewrite bind_cons, length_app, IH, (row_of_length _ _ Hr), filter_cons.
  repeat case_decide; simpl; done.
Qed.

End Completed.

(** ** The counter of output lines *)

Section OutputLines.
Context {np : Numpy}.

(** A turn of the loop that goes on counts one output line when the key of
    its row differs from the previous key. *)
Lemma loop_body_output_lines n line s s' :
  loop_body n line s = Done s' →
  output_lines s'
  = match fields_of line, previous_key s with
    | Some (k', _), Some previous =>
        if decide (k' = previous) then output_lines s else S (output_lines s)
    | _, _ => output_lines s
    end.
Proof.
  destruct (fields_of line) as [[k' [sample_id allele_size]]|] eqn:Hf.
  - destruct (previous_key s) as [previous|] eqn:Hprev.
    + case_decide as Hk.
      * subst. rewrite (loop_body_fields _ _ _ _ _ _ Hf), Hprev. simpl.
        rewrite change_key_same. intros [= <-].
        unfold record_allele_size. by destruct (Py.int allele_size).
      * rewrite (loop_body_change _ _ _ _ _ _ _ Hf Hprev Hk).
        case_decide; [done|]. destruct (process_group _ _ _ _); [|done].
        intros [= <-]. unfold record_allele_size. by destruct (Py.int allele_size).
    + rewrite (loop_body_fields _ _ _ _ _ _ Hf), Hprev. simpl.
      rewrite change_key_same. intros [= <-].
      unfold record_allele_size. by destruct (Py.int allele_size).
  - rewrite (loop_body_malformed _ _ _ Hf). by intros [= <-].
Qed.

Lemma step_counted pre line s s' :
  invariant pre s → counted pre s →
  loop_body (S (length pre)) line s = Done s' →
  counted (pre ++ [line]) s'.
Proof.
  unfold counted. intros Hinv Hc Hbody.
  rewrite (loop_body_output_lines _ _ _ _ Hbody).
  destruct (fields_of line) as [[k' v]|] eqn:Hf.
  - rewrite (records_snoc_Some _ _ _ Hf), blocks_snoc.
    destruct Hinv as [[Hrecs Hprev _ _ _ _ _]|(closed & k & vs & Hb & [Hprev _ _ _ _ _ _ _ _])].
    + rewrite Hprev, Hrecs. rewrite Hrecs in Hc. done.
    + rewrite Hprev, Hc, Hb. case_decide as Hk.
      * subst. rewrite snoc_block_same, !length_app. done.
      * rewrite snoc_block_other by done. rewrite !length_app. simpl. lia.
  - by rewrite (records_snoc_None _ _ Hf).
Qed.

Lemma loop_counted post pre s s' :
  invariant pre s → counted pre s →
  loop (S (length pre)) post s = Done s' →
  invariant (pre ++ post) s' ∧ counted (pre ++ post) s'.
Proof.
  revert pre s. induction post as [|line post IH]; intros pre s Hinv Hc; simpl.
  - intros [= <-]. by rewrite app_nil_r.
  - destruct (loop_body (S (length pre)) line s) as [s1|] eqn:Hbody; [|done].
    intros Hloop. rewrite cons_middle, app_assoc. apply (IH _ s1).
    + by eapply step_invariant.
    + by eapply step_counted.
    + by rewrite length_app, Nat.add_1_r.
Qed.

Lemma finish_output_lines s s' :
  finish s = Done s' →
  output_lines s'
  = match alleles_for_current_key s with
    | [] => output_lines s
    | _ :: _ => S (output_lines s)
    end.
Proof.
  unfold finish. destruct (alleles_for_current_key s); [by intros [= <-]|].
  destruct (current_key s); [|done].
  destruct (process_group _ _ _ _); [|done]. simpl.
  case_decide; [done|]. by intros [= <-].
Qed.

Lemma main_Done_loop infile s :
  main infile = Done s →
  ∃ s0, loop 1 infile initial_state = Done s0 ∧ finish s0 = Done s
        ∧ invariant infile s0 ∧ counted infile s0.
Proof.
  unfold main. destruct (loop 1 infile initial_state) as [s0|] eqn:Hloop; [|done].
  intros Hfin. exists s0. split_and!; [done..| |];
    apply (loop_counted infile [] initial_state); try done;
    apply invariant_initial.
Qed.

End OutputLines.

(** ** Runs that complete *)

Section Runs.
Context {np : Numpy}.

(** X1. On an input in which every key has one group, and on no group of which
    [process_group] raises, the run completes, and the output file holds the
    rows of all the groups in the order of the input: one row for each group
    with a valid allele size. *)
Theorem grouped_input_completes infile :
  NoDup (blocks (records infile)).*1 →
  Forall (λ b, ∃ r, flush b = Ok r) (blocks (records infile)) →
  ∃ s, main infile = Done s
       ∧ outfile s = blocks (records infile) ≫= row_of
       ∧ length (outfile s) = length (groups_with_alleles (blocks (records infile))).
Proof.
  intros Hnd Hfl.
  destruct (main_spec infile)
    as [s Hrecs Hout
       |s closed k vs r Hb _ _ _ _ Hout
       |s pre line post closed k vs k' v -> Hb Hf Hk _ _ Hin _
       |s pre line post closed k vs k' v e -> Hb Hf Hk _ _ _ Hflush _
       |s closed k vs e Hb _ _ Hflush _
       |s closed k vs r Hb _ _ _ _ Hin _].
  - exists s. rewrite Hrecs. by rewrite Hout.
  - exists s. rewrite Hout, <- Hb. split_and!; [done..|]. by apply rows_length.
  - exfalso. destruct (blocks_after_change _ _ post _ _ _ _ _ Hb Hf Hk) as (b & rest & Hb').
    rewrite Hb', fmap_app, fmap_cons in Hnd.
    apply NoDup_app in Hnd as (_ & Hnd & _). apply (Hnd k); [done|left].
  - exfalso. destruct (blocks_after_change _ _ post _ _ _ _ _ Hb Hf Hk) as (b & rest & Hb').
    rewrite Hb' in Hfl. apply Forall_app in Hfl as [_ Hfl].
    apply Forall_cons in Hfl as [[r Hr] _]. congruence.
  - exfalso. rewrite Hb in Hfl. apply Forall_app in Hfl as [_ Hfl].
    apply Forall_cons in Hfl as [[r Hr] _]. congruence.
  - exfalso. rewrite Hb, fmap_app in Hnd.
    apply NoDup_app in Hnd as (_ & Hnd & _). apply (Hnd k); [done|left].
Qed.

(** X2. When the run completes, no key of a group before the last comes back in
    a later group, except that the last group may repeat one when it has no
    valid allele size; [process_group] raised on no group, and the output
    file holds the rows of all the groups in the order of the input. *)
Theorem completed_run_keys_distinct infile s closed k vs :
  main infile = Done s →
  blocks (records infile) = closed ++ [(k, vs)] →
  NoDup closed.*1
  ∧ (valid_alleles vs ≠ [] → k ∉ closed.*1)
  ∧ Forall (λ b, ∃ r, flush b = Ok r) (closed ++ [(k, vs)])
  ∧ outfile s = (closed ++ [(k, vs)]) ≫= row_of.
Proof.
  intros [[Hrecs _]|(closed' & k' & vs' & r & Hb' & Hnd & Hfl & Hflush & Hlast & Hout)]%main_Done_inv Hb.
  - rewrite Hrecs in Hb. by destruct closed.
  - rewrite Hb in Hb'. apply app_inj_tail in Hb' as [<- [= <- <-]].
    split_and!; [done..| |done]. apply Forall_app. split; [done|].
    repeat constructor. by eexists.
Qed.

(** X7. When the run completes, the number of lines that the closing message
    reports is the number of groups closed by a change of key, plus one when
    the last group has a valid allele size. The number of rows in the output
    file is the number of groups with a valid allele size, which is at most
    the number reported. *)
Theorem output_lines_of_completed_run infile s :
  main infile = Done s →
  output_lines s
  = (pred (length (blocks (records infile)))
     + match last (blocks (records infile)) with
       | Some b => if decide (valid_alleles b.2 = []) then 0 else 1
       | None => 0
       end)%nat
  ∧ length (outfile s) = length (groups_with_alleles (blocks (records infile)))
  ∧ (length (outfile s) ≤ output_lines s)%nat.
Proof.
  intros Hmain.
  destruct (main_Done_loop _ _ Hmain) as (s0 & _ & Hfin & Hinv & Hc).
  apply finish_output_lines in Hfin. unfold counted in Hc.
  assert (length (outfile s) = length (groups_with_alleles (blocks (records infile))))
    as Hrows.
  { apply main_Done_inv in Hmain
      as [[Hrecs ->]|(closed & k & vs & r & Hb & _ & Hfl & Hflush & _ & ->)].
    - by rewrite Hrecs.
    - rewrite Hb. apply rows_length, Forall_app. split; [done|].
      repeat constructor. by eexists. }
  assert (output_lines s
          = (pred (length (blocks (records infile)))
             + match last (blocks (records infile)) with
               | Some b => if decide (valid_alleles b.2 = []) then 0 else 1
               | None => 0
               end)%nat) as Hlines.
  { rewrite Hfin, Hc.
    destruct Hinv as [[Hrecs _ Hall _ _ _ _]|(closed & k & vs & Hb & [_ _ Hall _ _ _ _ _ _])].
    - rewrite Hall, Hrecs. done.
    - rewrite Hall, Hb, last_snoc. simpl.
      case_decide as Hv; [rewrite Hv; lia|].
      destruct (valid_alleles vs); [done|lia]. }
  split_and!; [done..|]. rewrite Hrows, Hlines. unfold groups_with_alleles.
  destruct (blocks (records infile)) as [|b bs _] using rev_ind; [done|].
  rewrite filter_app, !length_app, last_snoc, filter_cons, filter_nil. simpl.
  pose proof (length_filter (λ b, valid_alleles b.2 ≠ []) bs).
  repeat case_decide; simpl; try done; lia.
Qed.

(** X8. When the run completes, the set of samples holds the sample of every
    line with four fields, whether its allele size is an integer or not. *)
Theorem sample_ids_of_completed_run infile s :
  main infile = Done s → sample_ids s = samples_of infile.
Proof.
  intros Hmain. destruct (main_Done_loop _ _ Hmain) as (s0 & Hloop & Hfin & _).
  apply loop_Done in Hloop as [Hs _]. apply finish_Done in Hfin as [Hs' _].
  rewrite Hs', Hs. simpl. set_solver.
Qed.

(** X9. When the run completes, it has printed the name of the input, then one
    warning for each line without four fields and for each line with four
    fields whose allele size is not an integer, in the order and with the
    numbers of the lines, then the closing message with the counter of
    output lines and the number of distinct samples. *)
Theorem stdout_of_completed_run infile s :
  main infile = Done s →
  stdout s
  = Processing :: warnings 1 infile ++ [Wrote (output_lines s) (size (samples_of infile))].
Proof.
  intros Hmain. destruct (main_Done_loop _ _ Hmain) as (s0 & Hloop & Hfin & _).
  apply loop_Done in Hloop as [Hs Hout]. apply finish_Done in Hfin as [Hs' Hout'].
  rewrite Hout', Hout, Hs', Hs. simpl.
  by rewrite (right_id_L ∅ (∪)).
Qed.

End Runs.

(** ** Runs without records, appended rows and failing groups *)

Lemma append_empty_r (s : string) : s +:+ "" = s.
Proof.
  induction s as [|c s IH]; [done|].
  change (String c s +:+ "") with (String c (s +:+ "")). by rewrite IH.
Qed.

Section MoreRuns.
Context {np : Numpy}.

Lemma loop_no_record n infile s :
  records infile = [] →
  ∃ s', loop n infile s = Done s'
        ∧ alleles_for_current_key s' = alleles_for_current_key s
        ∧ outfile s' = outfile s
        ∧ output_lines s' = output_lines s
        ∧ sample_ids s' = sample_ids s
        ∧ previously_seen_keys s' = previously_seen_keys s
        ∧ stdout s' = stdout s ++ (SkippingMalformedLine <$> infile).
Proof.
  revert n s. induction infile as [|line infile IH]; intros n s Hrecs; simpl.
  - exists s. by rewrite app_nil_r.
  - unfold records in Hrecs. simpl in Hrecs.
    destruct (fields_of line) eqn:Hf; [done|].
    rewrite (loop_body_malformed _ _ _ Hf).
    destruct (IH (S n) (print (SkippingMalformedLine line) (next_line n s)) Hrecs)
      as (s' & -> & Hall & Hout & Hlines & Hs & Hseen & Hstd).
    exists s'. rewrite Hstd. simpl. by rewrite <- app_assoc.
Qed.

(** X5. On an input without any line of four fields, the empty input among
    them, the run completes without reading the loop variables that no line
    has bound: the output file holds the header only, every line is reported
    as malformed, and the closing message counts no line and no sample. *)
Theorem run_without_records infile :
  records infile = [] →
  ∃ s, main infile = Done s
       ∧ outfile_text (main infile) = header_line
       ∧ previously_seen_keys s = ∅
       ∧ stdout s = Processing :: (SkippingMalformedLine <$> infile) ++ [Wrote 0 0].
Proof.
  intros Hrecs.
  destruct (loop_no_record 1 infile initial_state Hrecs)
    as (s' & Hloop & Hall & Hout & Hlines & Hs & Hseen & Hstd).
  unfold outfile_text, rows_written, main. rewrite Hloop. unfold finish.
  rewrite Hall. simpl. eexists. split_and!; [done| | |].
  - rewrite Hout. simpl. by rewrite append_empty_r.
  - simpl. by rewrite Hseen.
  - simpl. rewrite Hstd, Hlines, Hs.
    change (sample_ids initial_state) with (∅ : gset string). by rewrite size_empty.
Qed.

Lemma change_key_prefix previous current s :
  outfile s `prefix_of` outfile (final_state (change_key previous current s)).
Proof.
  unfold change_key. repeat case_decide; try done.
  destruct (process_group _ _ _ _); simpl; [|done]. by apply prefix_app_r.
Qed.

Lemma loop_body_prefix n line s :
  outfile s `prefix_of` outfile (final_state (loop_body n line s)).
Proof.
  destruct (fields_of line) as [[k [sample_id allele_size]]|] eqn:Hf.
  - rewrite (loop_body_fields _ _ _ _ _ _ Hf).
    pose proof (change_key_prefix (default k (previous_key s)) k
                  (read_fields sample_id k (next_line n s))) as Hp.
    destruct (change_key _ _ _); simpl in *; [|done].
    unfold record_allele_size. by destruct (Py.int allele_size).
  - by rewrite (loop_body_malformed _ _ _ Hf).
Qed.

Lemma loop_prefix n infile s :
  outfile s `prefix_of` outfile (final_state (loop n infile s)).
Proof.
  revert n s. induction infile as [|line infile IH]; intros n s; simpl; [done|].
  pose proof (loop_body_prefix n line s) as Hp.
  destruct (loop_body n line s) as [s1|]; simpl in *; [|done].
  by etrans.
Qed.

Lemma finish_prefix s : outfile s `prefix_of` outfile (final_state (finish s)).
Proof.
  unfold finish. destruct (alleles_for_current_key s); [done|].
  destruct (current_key s); [|done].
  destruct (process_group _ _ _ _); simpl; [|done].
  case_decide; simpl; by apply prefix_app_r.
Qed.

(** X6. Rows are only ever appended to the output file: the rows written when
    the first lines of the input have been read are the first rows of the
    output file when the run ends, however it ends. *)
Theorem rows_are_appended pre post :
  rows_written (loop 1 pre initial_state) `prefix_of` rows_written (main (pre ++ post)).
Proof.
  unfold rows_written, main. rewrite loop_app.
  destruct (loop 1 pre initial_state) as [s1|e s1]; simpl; [|done].
  pose proof (loop_prefix (1 + length pre) post s1) as Hp.
  destruct (loop _ post s1) as [s2|]; simpl in *; [|done].
  etrans; [done|]. apply finish_prefix.
Qed.

(** X3. When [process_group] raises on a group, the groups before which have
    keys of their own that differ from its key, and on none of which
    [process_group] raises, the run aborts with that exception, and the
    output file holds the rows of the groups before it. *)
Theorem first_failing_group_aborts infile closed k vs rest e :
  blocks (records infile) = closed ++ (k, vs) :: rest →
  NoDup closed.*1 →
  k ∉ closed.*1 →
  Forall (λ b, ∃ r, flush b = Ok r) closed →
  flush (k, vs) = Raise e →
  ∃ s, main infile = Aborted e s ∧ outfile s = closed ≫= row_of.
Proof.
  intros Hb Hnd Hk Hfl Hflush.
  assert (∀ closed' k1 vs1 rest',
            blocks (records infile) = closed' ++ (k1, vs1) :: rest' →
            Forall (λ b, ∃ r, flush b = Ok r) closed' →
            k1 ∈ closed'.*1 → False) as Hno.
  { intros closed' k1 vs1 rest' Hb' Hfl' Hin. rewrite Hb in Hb'.
    apply app_cons_eq_inv in Hb' as [(<- & [= <- <-] & _)|[(m & ->)|(m & ->)]].
    - done.
    - apply Forall_app in Hfl' as [_ Hfl'].
      apply Forall_cons in Hfl' as [[r Hr] _]. congruence.
    - rewrite fmap_app, fmap_cons in Hnd.
      apply NoDup_app in Hnd as (_ & Hnd & _). apply (Hnd k1); [done|left]. }
  assert (∀ closed' k1 vs1 rest' e',
            blocks (records infile) = closed' ++ (k1, vs1) :: rest' →
            Forall (λ b, ∃ r, flush b = Ok r) closed' →
            flush (k1, vs1) = Raise e' → closed' = closed ∧ e' = e) as Hsame.
  { intros closed' k1 vs1 rest' e' Hb' Hfl' Hflush'. rewrite Hb in Hb'.
    apply app_cons_eq_inv in Hb' as [(<- & [= <- <-] & _)|[(m & ->)|(m & ->)]].
    - split; [done|congruence].
    - apply Forall_app in Hfl' as [_ Hfl'].
      apply Forall_cons in Hfl' as [[r Hr] _]. congruence.
    - apply Forall_app in Hfl as [_ Hfl].
      apply Forall_cons in Hfl as [[r Hr] _]. congruence. }
  destruct (main_spec infile)
    as [s Hrecs _
       |s closed' k1 vs1 r Hb' _ Hfl' Hflush' _ _
       |s pre line post closed' k1 vs1 k' v -> Hb' Hf Hk' _ Hfl' Hin' _
       |s pre line post closed' k1 vs1 k' v e' -> Hb' Hf Hk' _ Hfl' _ Hflush' Hout
       |s closed' k1 vs1 e' Hb' _ Hfl' Hflush' Hout
       |s closed' k1 vs1 r Hb' _ Hfl' _ Hflush' Hin' _].
  - rewrite Hrecs in Hb. by destruct closed.
  - exfalso.
    assert (∃ r', flush (k, vs) = Ok r') as [r' Hr']; [|congruence].
    assert ((k, vs) ∈ closed' ++ [(k1, vs1)]) as Hin.
    { rewrite <- Hb', Hb, elem_of_app, elem_of_cons. auto. }
    apply elem_of_app in Hin as [Hin|Hin%list_elem_of_singleton].
    + eapply Forall_forall in Hfl'; done.
    + injection Hin as -> ->. by eexists.
  - exfalso.
    destruct (blocks_after_change _ _ post _ _ _ _ _ Hb' Hf Hk') as (b & rest' & Hb2).
    apply (Hno closed' k1 vs1 (b :: rest')); eauto.
  - destruct (blocks_after_change _ _ post _ _ _ _ _ Hb' Hf Hk') as (b & rest' & Hb2).
    destruct (Hsame _ _ _ _ _ Hb2 Hfl' Hflush') as [-> ->]. by exists s.
  - destruct (Hsame _ _ _ _ _ Hb' Hfl' Hflush') as [-> ->]. by exists s.
  - exfalso. apply (Hno closed' k1 vs1 []); eauto.
Qed.

End MoreRuns.

(** ** More on the row of a group *)

(** Sorting forgets the order of the list. *)
Lemma merge_sort_Z_Permutation (l1 l2 : list Z) :
  l1 ≡ₚ l2 → merge_sort Z.le l1 = merge_sort Z.le l2.
Proof.
  intros Hp. apply (Sorted_unique Z.le); try apply Sorted_merge_sort; try apply _.
  by rewrite !merge_sort_Permutation.
Qed.

Section GroupRows.
Context {np : Numpy}.

(** The locus id that lines 37 to 46 choose is one of the pieces between the
    commas. *)
Lemma resolve_locus_id_candidate raw_locus_id group_motif found :
  resolve_locus_id raw_locus_id group_motif = Ok found →
  found ∈ Py.split "," raw_locus_id.
Proof.
  unfold resolve_locus_id. destruct (Py.contains "," raw_locus_id) eqn:Hcomma.
  - destruct (find _ _) as [c|] eqn:Hfind; [|done]. intros [= <-].
    revert Hfind. generalize (Py.split "," raw_locus_id). intros l.
    induction l as [|y l IH]; simpl; [done|].
    destruct (Py.endswith y _); [intros [= <-]; left|intros ?; right; auto].
  - intros [= <-]. rewrite split_without_sep by done. left.
Qed.

(** X14. The [locus_id] of a row that [process_group] writes is one of the pieces
    between the commas of the locus id of the group, the whole of it when it
    holds no comma: the column never holds a comma. *)
Theorem locus_id_is_one_candidate raw_locus_id group_motif allele_sizes by_sample r :
  process_group raw_locus_id group_motif allele_sizes by_sample = Ok (Some r) →
  locus_id r ∈ Py.split "," raw_locus_id
  ∧ Py.contains "," (locus_id r) = false
  ∧ (Py.contains "," raw_locus_id = false → locus_id r = raw_locus_id).
Proof.
  intros (_ & found & gc & Hres & _ & -> & _)%process_group_row.
  pose proof (resolve_locus_id_candidate _ _ _ Hres) as Hin.
  split_and!; [done| |].
  - pose proof (split_no_sep "," raw_locus_id) as Hall.
    by eapply Forall_forall in Hall.
  - intros Hcomma. rewrite split_without_sep in Hin by done.
    by apply list_elem_of_singleton in Hin.
Qed.

(** X15. The entries of the [allele_size_histogram] of a row come in strictly
    increasing order of allele size: every allele size of the group has one
    entry, and the sizes of the entries are those of the sorted alleles. *)
Theorem allele_size_histogram_ascending raw_locus_id group_motif allele_sizes by_sample r :
  process_group raw_locus_id group_motif allele_sizes by_sample = Ok (Some r) →
  ∃ entries,
    allele_size_histogram r = Py.join "," (format_allele_count <$> entries)
    ∧ StronglySorted (λ x y, x.1 < y.1) entries
    ∧ (∀ a, a ∈ entries.*1 ↔ a ∈ allele_sizes)
    ∧ (∀ a n, (a, n) ∈ entries → n = occurrences a allele_sizes).
Proof.
  intros (_ & found & gc & _ & _ & _ & _ & Hhist & _)%process_group_row.
  exists (allele_size_entries allele_sizes).
  destruct (allele_size_entries_spec allele_sizes) as [Hsorted Hentries].
  split_and!; [done..| |].
  - intros a. rewrite list_elem_of_fmap. split.
    + intros ([a' n] & -> & [Hn Heq]%Hentries). simpl. apply occurrences_pos. lia.
    + intros Hin%occurrences_pos. exists (a, occurrences a allele_sizes).
      split; [done|]. by apply Hentries.
  - by intros a n [_ ->]%Hentries.
Qed.

(** X16. The row of a group depends on the allele sizes as a multiset only:
    [process_group] returns the same row, or raises the same exception, for
    any other order of the list of allele sizes. *)
Theorem process_group_order_of_alleles
    raw_locus_id group_motif allele_sizes allele_sizes' by_sample :
  allele_sizes ≡ₚ allele_sizes' →
  process_group raw_locus_id group_motif allele_sizes by_sample
  = process_group raw_locus_id group_motif allele_sizes' by_sample.
Proof.
  intros Hp. destruct allele_sizes as [|a l] eqn:Ha.
  - apply Permutation_nil in Hp. by subst.
  - rewrite <- Ha in *.
    assert (allele_sizes ≠ []) as Hne by (by rewrite Ha).
    assert (allele_sizes' ≠ []) as Hne'.
    { intros ->. by apply Hne, Permutation_nil_r. }
    rewrite !process_group_nonempty by done.
    unfold allele_size_entries, mode_of.
    by rewrite (merge_sort_Z_Permutation _ _ Hp).
Qed.

End GroupRows.

(** ** The dictionary of the open group *)

Section Lookup.
Context {K V : Type} `{EqDecision K}.

Lemma alleles_of_append_to (k k' : K) (v : V) (d : list (K * list V)) :
  alleles_of k' (append_to k v d)
  = if decide (k' = k) then alleles_of k' d ++ [v] else alleles_of k' d.
Proof.
  induction d as [|[k0 vs] d IH]; simpl.
  - by repeat case_decide.
  - repeat (case_decide; simpl; subst); congruence.
Qed.

Lemma elem_of_by_key (k : K) (vs : list V) (d : list (K * list V)) :
  NoDup d.*1 → (k, vs) ∈ d ↔ k ∈ d.*1 ∧ alleles_of k d = vs.
Proof.
  induction d as [|[k0 vs0] d IH]; simpl; intros Hd.
  - split; [by intros ?%elem_of_nil|by intros [?%elem_of_nil _]].
  - apply NoDup_cons in Hd as [Hk0 Hd]. rewrite !elem_of_cons, (IH Hd).
    case_decide as Hk; subst; split.
    + intros [[= ->]|[? _]]; [by auto|done].
    + intros [_ ->]. by left.
    + intros [[= -> ->]|[? ?]]; [done|by auto].
    + intros [[?|?] ?]; [done|by auto].
Qed.

End Lookup.

Lemma alleles_of_by_sample (sample_id : string) (vs : list (string * string)) :
  alleles_of sample_id (alleles_by_sample vs) = alleles_of_sample sample_id vs.
Proof.
  unfold alleles_by_sample, alleles_of_sample.
  induction (valid_records vs) as [|[s n] l IH] using rev_ind; [done|].
  rewrite fold_left_app. simpl. rewrite alleles_of_append_to, IH.
  rewrite filter_app, fmap_app, filter_cons, filter_nil. simpl.
  repeat case_decide; simplify_eq; simpl; by rewrite ?app_nil_r.
Qed.

Lemma alleles_of_sample_nonempty (sample_id : string) (vs : list (string * string)) :
  alleles_of_sample sample_id vs ≠ [] ↔ sample_id ∈ (valid_records vs).*1.
Proof.
  unfold alleles_of_sample. rewrite list_elem_of_fmap. split.
  - intros Hne. destruct (filter _ _) as [|[s n] f] eqn:Hf; [done|].
    assert ((s, n) ∈ filter (λ x, x.1 = sample_id) (valid_records vs)) as Hin
      by (rewrite Hf; left).
    apply list_elem_of_filter in Hin as [Hs Hin]. by exists (s, n).
  - intros ([s n] & -> & Hin). simpl. intros Hnil.
    assert ((s, n) ∈ filter (λ x, x.1 = s) (valid_records vs)) as Hin'
      by (by apply list_elem_of_filter).
    apply (fmap_nil_inv snd) in Hnil. rewrite Hnil in Hin'.
    by apply elem_of_nil in Hin'.
Qed.

(** The entries of the dictionary of a group: one for each sample with a
    valid record, with the valid allele sizes of the sample in the order of
    the input. *)
Lemma alleles_by_sample_spec (vs : list (string * string)) sample_id allele_list :
  (sample_id, allele_list) ∈ alleles_by_sample vs
  ↔ allele_list ≠ [] ∧ allele_list = alleles_of_sample sample_id vs.
Proof.
  destruct (alleles_by_sample_keys vs) as [Hnd Hkeys].
  rewrite (elem_of_by_key _ _ _ Hnd), Hkeys, alleles_of_by_sample.
  rewrite <- alleles_of_sample_nonempty. split.
  - by intros [Hne <-].
  - by intros [Hne ->].
Qed.

Section Dictionary.
Context {np : Numpy}.

(** X10. While the loop runs, the list of the open group holds its valid allele
    sizes in the order of the input, and its dictionary holds one entry for
    each sample with a valid record in the group so far: the valid allele
    sizes of the sample, in the order of the input. *)
Theorem accumulators_of_open_group pre s closed k vs :
  loop 1 pre initial_state = Done s →
  blocks (records pre) = closed ++ [(k, vs)] →
  alleles_for_current_key s = valid_alleles vs
  ∧ NoDup (alleles_for_current_key_by_sample_id s).*1
  ∧ ∀ sample_id allele_list,
      (sample_id, allele_list) ∈ alleles_for_current_key_by_sample_id s
      ↔ allele_list ≠ [] ∧ allele_list = alleles_of_sample sample_id vs.
Proof.
  intros Hloop Hb.
  assert (invariant pre s) as Hinv
    by (apply (loop_invariant pre [] initial_state); [apply invariant_initial|done]).
  destruct Hinv as [[Hrecs _ _ _ _ _ _]|(closed' & k' & vs' & Hb' & [_ _ Hall Hby _ _ _ _ _])].
  - rewrite Hrecs in Hb. by destruct closed.
  - rewrite Hb in Hb'. apply app_inj_tail in Hb' as [_ [= <- <-]].
    rewrite Hall, Hby. split_and!; [done|apply alleles_by_sample_keys|].
    apply alleles_by_sample_spec.
Qed.

End Dictionary.

(** ** The exceptions of a run *)



Section Exceptions.
Context {np : Numpy}.





End Exceptions.

(** ** Stripped lines *)

Section Strip.

Lemma lstrip_length (s : string) : (String.length (Py.lstrip s) ≤ String.length s)%nat.
Proof.
  induction s as [|c s IH]; simpl; [done|].
  destruct (Py.isspace c); simpl; lia.
Qed.

(** What [lstrip] returns does not start with white space. *)
Lemma lstrip_head (s : string) :
  Py.lstrip s = "" ∨ ∃ c s', Py.lstrip s = String c s' ∧ Py.isspace c = false.
Proof.
  induction s as [|c s IH]; simpl; [by left|].
  destruct (Py.isspace c) eqn:Hc; [done|]. right. by exists c, s.
Qed.

Lemma lstrip_fixed (c : ascii) (s : string) :
  Py.lstrip (String c s) = String c s ↔ Py.isspace c = false.
Proof.
  simpl. destruct (Py.isspace c) eqn:Hc; [|done]. split; [|done].
  intros Heq. pose proof (lstrip_length s) as Hlen. rewrite Heq in Hlen.
  simpl in Hlen. lia.
Qed.

Lemma rstrip_cons (c : ascii) (s : string) :
  Py.rstrip (String c s)
  = match Py.rstrip s with
    | "" => if Py.isspace c then "" else String c ""
    | t => String c t
    end.
Proof. done. Qed.

Lemma rstrip_head (c : ascii) (s : string) :
  Py.isspace c = false → ∃ s', Py.rstrip (String c s) = String c s'.
Proof.
  intros Hc. rewrite rstrip_cons, Hc. destruct (Py.rstrip s); by eexists.
Qed.

Lemma rstrip_rstrip (s : string) : Py.rstrip (Py.rstrip s) = Py.rstrip s.
Proof.
  induction s as [|c s IH]; [done|]. rewrite rstrip_cons.
  destruct (Py.rstrip s) as [|d u] eqn:Hs.
  - destruct (Py.isspace c) eqn:Hc; [done|]. by rewrite rstrip_cons, Hc.
  - by rewrite rstrip_cons, IH.
Qed.

Lemma rstrip_fixed (c : ascii) (s : string) :
  Py.rstrip (String c s) = String c s
  ↔ (s = "" ∧ Py.isspace c = false) ∨ (s ≠ "" ∧ Py.rstrip s = s).
Proof.
  rewrite rstrip_cons. destruct (Py.rstrip s) as [|d u] eqn:Hs.
  - destruct (Py.isspace c) eqn:Hc.
    + split; [done|]. intros [[_ ?]|[Hne Heq]]; [done|]. by rewrite <- Heq in Hne.
    + split.
      * intros [= <-]. by left.
      * intros [[-> _]|[Hne Heq]]; [done|]. by rewrite <- Heq in Hne.
  - split.
    + intros [= <-]. by right.
    + intros [[-> _]|[_ <-]]; [done|done].
Qed.

(** The result of [strip] does not start and does not end with white
    space. *)
Lemma strip_stripped (s : string) :
  Py.lstrip (Py.strip s) = Py.strip s ∧ Py.rstrip (Py.strip s) = Py.strip s.
Proof.
  unfold Py.strip. split; [|apply rstrip_rstrip].
  destruct (lstrip_head s) as [->|(c & s' & -> & Hc)]; [done|].
  destruct (rstrip_head c s' Hc) as [u ->]. by apply lstrip_fixed.
Qed.

(** The first of several pieces of a string that does not start with white
    space, split at a white space character. *)
Lemma split_first (sep : ascii) (s f1 f2 : string) (fs : list string) :
  Py.isspace sep = true →
  Py.lstrip s = s →
  Py.split sep s = f1 :: f2 :: fs →
  f1 ≠ "" ∧ Py.lstrip f1 = f1.
Proof.
  intros Hsep Hs. destruct s as [|c s]; [done|].
  apply lstrip_fixed in Hs. simpl.
  destruct (Ascii.eqb_spec c sep) as [->|Hc]; [congruence|].
  destruct (Py.split sep s) as [|w ws]; intros [= <- _]; (split; [done|]);
    by apply lstrip_fixed.
Qed.

(** The last piece of a string that does not end with white space, split at
    a white space character. *)
Lemma split_last (sep : ascii) (s : string) :
  Py.isspace sep = true →
  Py.rstrip s = s →
  ∃ fl, last (Py.split sep s) = Some fl ∧ (fl = "" → s = "") ∧ Py.rstrip fl = fl.
Proof.
  intros Hsep. induction s as [|c s IH]; [by exists ""|].
  intros [[-> Hc]|[Hne Hs]]%rstrip_fixed.
  - simpl. destruct (Ascii.eqb_spec c sep) as [->|Hcs]; [congruence|].
    exists (String c ""). split_and!; [done..|]. apply rstrip_fixed. by left.
  - destruct (IH Hs) as (fl & Hlast & Hfl & Hrs).
    assert (fl ≠ "") as Hfl' by (intros ?; by apply Hne, Hfl).
    pose proof (split_nonempty sep s) as Hsplit. simpl.
    destruct (Ascii.eqb_spec c sep) as [->|Hcs].
    + exists fl. split_and!; [|done..].
      destruct (Py.split sep s); [done|]. done.
    + destruct (Py.split sep s) as [|w [|w' ws]]; [done| |].
      * injection Hlast as ->. exists (String c fl). split_and!; [done..|].
        apply rstrip_fixed. by right.
      * exists fl. by split_and!.
Qed.

(** X11. Line 105 strips the line before it is split: the locus id of a line
    with four fields is not empty and does not start with white space, and
    its allele size is not empty and does not end with white space. *)
Theorem fields_of_stripped_line line k sample_id allele_size :
  fields_of line = Some (k, (sample_id, allele_size)) →
  k.1 ≠ "" ∧ allele_size ≠ ""
  ∧ Py.lstrip k.1 = k.1 ∧ Py.rstrip allele_size = allele_size.
Proof.
  unfold fields_of. destruct (strip_stripped line) as [Hl Hr].
  assert (Py.isspace TAB = true) as Hsep by done.
  destruct (split_last TAB _ Hsep Hr) as (fl & Hlast & Hfl & Hrs).
  destruct (Py.split TAB (Py.strip line)) as [|f1 [|f2 [|f3 [|f4 [|f5 fs]]]]] eqn:Hsplit;
    try done.
  intros [= <- <- <-]. simpl in Hlast. injection Hlast as ->.
  destruct (split_first TAB _ _ _ _ Hsep Hl Hsplit) as [Hf1 Hl1]. simpl.
  split_and!; [done| |done..].
  intros Hfl'. apply Hfl in Hfl'. by rewrite Hfl' in Hsplit.
Qed.

End Strip.

(** ** The columns of a row *)

Section Columns.

Lemma contains_append (c : ascii) (s1 s2 : string) :
  Py.contains c (s1 +:+ s2) = Py.contains c s1 || Py.contains c s2.
Proof.
  induction s1 as [|c1 s1 IH]; [done|].
  change (String c1 s1 +:+ s2) with (String c1 (s1 +:+ s2)). simpl.
  by rewrite IH, orb_assoc.
Qed.

Lemma contains_join (c : ascii) (sep : string) (parts : list string) :
  Py.contains c sep = false →
  Forall (λ w, Py.contains c w = false) parts →
  Py.contains c (Py.join sep parts) = false.
Proof.
  intros Hsep. induction 1 as [|p ps Hp Hps IH]; [done|].
  destruct ps as [|p' ps]; [done|].
  change (Py.join sep (p :: p' :: ps)) with (p +:+ sep +:+ Py.join sep (p' :: ps)).
  by rewrite !contains_append, Hp, Hsep, IH.
Qed.

(** The pieces of a string hold no character that the string does not
    hold. *)
Lemma split_contains (c sep : ascii) (s : string) :
  Py.contains c s = false →
  Forall (λ w, Py.contains c w = false) (Py.split sep s).
Proof.
  induction s as [|c' s IH]; simpl; [by repeat constructor|].
  intros [Hc Hs]%orb_false_iff. specialize (IH Hs).
  destruct (Ascii.eqb c' sep); [by constructor|].
  destruct (Py.split sep s) as [|w ws]; [by repeat constructor; simpl; rewrite Hc|].
  inversion IH as [|? ? Hw Hws]; subst. constructor; [|done].
  simpl. by rewrite Hc, Hw.
Qed.

(** Splitting what [join] made of pieces without the separator gives the
    pieces back. *)
Lemma split_join (sep : ascii) (parts : list string) :
  parts ≠ [] →
  Forall (λ w, Py.contains sep w = false) parts →
  Py.split sep (Py.join (String sep "") parts) = parts.
Proof.
  intros Hne Hall. induction Hall as [|p ps Hp Hps IH]; [done|]. clear Hne.
  destruct ps as [|p' ps].
  - simpl. by apply split_without_sep.
  - change (Py.join (String sep "") (p :: p' :: ps))
      with (p +:+ String sep "" +:+ Py.join (String sep "") (p' :: ps)).
    specialize (IH ltac:(done)). revert IH.
    generalize (Py.join (String sep "") (p' :: ps)). intros rest IH.
    clear Hps. induction p as [|c p IHp].
    + change ("" +:+ String sep "" +:+ rest) with (String sep rest).
      simpl. by rewrite Ascii.eqb_refl, IH.
    + change (String c p +:+ String sep "" +:+ rest)
        with (String c (p +:+ String sep "" +:+ rest)).
      simpl in Hp. apply orb_false_iff in Hp as [Hc Hp].
      simpl. rewrite Hc, (IHp Hp). done.
Qed.

Lemma contains_TAB_uint (d : Decimal.uint) :
  Py.contains TAB (NilEmpty.string_of_uint d) = false.
Proof. induction d; simpl; done. Qed.

Lemma contains_TAB_str (n : Z) : Py.contains TAB (Py.str n) = false.
Proof.
  unfold Py.str, NilZero.string_of_int, NilZero.string_of_uint.
  destruct (Z.to_int n) as [d|d]; destruct d; simpl; try done;
    apply contains_TAB_uint.
Qed.

Lemma contains_TAB_pad3 (n : Z) : Py.contains TAB (Py.pad3 n) = false.
Proof.
  unfold Py.pad3. repeat case_match; rewrite ?contains_append, contains_TAB_str; done.
Qed.

Lemma contains_TAB_format_3f (x : float) : Py.contains TAB (Py.format_3f x) = false.
Proof.
  unfold Py.format_3f. destruct (Prim2SF x) as [[]|[]| |[] m e]; try done;
    rewrite ?contains_append, ?contains_TAB_str, ?contains_TAB_pad3; done.
Qed.

Lemma contains_TAB_allele_count (x : Z * nat) :
  Py.contains TAB (format_allele_count x) = false.
Proof.
  unfold format_allele_count, Py.str_nat.
  by rewrite !contains_append, !contains_TAB_str.
Qed.

Lemma contains_TAB_genotype_count (x : (Z * Z) * nat) :
  Py.contains TAB (format_genotype_count x) = false.
Proof.
  unfold format_genotype_count, Py.str_nat.
  by rewrite !contains_append, !contains_TAB_str.
Qed.

End Columns.

Section Table.
Context {np : Numpy}.

(** Every group holds a record of the input with its key. *)
Lemma blocks_key_record {K V : Type} `{EqDecision K} (recs : list (K * V)) k vs :
  (k, vs) ∈ blocks recs → ∃ v, (k, v) ∈ recs.
Proof.
  intros Hin. pose proof (blocks_nonempty recs) as Hne.
  eapply Forall_forall in Hne; [|done]. simpl in Hne.
  destruct vs as [|v vs]; [done|]. exists v.
  rewrite <- (unblocks_blocks recs). unfold unblocks.
  apply list_elem_of_bind. exists (k, v :: vs). split; [|done]. simpl. left.
Qed.

Lemma records_line infile k v :
  (k, v) ∈ records infile → ∃ line, line ∈ infile ∧ fields_of line = Some (k, v).
Proof. unfold records. by intros ?%list_elem_of_omap. Qed.

(** No field of a line holds a TAB. *)
Lemma fields_of_no_TAB line k sample_id allele_size :
  fields_of line = Some (k, (sample_id, allele_size)) →
  Forall (λ w, Py.contains TAB w = false) [k.1; k.2; sample_id; allele_size].
Proof.
  unfold fields_of. pose proof (split_no_sep TAB (Py.strip line)) as Hall.
  destruct (Py.split TAB (Py.strip line)) as [|f1 [|f2 [|f3 [|f4 [|f5 fs]]]]];
    try done.
  by intros [= <- <- <-].
Qed.

(** X13. No column of a row in the output file holds a TAB, so that every line of
    the output file, without its line feed, splits at the TABs into the nine
    columns of its row. *)
Theorem rows_split_into_columns infile r :
  r ∈ rows_written (main infile) →
  row_line r = Py.join (String TAB "") (columns r) +:+ String LF ""
  ∧ Forall (λ w, Py.contains TAB w = false) (columns r)
  ∧ Py.split TAB (Py.join (String TAB "") (columns r)) = columns r.
Proof.
  intros ([raw_locus_id group_motif] & vs & Hin & Hflush)%rows_written_flush.
  apply blocks_key_record in Hin as [[sample_id allele_size] Hin].
  apply records_line in Hin as (line & _ & Hf).
  apply fields_of_no_TAB in Hf. simpl in Hf.
  apply Forall_cons in Hf as [Hlocus Hf]. apply Forall_cons in Hf as [Hmotif _].
  unfold flush in Hflush. simpl in Hflush.
  apply process_group_row in Hflush
    as (_ & found & gc & Hres & _ & Hl & Hm & Ha & Hb & _ & Hmean & Hstd & _).
  assert (Forall (λ w, Py.contains TAB w = false) (columns r)) as Hall.
  { unfold columns. rewrite Hl, Hm, Ha, Hb, Hmean, Hstd.
    repeat apply Forall_cons_2; try apply Forall_nil_2;
      try apply contains_TAB_str; try apply contains_TAB_format_3f; try done.
    - apply resolve_locus_id_candidate in Hres.
      pose proof (split_contains TAB "," raw_locus_id Hlocus) as Hc.
      by eapply Forall_forall in Hc.
    - apply contains_join; [done|]. apply Forall_fmap, Forall_forall.
      intros x _. apply contains_TAB_allele_count.
    - apply contains_join; [done|]. apply Forall_fmap, Forall_forall.
      intros x _. apply contains_TAB_genotype_count. }
  split_and!; [reflexivity|exact Hall|]. by apply split_join.
Qed.

End Table.

(** ** The order of the records of a group *)

(** The genotype of a sample does not depend on the order of its alleles. *)
Lemma genotype_Permutation (al al' : list Z) : al ≡ₚ al' → genotype al = genotype al'.
Proof.
  intros Hp. pose proof (Permutation_length Hp) as Hlen.
  destruct al as [|a [|b [|c al]]], al' as [|a' [|b' [|c' al']]]; simpl in *; try done.
  - apply Permutation_length_1 in Hp as ->. done.
  - apply Permutation_length_2 in Hp as [[-> ->]|[-> ->]]; [done|].
    by rewrite Z.min_comm, Z.max_comm.
Qed.

Lemma valid_records_Permutation (vs vs' : list (string * string)) :
  vs ≡ₚ vs' → valid_records vs ≡ₚ valid_records vs'.
Proof. intros Hp. unfold valid_records. by rewrite Hp. Qed.

Lemma alleles_of_sample_Permutation sample_id (vs vs' : list (string * string)) :
  vs ≡ₚ vs' → alleles_of_sample sample_id vs ≡ₚ alleles_of_sample sample_id vs'.
Proof.
  intros Hp%valid_records_Permutation. unfold alleles_of_sample. by rewrite Hp.
Qed.

(** The samples of a group with their genotypes. *)
Lemma genotypes_by_sample_Permutation (vs vs' : list (string * string)) :
  vs ≡ₚ vs' →
  (λ x, (x.1, genotype x.2)) <$> alleles_by_sample vs
  ≡ₚ (λ x, (x.1, genotype x.2)) <$> alleles_by_sample vs'.
Proof.
  intros Hp.
  assert (∀ ws : list (string * string),
            NoDup ((λ x : string * list Z, (x.1, genotype x.2)) <$> alleles_by_sample ws))
    as Hnd.
  { intros ws. apply (NoDup_fmap_1 fst). rewrite <- list_fmap_compose.
    apply alleles_by_sample_keys. }
  assert (∀ ws s og,
            (s, og) ∈ (λ x : string * list Z, (x.1, genotype x.2)) <$> alleles_by_sample ws
            ↔ alleles_of_sample s ws ≠ [] ∧ og = genotype (alleles_of_sample s ws))
    as Hin.
  { intros ws s og. rewrite list_elem_of_fmap. split.
    - intros ([s' al] & [= -> ->] & [Hne ->]%alleles_by_sample_spec). done.
    - intros [Hne ->]. exists (s, alleles_of_sample s ws). split; [done|].
      by apply alleles_by_sample_spec. }
  apply NoDup_Permutation; [apply Hnd..|].
  intros [s og]. rewrite !Hin.
  pose proof (alleles_of_sample_Permutation s _ _ Hp) as Hs.
  rewrite (genotype_Permutation _ _ Hs).
  assert (alleles_of_sample s vs = [] ↔ alleles_of_sample s vs' = []) as Hnil.
  { split; intros Hn; rewrite Hn in Hs;
      [by apply Permutation_nil in Hs|by apply Permutation_nil_r in Hs]. }
  naive_solver.
Qed.

Lemma samples_with_genotype_fmap g (d : list (string * list Z)) :
  samples_with_genotype g d
  = length (filter (λ y : string * option (Z * Z), y.2 = Some g)
              ((λ x, (x.1, genotype x.2)) <$> d)).
Proof.
  unfold samples_with_genotype. induction d as [|x d IH]; [done|].
  rewrite fmap_cons, !filter_cons. simpl.
  repeat case_decide; simpl; try done; by rewrite IH.
Qed.

Lemma samples_with_genotype_Permutation g (vs vs' : list (string * string)) :
  vs ≡ₚ vs' →
  samples_with_genotype g (alleles_by_sample vs)
  = samples_with_genotype g (alleles_by_sample vs').
Proof.
  intros Hp%genotypes_by_sample_Permutation.
  by rewrite !samples_with_genotype_fmap, Hp.
Qed.

(** Two lists in strict order with the same elements are equal. *)
Lemma strictly_sorted_eq {A : Type} (R : relation A) (l1 l2 : list A) :
  (∀ x y, R x y → R y x → False) →
  StronglySorted R l1 → StronglySorted R l2 →
  (∀ x, x ∈ l1 ↔ x ∈ l2) → l1 = l2.
Proof.
  intros Hasym H1 H2 Hin.
  assert (∀ l, StronglySorted R l → NoDup l) as Hnd.
  { induction 1 as [|x l Hl IH Hx]; constructor; [|done].
    intros Hxl. eapply Forall_forall in Hx; [|done]. by eapply Hasym. }
  apply (StronglySorted_unique_strong R); [|done..|].
  - intros x y _ _ Hxy Hyx. by destruct (Hasym x y).
  - apply NoDup_Permutation; auto.
Qed.

Section OrderOfRecords.
Context {np : Numpy}.

(** X17. The row of a group does not depend on the order of its records: when
    the flush of a group writes a row, the flush of the same records in any
    other order writes the same row. *)
Theorem group_row_order_of_records k (vs vs' : list (string * string)) r :
  vs ≡ₚ vs' →
  flush (k, vs) = Ok (Some r) →
  flush (k, vs') = Ok (Some r).
Proof.
  intros Hp Hflush. unfold flush in *. simpl in *.
  assert (valid_alleles vs ≡ₚ valid_alleles vs') as Hpa.
  { unfold valid_alleles. by rewrite (valid_records_Permutation _ _ Hp). }
  pose proof (process_group_Some_nonempty _ _ _ _ _ Hflush) as Hne.
  assert (valid_alleles vs' ≠ []) as Hne2.
  { intros Hn. rewrite Hn in Hpa. by apply Permutation_nil_r in Hpa. }
  rewrite process_group_nonempty in Hflush |- * by done.
  unfold allele_size_entries, mode_of in *.
  rewrite <- (merge_sort_Z_Permutation _ _ Hpa).
  apply bind_Ok in Hflush as (found & Hres & Hflush). rewrite Hres. simpl.
  apply bind_Ok in Hflush as (gc & Hgc & Hflush).
  assert (∃ gc', count_genotypes found k.2 (alleles_by_sample vs') [] = Ok gc')
    as [gc' Hgc'].
  { apply count_genotypes_total. apply Forall_forall. intros [s al'] Hin. simpl.
    apply alleles_by_sample_spec in Hin as [Hne' ->].
    pose proof (alleles_of_sample_Permutation s _ _ Hp) as Hs.
    rewrite <- (genotype_Permutation _ _ Hs).
    apply count_genotypes_Ok in Hgc as (Hall & _).
    rewrite Forall_forall in Hall. apply (Hall (s, alleles_of_sample s vs)).
    apply alleles_by_sample_spec. split; [|done].
    intros Hn. rewrite Hn in Hs. by apply Permutation_nil in Hs. }
  rewrite Hgc'. simpl.
  assert (biallelic_entries gc' = biallelic_entries gc) as ->; [|done].
  pose proof (biallelic_entries_spec _ _ _ _ Hgc) as [Hs1 Hin1].
  pose proof (biallelic_entries_spec _ _ _ _ Hgc') as [Hs2 Hin2].
  apply (strictly_sorted_eq genotype_item_lt); [|done..|].
  - intros [[l1 h1] c1] [[l2 h2] c2].
    unfold genotype_item_lt, key_lt, genotype_key. simpl. lia.
  - intros [g n]. by rewrite Hin1, Hin2, (samples_with_genotype_Permutation g _ _ Hp).
Qed.

End OrderOfRecords.

(** ** Lines of four columns *)

Section Lines.

Lemma append_cons (c : ascii) (s t : string) : String c s +:+ t = String c (s +:+ t).
Proof. done. Qed.

Lemma append_not_empty (s t : string) : t ≠ "" → s +:+ t ≠ "".
Proof. by destruct s. Qed.

(** White space after a text that does not end with white space is removed
    by [rstrip]. *)
Lemma rstrip_append_space (s : string) (c : ascii) :
  Py.isspace c = true → Py.rstrip s = s → Py.rstrip (s +:+ String c "") = s.
Proof.
  intros Hc. induction s as [|d s IH].
  - intros _. change ("" +:+ String c "") with (String c "").
    by rewrite rstrip_cons, Hc.
  - intros [[-> Hd]|[Hne Hs]]%rstrip_fixed; rewrite append_cons, rstrip_cons.
    + change ("" +:+ String c "") with (String c "").
      by rewrite rstrip_cons, Hc, Hd.
    + rewrite (IH Hs). by destruct s.
Qed.

Lemma rstrip_append (p a : string) :
  a ≠ "" → Py.rstrip a = a → Py.rstrip (p +:+ a) = p +:+ a.
Proof.
  intros Hne Ha. induction p as [|d p IH]; [done|].
  rewrite append_cons. apply rstrip_fixed. right.
  split; [by apply append_not_empty|done].
Qed.

(** X12. A line of four columns without TABs is read as a record when its first
    column is not empty and does not start with white space, and its last
    column is not empty and does not end with white space. *)
Theorem tsv_line_fields (l m s a : string) :
  Forall (λ w, Py.contains TAB w = false) [l; m; s; a] →
  l ≠ "" → a ≠ "" → Py.lstrip l = l → Py.rstrip a = a →
  fields_of (tsv [l; m; s; a]) = Some ((l, m), (s, a)).
Proof.
  intros Hall Hl Ha Hls Hrs. unfold fields_of, tsv.
  assert (Py.strip (Py.join (String TAB "") [l; m; s; a] +:+ String LF "")
          = Py.join (String TAB "") [l; m; s; a]) as ->.
  { unfold Py.strip.
    assert (Py.lstrip (Py.join (String TAB "") [l; m; s; a] +:+ String LF "")
            = Py.join (String TAB "") [l; m; s; a] +:+ String LF "") as ->.
    { destruct l as [|c l]; [done|]. apply lstrip_fixed in Hls.
      cbn [Py.join]. rewrite !append_cons. by apply lstrip_fixed. }
    apply rstrip_append_space; [done|]. cbn [Py.join].
    repeat (apply rstrip_append; [by repeat apply append_not_empty|]); done. }
  rewrite split_join by done. done.
Qed.

End Lines.

(** ** Integers as text *)

Section IntStr.

Lemma int_digits_digit (acc n k : Z) (b : bool) (c : ascii) (s : string) :
  Py.digit c = Some k →
  Py.int_digits acc n b (String c s) = Py.int_digits (10 * acc + k) (n + 1) true s.
Proof. intros Hc. simpl. by rewrite Hc. Qed.

(** The digits of a decimal number, read after the digits of [acc]. *)
Lemma int_digits_of_uint_acc (d : Decimal.uint) (acc : positive) (n : Z) (b : bool) :
  (d = Decimal.Nil → b = true) →
  Py.int_digits (Z.pos acc) n b (NilEmpty.string_of_uint d)
  = Some (Z.pos (Pos.of_uint_acc d acc), n + Z.of_nat (Decimal.nb_digits d), "").
Proof.
  revert acc n b.
  induction d as [|d IH|d IH|d IH|d IH|d IH|d IH|d IH|d IH|d IH|d IH];
    intros acc n b Hb;
    cbn [NilEmpty.string_of_uint Pos.of_uint_acc Decimal.nb_digits].
  - rewrite Hb by done. simpl. do 3 f_equal. lia.
  - rewrite (int_digits_digit _ _ 0) by done.
    replace (10 * Z.pos acc + 0) with (Z.pos (Pos.mul 10 acc)) by lia.
    rewrite IH by done. do 3 f_equal. lia.
  - rewrite (int_digits_digit _ _ 1) by done.
    replace (10 * Z.pos acc + 1) with (Z.pos (Pos.add 1 (Pos.mul 10 acc))) by lia.
    rewrite IH by done. do 3 f_equal. lia.
  - rewrite (int_digits_digit _ _ 2) by done.
    replace (10 * Z.pos acc + 2) with (Z.pos (Pos.add 2 (Pos.mul 10 acc))) by lia.
    rewrite IH by done. do 3 f_equal. lia.
  - rewrite (int_digits_digit _ _ 3) by done.
    replace (10 * Z.pos acc + 3) with (Z.pos (Pos.add 3 (Pos.mul 10 acc))) by lia.
    rewrite IH by done. do 3 f_equal. lia.
  - rewrite (int_digits_digit _ _ 4) by done.
    replace (10 * Z.pos acc + 4) with (Z.pos (Pos.add 4 (Pos.mul 10 acc))) by lia.
    rewrite IH by done. do 3 f_equal. lia.
  - rewrite (int_digits_digit _ _ 5) by done.
    replace (10 * Z.pos acc + 5) with (Z.pos (Pos.add 5 (Pos.mul 10 acc))) by lia.
    rewrite IH by done. do 3 f_equal. lia.
  - rewrite (int_digits_digit _ _ 6) by done.
    replace (10 * Z.pos acc + 6) with (Z.pos (Pos.add 6 (Pos.mul 10 acc))) by lia.
    rewrite IH by done. do 3 f_equal. lia.
  - rewrite (int_digits_digit _ _ 7) by done.
    replace (10 * Z.pos acc + 7) with (Z.pos (Pos.add 7 (Pos.mul 10 acc))) by lia.
    rewrite IH by done. do 3 f_equal. lia.
  - rewrite (int_digits_digit _ _ 8) by done.
    replace (10 * Z.pos acc + 8) with (Z.pos (Pos.add 8 (Pos.mul 10 acc))) by lia.
    rewrite IH by done. do 3 f_equal. lia.
  - rewrite (int_digits_digit _ _ 9) by done.
    replace (10 * Z.pos acc + 9) with (Z.pos (Pos.add 9 (Pos.mul 10 acc))) by lia.
    rewrite IH by done. do 3 f_equal. lia.
Qed.

Lemma int_digits_of_uint (d : Decimal.uint) (n : Z) (b : bool) :
  (d = Decimal.Nil → b = true) →
  Py.int_digits 0 n b (NilEmpty.string_of_uint d)
  = Some (Z.of_N (Pos.of_uint d), n + Z.of_nat (Decimal.nb_digits d), "").
Proof.
  revert n b. induction d as [|d IH|d IH|d IH|d IH|d IH|d IH|d IH|d IH|d IH|d IH];
    intros n b Hb; cbn [NilEmpty.string_of_uint Pos.of_uint Decimal.nb_digits].
  - rewrite Hb by done. simpl. do 3 f_equal. lia.
  - rewrite (int_digits_digit _ _ 0) by done. rewrite IH by done.
    do 3 f_equal. lia.
  - rewrite (int_digits_digit _ _ 1) by done.
    rewrite (int_digits_of_uint_acc d 1) by done. do 3 f_equal. lia.
  - rewrite (int_digits_digit _ _ 2) by done.
    rewrite (int_digits_of_uint_acc d 2) by done. do 3 f_equal. lia.
  - rewrite (int_digits_digit _ _ 3) by done.
    rewrite (int_digits_of_uint_acc d 3) by done. do 3 f_equal. lia.
  - rewrite (int_digits_digit _ _ 4) by done.
    rewrite (int_digits_of_uint_acc d 4) by done. do 3 f_equal. lia.
  - rewrite (int_digits_digit _ _ 5) by done.
    rewrite (int_digits_of_uint_acc d 5) by done. do 3 f_equal. lia.
  - rewrite (int_digits_digit _ _ 6) by done.
    rewrite (int_digits_of_uint_acc d 6) by done. do 3 f_equal. lia.
  - rewrite (int_digits_digit _ _ 7) by done.
    rewrite (int_digits_of_uint_acc d 7) by done. do 3 f_equal. lia.
  - rewrite (int_digits_digit _ _ 8) by done.
    rewrite (int_digits_of_uint_acc d 8) by done. do 3 f_equal. lia.
  - rewrite (int_digits_digit _ _ 9) by done.
    rewrite (int_digits_of_uint_acc d 9) by done. do 3 f_equal. lia.
Qed.

(** A number is at least its leading digits followed by zeros. *)
Lemma of_uint_acc_lower (d : Decimal.uint) (acc : positive) :
  Z.pos acc * 10 ^ Z.of_nat (Decimal.nb_digits d) ≤ Z.pos (Pos.of_uint_acc d acc).
Proof.
  revert acc. induction d as [|d IH|d IH|d IH|d IH|d IH|d IH|d IH|d IH|d IH|d IH];
    intros acc; cbn [Pos.of_uint_acc Decimal.nb_digits];
    [simpl; lia|..];
    (etrans; [|apply IH]);
    rewrite Nat2Z.inj_succ, Z.pow_succ_r by lia;
    pose proof (Z.pow_pos_nonneg 10 (Z.of_nat (Decimal.nb_digits d))
                  ltac:(lia) ltac:(lia));
    nia.
Qed.

Lemma to_uint_not_Nil (p : positive) : Pos.to_uint p ≠ Decimal.Nil.
Proof.
  intros Hnil. pose proof (Unsigned.of_to p) as Hp. by rewrite Hnil in Hp.
Qed.

(** The decimal digits of a positive number start with a digit other than
    zero. *)
Lemma to_uint_head (p : positive) : ∀ d, Pos.to_uint p ≠ Decimal.D0 d.
Proof.
  intros d Hd. pose proof (Unsigned.to_of (Pos.to_uint p)) as Hto.
  rewrite Unsigned.of_to in Hto. simpl in Hto. rewrite Hd in Hto.
  unfold Decimal.unorm in Hto. simpl in Hto.
  pose proof (DecimalFacts.nb_digits_nzhead d) as Hlen.
  destruct (Decimal.nzhead d) eqn:Hnz; try done.
  - injection Hto as ->. by apply (Unsigned.to_uint_nonzero p).
  - apply (f_equal Decimal.nb_digits) in Hto. simpl in Hto, Hlen. lia.
Qed.

(** A positive number below [10 ^ k] has at most [k] digits. *)
Lemma nb_digits_to_uint (p : positive) (k : Z) :
  Z.pos p < 10 ^ k → Z.of_nat (Decimal.nb_digits (Pos.to_uint p)) ≤ k.
Proof.
  intros Hp. destruct (decide (0 ≤ k)) as [Hk|Hk];
    [|rewrite Z.pow_neg_r in Hp by lia; lia].
  pose proof (Unsigned.of_to p) as Hof. pose proof (to_uint_head p) as Hhead.
  pose proof (to_uint_not_Nil p) as Hnil.
  destruct (Pos.to_uint p) as [|d|d|d|d|d|d|d|d|d|d]; [done|by destruct (Hhead d)|..];
    cbn [Pos.of_uint Decimal.nb_digits] in *;
    injection Hof as Hof;
    match type of Hof with
    | Pos.of_uint_acc _ ?a = _ => pose proof (of_uint_acc_lower d a) as Hlow
    end;
    rewrite Hof in Hlow;
    (destruct (decide (Z.of_nat (Decimal.nb_digits d) < k)) as [|Hge]; [lia|]);
    assert (10 ^ k ≤ 10 ^ Z.of_nat (Decimal.nb_digits d))
      by (apply Z.pow_le_mono_r; lia);
    nia.
Qed.

(** The text that [str] makes of the digits of a positive number. *)
Lemma int_of_digits (p : positive) :
  Z.pos p < 10 ^ Py.max_str_digits →
  Py.int (NilEmpty.string_of_uint (Pos.to_uint p)) = Some (Z.pos p)
  ∧ Py.int (String "-" (NilEmpty.string_of_uint (Pos.to_uint p))) = Some (Z.neg p).
Proof.
  intros Hp%nb_digits_to_uint.
  pose proof (to_uint_not_Nil p) as Hne.
  pose proof (int_digits_of_uint (Pos.to_uint p) 0 false ltac:(done)) as Hd.
  rewrite Unsigned.of_to in Hd.
  assert (Py.skip_spaces (NilEmpty.string_of_uint (Pos.to_uint p))
          = NilEmpty.string_of_uint (Pos.to_uint p)) as Hl
    by (by destruct (Pos.to_uint p)).
  unfold Py.int. split.
  - rewrite Hl.
    assert (match NilEmpty.string_of_uint (Pos.to_uint p) with
            | String "+" t => (false, t)
            | String "-" t => (true, t)
            | _ => (false, NilEmpty.string_of_uint (Pos.to_uint p))
            end = (false, NilEmpty.string_of_uint (Pos.to_uint p))) as ->
      by (by destruct (Pos.to_uint p)).
    rewrite Hd. simpl. by rewrite (proj2 (Z.ltb_ge _ _)) by lia.
  - change (Py.skip_spaces (String "-" (NilEmpty.string_of_uint (Pos.to_uint p))))
      with (String "-" (NilEmpty.string_of_uint (Pos.to_uint p))).
    cbv iota beta. rewrite Hd. simpl. by rewrite (proj2 (Z.ltb_ge _ _)) by lia.
Qed.

(** X18. The text that [str] makes of an integer of at most
    [Py.max_str_digits] digits, as the script writes the mode, the median,
    the percentile and the sizes and counts of the histograms, is read back
    by [int], as line 136 applies it to the allele sizes of the input, as
    the same integer. *)
Theorem int_of_str (n : Z) :
  Z.abs n < 10 ^ Py.max_str_digits →
  Py.int (Py.str n) = Some n.
Proof.
  intros Hn. unfold Py.str. destruct n as [|p|p]; [done|..];
    unfold Z.to_int, NilZero.string_of_int, NilZero.string_of_uint;
    pose proof (to_uint_not_Nil p) as Hne;
    destruct (int_of_digits p Hn) as [Hpos Hneg];
    destruct (Pos.to_uint p); done.
Qed.

End IntStr.

(** ** The two histograms of a row *)

Lemma append_to_total {K V : Type} `{EqDecision K} (k : K) (v : V) (d : list (K * list V)) :
  sum_list_with (λ x, length x.2) (append_to k v d)
  = S (sum_list_with (λ x, length x.2) d).
Proof.
  induction d as [|[k0 vs] d IH]; simpl; [done|].
  case_decide; simpl; [rewrite length_app; simpl; lia|]. rewrite IH. lia.
Qed.

(** The lists of the dictionary of a group hold as many allele sizes as the
    group has valid records. *)
Lemma alleles_by_sample_total (vs : list (string * string)) :
  sum_list_with (λ x, length x.2) (alleles_by_sample vs) = length (valid_records vs).
Proof.
  unfold alleles_by_sample.
  induction (valid_records vs) as [|[s n] l IH] using rev_ind; [done|].
  rewrite fold_left_app, length_app. simpl. rewrite append_to_total, IH. lia.
Qed.

Lemma one_or_two_total (d : list (string * list Z)) :
  Forall (λ x, is_Some (genotype x.2)) d →
  (length d ≤ sum_list_with (λ x, length x.2) d ≤ 2 * length d)%nat.
Proof.
  induction 1 as [|x d Hx%genotype_Some_length _ IH]; simpl; lia.
Qed.

Lemma alleles_of_sample_valid sample_id (vs : list (string * string)) a :
  a ∈ alleles_of_sample sample_id vs → a ∈ valid_alleles vs.
Proof.
  unfold alleles_of_sample, valid_alleles. rewrite !list_elem_of_fmap.
  intros (x & -> & [_ Hx]%list_elem_of_filter). by exists x.
Qed.

(** The alleles of a genotype are alleles of the sample, the smaller one
    first. *)
Lemma genotype_alleles (al : list Z) low high :
  genotype al = Some (low, high) → low ≤ high ∧ low ∈ al ∧ high ∈ al.
Proof.
  destruct al as [|a [|b [|c al]]]; simpl; try done; intros [= <- <-].
  - split_and!; [lia|left..].
  - split_and!; [lia| |].
    + destruct (Z.min_spec a b) as [[_ ->]|[_ ->]]; [left|right; left].
    + destruct (Z.max_spec a b) as [[_ ->]|[_ ->]]; [right; left|left].
Qed.

Lemma samples_with_genotype_pos g (d : list (string * list Z)) :
  (0 < samples_with_genotype g d)%nat → ∃ x, x ∈ d ∧ genotype x.2 = Some g.
Proof.
  unfold samples_with_genotype. intros Hlen.
  destruct (filter _ d) as [|x f] eqn:Hf; simpl in Hlen; [lia|].
  assert (x ∈ filter (λ x, genotype x.2 = Some g) d) as Hx by (rewrite Hf; left).
  apply list_elem_of_filter in Hx as [Hg Hx]. by exists x.
Qed.

Section Histograms.
Context {np : Numpy}.

(** X19. The two histograms of a row in the output file agree: the counts of
    the genotypes add up to at most the counts of the allele sizes, which add
    up to at most twice as much, every sample having one or two alleles; and
    the two alleles of every genotype, the smaller one first, are allele sizes
    with an entry in the [allele_size_histogram]. *)
Theorem histograms_agree infile r :
  r ∈ rows_written (main infile) →
  ∃ allele_entries genotype_entries,
    allele_size_histogram r = Py.join "," (format_allele_count <$> allele_entries)
    ∧ biallelic_histogram r = Py.join "," (format_genotype_count <$> genotype_entries)
    ∧ (sum_list_with snd genotype_entries ≤ sum_list_with snd allele_entries
       ≤ 2 * sum_list_with snd genotype_entries)%nat
    ∧ ∀ low high n,
        ((low, high), n) ∈ genotype_entries →
        low ≤ high ∧ low ∈ allele_entries.*1 ∧ high ∈ allele_entries.*1.
Proof.
  intros (k & vs & _ & Hflush)%rows_written_flush.
  unfold flush in Hflush. simpl in Hflush.
  apply process_group_row in Hflush
    as (_ & found & gc & _ & Hgc & _ & _ & Ha & Hg & _).
  exists (allele_size_entries (valid_alleles vs)), (biallelic_entries gc).
  destruct (allele_size_entries_spec (valid_alleles vs)) as [_ Hentries].
  assert (∀ a, a ∈ valid_alleles vs → a ∈ (allele_size_entries (valid_alleles vs)).*1)
    as Hsizes.
  { intros a Hin%occurrences_pos. apply list_elem_of_fmap.
    exists (a, occurrences a (valid_alleles vs)). split; [done|]. by apply Hentries. }
  split_and!; [done..| | |].
  - rewrite (biallelic_entries_sum _ _ _ _ Hgc), allele_size_entries_sum.
    unfold valid_alleles. rewrite length_fmap, <- alleles_by_sample_total.
    apply count_genotypes_Ok in Hgc as (Hall & _). by apply one_or_two_total.
  - rewrite (biallelic_entries_sum _ _ _ _ Hgc), allele_size_entries_sum.
    unfold valid_alleles. rewrite length_fmap, <- alleles_by_sample_total.
    apply count_genotypes_Ok in Hgc as (Hall & _). by apply one_or_two_total.
  - intros low high n Hin.
    apply (biallelic_entries_spec _ _ _ _ Hgc) in Hin as [Hn ->].
    apply samples_with_genotype_pos in Hn as ([s al] & Hin & Hgen). simpl in Hgen.
    apply alleles_by_sample_spec in Hin as [_ ->].
    apply genotype_alleles in Hgen as (Hle & Hlow & Hhigh).
    split_and!; [done|..]; by eapply Hsizes, alleles_of_sample_valid.
Qed.

End Histograms.

(** ** More concrete runs *)

Section MoreExamples.

Lemma grouped_input_completes_witness :
  ∃ s, main infile_unresolved_invalid = Done s
       ∧ outfile s = blocks (records infile_unresolved_invalid) ≫= row_of
       ∧ length (outfile s)
         = length (groups_with_alleles (blocks (records infile_unresolved_invalid))).
Proof.
  apply (grouped_input_completes infile_unresolved_invalid).
  - replace ((blocks (records infile_unresolved_invalid)).*1)
      with [(compound_locus_id, "G"); ("L2", "A")] by (vm_compute; reflexivity).
    apply NoDup_cons_2; [|apply NoDup_singleton].
    apply not_elem_of_cons. split; [discriminate|apply not_elem_of_nil].
  - replace (blocks (records infile_unresolved_invalid))
      with [((compound_locus_id, "G"), [("S1", "abc")]); (("L2", "A"), [("S1", "10")])]
      by (vm_compute; reflexivity).
    apply Forall_cons_2; [eexists; vm_compute; reflexivity|].
    apply Forall_cons_2; [eexists; vm_compute; reflexivity|].
    apply Forall_nil_2.
Defined.

Lemma completed_run_keys_distinct_witness :
  NoDup [(("L1", "A"), [("S1", "10")]); (("L2", "A"), [("S1", "10")])].*1
  ∧ (valid_alleles [("S1", "abc")] ≠ []
     → ("L1", "A") ∉ [(("L1", "A"), [("S1", "10")]); (("L2", "A"), [("S1", "10")])].*1)
  ∧ Forall (λ b, ∃ r, flush b = Ok r)
      ([(("L1", "A"), [("S1", "10")]); (("L2", "A"), [("S1", "10")])]
       ++ [(("L1", "A"), [("S1", "abc")])])
  ∧ outfile (final_state (main infile_repeated_invalid_last))
    = ([(("L1", "A"), [("S1", "10")]); (("L2", "A"), [("S1", "10")])]
       ++ [(("L1", "A"), [("S1", "abc")])]) ≫= row_of.
Proof.
  apply (completed_run_keys_distinct infile_repeated_invalid_last
           (final_state (main infile_repeated_invalid_last))
           [(("L1", "A"), [("S1", "10")]); (("L2", "A"), [("S1", "10")])]
           ("L1", "A") [("S1", "abc")]).
  - vm_compute. reflexivity.
  - vm_compute. reflexivity.
Defined.

Lemma output_lines_of_completed_run_witness :
  output_lines (final_state (main infile_unresolved_invalid))
  = (pred (length (blocks (records infile_unresolved_invalid)))
     + match last (blocks (records infile_unresolved_invalid)) with
       | Some b => if decide (valid_alleles b.2 = []) then 0 else 1
       | None => 0
       end)%nat
  ∧ length (outfile (final_state (main infile_unresolved_invalid)))
    = length (groups_with_alleles (blocks (records infile_unresolved_invalid)))
  ∧ (length (outfile (final_state (main infile_unresolved_invalid)))
     ≤ output_lines (final_state (main infile_unresolved_invalid)))%nat.
Proof.
  apply (output_lines_of_completed_run infile_unresolved_invalid
           (final_state (main infile_unresolved_invalid))).
  vm_compute. reflexivity.
Defined.

Lemma sample_ids_of_completed_run_witness :
  sample_ids (final_state (main infile_repeated_invalid_last))
  = samples_of infile_repeated_invalid_last.
Proof.
  apply (sample_ids_of_completed_run infile_repeated_invalid_last
           (final_state (main infile_repeated_invalid_last))).
  vm_compute. reflexivity.
Defined.

Lemma stdout_of_completed_run_witness :
  stdout (final_state (main infile_repeated_invalid_last))
  = Processing :: warnings 1 infile_repeated_invalid_last
    ++ [Wrote (output_lines (final_state (main infile_repeated_invalid_last)))
          (size (samples_of infile_repeated_invalid_last))].
Proof.
  apply (stdout_of_completed_run infile_repeated_invalid_last
           (final_state (main infile_repeated_invalid_last))).
  vm_compute. reflexivity.
Defined.

Lemma run_without_records_witness :
  ∃ s, main infile_malformed = Done s
       ∧ outfile_text (main infile_malformed) = header_line
       ∧ previously_seen_keys s = ∅
       ∧ stdout s
         = Processing :: (SkippingMalformedLine <$> infile_malformed) ++ [Wrote 0 0].
Proof. apply (run_without_records infile_malformed). reflexivity. Defined.

Lemma first_failing_group_aborts_witness :
  ∃ s, main infile_three_alleles
       = Aborted (UnexpectedAlleleCount 3 "S1" "L1" "A") s
       ∧ outfile s = [] ≫= row_of.
Proof.
  apply (first_failing_group_aborts infile_three_alleles []
           ("L1", "A") [("S1", "10"); ("S1", "11"); ("S1", "12")]
           [(("L2", "A"), [("S1", "10")])]).
  - vm_compute. reflexivity.
  - apply NoDup_nil_2.
  - apply not_elem_of_nil.
  - apply Forall_nil_2.
  - vm_compute. reflexivity.
Defined.

Lemma locus_id_is_one_candidate_witness :
  locus_id tie_row ∈ Py.split "," "L1"
  ∧ Py.contains "," (locus_id tie_row) = false
  ∧ (Py.contains "," "L1" = false → locus_id tie_row = "L1").
Proof.
  apply (locus_id_is_one_candidate "L1" "A" tie_alleles tie_by_sample tie_row).
  vm_compute. reflexivity.
Defined.

Lemma allele_size_histogram_ascending_witness :
  ∃ entries,
    allele_size_histogram tie_row = Py.join "," (format_allele_count <$> entries)
    ∧ StronglySorted (λ x y, x.1 < y.1) entries
    ∧ (∀ a, a ∈ entries.*1 ↔ a ∈ tie_alleles)
    ∧ (∀ a n, (a, n) ∈ entries → n = occurrences a tie_alleles).
Proof.
  apply (allele_size_histogram_ascending "L1" "A" tie_alleles tie_by_sample tie_row).
  vm_compute. reflexivity.
Defined.

Lemma process_group_order_of_alleles_witness :
  process_group "L1" "A" [12; 10; 12; 10] tie_by_sample
  = process_group "L1" "A" [10; 12; 12; 10] tie_by_sample.
Proof.
  apply (process_group_order_of_alleles "L1" "A" [12; 10; 12; 10] [10; 12; 12; 10]
           tie_by_sample).
  apply perm_swap.
Defined.

Lemma accumulators_of_open_group_witness :
  alleles_for_current_key state_before_line_4 = valid_alleles [("S1", "12")]
  ∧ NoDup (alleles_for_current_key_by_sample_id state_before_line_4).*1
  ∧ ∀ sample_id allele_list,
      (sample_id, allele_list) ∈ alleles_for_current_key_by_sample_id state_before_line_4
      ↔ allele_list ≠ [] ∧ allele_list = alleles_of_sample sample_id [("S1", "12")].
Proof.
  apply (accumulators_of_open_group (take 3 infile_repeated) state_before_line_4
           [(("L1", "A"), [("S1", "10")]); (("L2", "A"), [("S1", "10")])]
           ("L1", "A") [("S1", "12")]).
  - vm_compute. reflexivity.
  - vm_compute. reflexivity.
Defined.


Lemma fields_of_stripped_line_witness :
  ("L1", "A").1 ≠ "" ∧ "10" ≠ ""
  ∧ Py.lstrip ("L1", "A").1 = ("L1", "A").1 ∧ Py.rstrip "10" = "10".
Proof.
  apply (fields_of_stripped_line (tsv ["L1"; "A"; "S1"; "10"]) ("L1", "A") "S1" "10").
  reflexivity.
Defined.

Lemma rows_split_into_columns_witness :
  row_line example_row = Py.join (String TAB "") (columns example_row) +:+ String LF ""
  ∧ Forall (λ w, Py.contains TAB w = false) (columns example_row)
  ∧ Py.split TAB (Py.join (String TAB "") (columns example_row)) = columns example_row.
Proof.
  apply (rows_split_into_columns example_infile example_row).
  apply example_row_written.
Defined.

Lemma group_row_order_of_records_witness :
  flush (("L1", "A"), example_records_reordered) = Ok (Some example_row).
Proof.
  apply (group_row_order_of_records ("L1", "A") example_records
           example_records_reordered example_row).
  - symmetry. apply (reverse_Permutation example_records).
  - vm_compute. reflexivity.
Defined.

Lemma tsv_line_fields_witness :
  fields_of (tsv ["L1"; "A"; "S1"; "10"]) = Some (("L1", "A"), ("S1", "10")).
Proof.
  apply (tsv_line_fields "L1" "A" "S1" "10").
  - repeat apply Forall_cons_2; try apply Forall_nil_2; reflexivity.
  - discriminate.
  - discriminate.
  - reflexivity.
  - reflexivity.
Defined.

Lemma int_of_str_witness :
  Z.abs (1 - 10 ^ 4300) < 10 ^ Py.max_str_digits
  ∧ Py.int (Py.str (1 - 10 ^ 4300)) = Some (1 - 10 ^ 4300).
Proof.
  split; [vm_compute; reflexivity|].
  apply (int_of_str (1 - 10 ^ 4300)). vm_compute. reflexivity.
Defined.

Lemma histograms_agree_witness :
  ∃ allele_entries genotype_entries,
    allele_size_histogram example_row
    = Py.join "," (format_allele_count <$> allele_entries)
    ∧ biallelic_histogram example_row
      = Py.join "," (format_genotype_count <$> genotype_entries)
    ∧ (sum_list_with snd genotype_entries ≤ sum_list_with snd allele_entries
       ≤ 2 * sum_list_with snd genotype_entries)%nat
    ∧ ∀ low high n,
        ((low, high), n) ∈ genotype_entries →
        low ≤ high ∧ low ∈ allele_entries.*1 ∧ high ∈ allele_entries.*1.
Proof.
  apply (histograms_agree example_infile example_row).
  apply example_row_written.
Defined.

End MoreExamples.
